(** * Screen-Reader: a shallow embedding of the navigation-and-narration engine

    The development follows the TypeScript sources module by module:
    - [ReaderModality]  (readermodality.ts / readermodality.js)
    - [ModalityStack]   (modalitystack.ts)
    - [Keybinds]        (keybinds.ts)
    - [SpeechSynth]     (speechsynth.ts)
    - [Dom]             the part of the browser's DOM the reader queries
    - [ScreenReader]    (screenreader.ts: key handlers, normalRead, readCell,
                         elementToString, renderControls)

    JavaScript numbers are IEEE-754 binary64 values, modelled by Rocq's
    primitive floats.  JavaScript objects used as maps keep their insertion
    order, sparse arrays are finite maps from indices, a [TypeError] raised in
    the middle of a handler keeps the mutations done before it. *)

From Stdlib Require Import Floats SpecFloat ZArith Ascii String List Bool Lia.
From stdpp Require Import base option list gmap sets strings pretty.

Import ListNotations.
Set Warnings "-inexact-float,-register-all,-clear-no-such-hyp".
Local Open Scope string_scope.
Local Open Scope list_scope.

(** ** readermodality.ts *)

Module ReaderModality.

(** [export enum ReaderModality { NORMAL = 0, EDIT, TABLE, PAUSED }] *)
Inductive t : Set := NORMAL | EDIT | TABLE | PAUSED.

#[global] Instance eq_dec : EqDecision t.
Proof. solve_decision. Defined.

(** The numeric value the enum member compiles to. *)
Definition toNat (m : t) : nat :=
  match m with NORMAL => 0 | EDIT => 1 | TABLE => 2 | PAUSED => 3 end.

(** Reverse mapping [ReaderModality[n]]. *)
Definition name (m : t) : string :=
  match m with
  | NORMAL => "NORMAL" | EDIT => "EDIT" | TABLE => "TABLE" | PAUSED => "PAUSED"
  end.

Definition all : list t := [NORMAL; EDIT; TABLE; PAUSED].

(** A value stored in the compiled enum object: a number or a string. *)
Inductive value : Set := VNum (n : nat) | VStr (s : string).

(** The object readermodality.js builds, property by property, in the order
    of the assignments [R[R["NORMAL"] = 0] = "NORMAL"], ... : the inner
    assignment runs first. *)
Definition enumObject : list (string * value) :=
  [ ("NORMAL", VNum 0); ("0", VStr "NORMAL");
    ("EDIT",   VNum 1); ("1", VStr "EDIT");
    ("TABLE",  VNum 2); ("2", VStr "TABLE");
    ("PAUSED", VNum 3); ("3", VStr "PAUSED") ].

End ReaderModality.

Abbreviation ReaderModality := ReaderModality.t.
Import ReaderModality (NORMAL, EDIT, TABLE, PAUSED).

(** ** modalitystack.ts *)

Module ModalityStack.

(** [private readonly stack: ReaderModality[]]; the top of the stack is the
    last element of the array. *)
Definition t := list ReaderModality.

Definition constructor : t := [NORMAL; PAUSED].

(** [Array.prototype.pop]: removes and returns the last element;
    [undefined] (and no change) on an empty array. *)
Definition array_pop {A} (a : list A) : option A * list A :=
  (last a, removelast a).

(** [popMode]: [if (this.stack.length === 1) return this.stack[0];
    else return this.stack.pop()!;] *)
Definition popMode (s : t) : option ReaderModality * t :=
  if Nat.eqb (length s) 1 then (s !! 0, s) else array_pop s.

(** [pushMode]: [this.stack.push(mode)] *)
Definition pushMode (mode : ReaderModality) (s : t) : t := s ++ [mode].

(** [mode]: [this.stack[this.stack.length - 1]]; [None] is [undefined]. *)
Definition mode (s : t) : option ReaderModality := s !! (length s - 1).

(** A call a client can make on the stack. *)
Inductive call : Set := PushMode (m : ReaderModality) | PopMode.

Definition step (s : t) (c : call) : t :=
  match c with
  | PushMode m => pushMode m s
  | PopMode => snd (popMode s)
  end.

Definition run (cs : list call) (s : t) : t := fold_left step cs s.

Lemma length_pushMode m s : length (pushMode m s) = S (length s).
Proof. unfold pushMode. rewrite length_app. simpl. lia. Qed.

Lemma popMode_nonempty s : 1 <= length s -> 1 <= length (snd (popMode s)).
Proof.
  unfold popMode, array_pop. intros Hlen.
  destruct (Nat.eqb_spec (length s) 1) as [E|N]; simpl; [exact Hlen|].
  destruct s as [|a [|b s']]; simpl in *; try lia.
Qed.

Lemma step_nonempty s c : 1 <= length s -> 1 <= length (step s c).
Proof.
  destruct c as [m|]; simpl; intros H.
  - rewrite length_pushMode. lia.
  - now apply popMode_nonempty.
Qed.

Lemma run_nonempty cs : forall s, 1 <= length s -> 1 <= length (run cs s).
Proof.
  induction cs as [|c cs IH]; intros s H; simpl; [exact H|].
  apply IH, step_nonempty, H.
Qed.

Lemma mode_defined s : 1 <= length s -> exists m, mode s = Some m.
Proof.
  intros H. unfold mode.
  destruct (lookup_lt_is_Some_2 s (length s - 1)) as [m Hm]; [lia|].
  now exists m.
Qed.

(** C1. The ModalityStack is never empty: it is constructed holding
    [NORMAL; PAUSED], [pushMode] appends one mode, [popMode] on a stack of
    length 1 returns the sole entry and leaves the stack as it is; hence
    after every sequence of [pushMode]/[popMode] calls the stack has length
    at least 1 and [mode] returns a defined modality. *)
Theorem stack_never_empty :
  constructor = [NORMAL; PAUSED] /\
  (forall m s, pushMode m s = s ++ [m] /\ length (pushMode m s) = S (length s)) /\
  (forall m, popMode [m] = (Some m, [m])) /\
  (forall cs : list call,
      1 <= length (run cs constructor) /\
      exists m, mode (run cs constructor) = Some m).
Proof.
  split; [reflexivity|]. split.
  { intros m s. split; [reflexivity | apply length_pushMode]. }
  split; [reflexivity|].
  intros cs.
  assert (H : 1 <= length (run cs constructor))
    by (apply run_nonempty; simpl; lia).
  split; [exact H | apply mode_defined, H].
Qed.

End ModalityStack.

(** ** JavaScript objects used as string-keyed maps *)

Module JsObject.

(** A plain object, as an object literal creates it: its own enumerable
    string-keyed properties, in creation order.  The entry under
    ["__proto__"], when there is one, is no property: it records the
    prototype the object was given by an assignment to [o["__proto__"]];
    without it the prototype is [Object.prototype]. *)
Definition t (V : Type) := list (string * V).

(** The property names of [Object.prototype] (ECMAScript, Annex B
    included), on a page that has not changed it. *)
Definition objectPrototype : list string :=
  [ "constructor"; "__defineGetter__"; "__defineSetter__"; "hasOwnProperty";
    "__lookupGetter__"; "__lookupSetter__"; "isPrototypeOf";
    "propertyIsEnumerable"; "toString"; "valueOf"; "__proto__";
    "toLocaleString" ].

Definition inObjectPrototype (k : string) : bool :=
  existsb (String.eqb k) objectPrototype.

Definition isDigit (c : ascii) : bool :=
  let n := nat_of_ascii c in (48 <=? n)%nat && (n <=? 57)%nat.

Definition digitVal (c : ascii) : N := N.of_nat (nat_of_ascii c - 48).

Fixpoint allDigits (s : string) : bool :=
  match s with
  | EmptyString => true
  | String c r => isDigit c && allDigits r
  end.

Fixpoint decimal (acc : N) (s : string) : N :=
  match s with
  | EmptyString => acc
  | String c r => decimal (acc * 10 + digitVal c) r
  end.

(** [Number(key)] for a property key: the value of a non-empty string of
    decimal digits, [None] (NaN) for any other key.  (The forms [Number]
    also accepts -- the empty string, blanks, signs, exponents, hexadecimal,
    "Infinity" -- are not keys of the objects converted here.) *)
Definition Number (s : string) : option N :=
  match s with
  | EmptyString => None
  | String _ _ => if allDigits s then Some (decimal 0 s) else None
  end.

(** A key is an array index when it is the canonical decimal form of an
    integer below 2^32 - 1; such keys are enumerated first, in ascending
    numeric order. *)
Definition arrayIndex (s : string) : option N :=
  match s with
  | EmptyString => None
  | String c r =>
      if allDigits s && (negb (Ascii.eqb c "0"%char) || String.eqb r "")
      then let n := decimal 0 s in
           if (n <? 4294967295)%N then Some n else None
      else None
  end.

Fixpoint insertByIndex {V} (n : N) (kv : string * V)
    (l : list (N * (string * V))) : list (N * (string * V)) :=
  match l with
  | [] => [(n, kv)]
  | (m, kv') :: r =>
      if (n <? m)%N then (n, kv) :: l else (m, kv') :: insertByIndex n kv r
  end.

Fixpoint indexed {V} (o : t V) : list (N * (string * V)) :=
  match o with
  | [] => []
  | kv :: r =>
      match arrayIndex (fst kv) with
      | Some n => insertByIndex n kv (indexed r)
      | None => indexed r
      end
  end.

(** [Object.entries(o)]: the own properties, array indices first; the
    prototype is not among them. *)
Definition entries {V} (o : t V) : list (string * V) :=
  map snd (indexed o)
  ++ filter (fun kv => arrayIndex (fst kv) = None /\ fst kv <> "__proto__") o.

(** [Object.keys(o)] *)
Definition keys {V} (o : t V) : list string := map fst (entries o).

(** The entry stored under a key. *)
Fixpoint assoc {V} (k : string) (o : t V) : option V :=
  match o with
  | [] => None
  | (k', v) :: r => if String.eqb k k' then Some v else assoc k r
  end.

(** Overwrites the entry under [k] in place, or creates it last. *)
Fixpoint store {V} (k : string) (v : V) (o : t V) : t V :=
  match o with
  | [] => [(k, v)]
  | (k', v') :: r =>
      if String.eqb k k' then (k', v) :: r else (k', v') :: store k v r
  end.

(** The own property [k], and the prototype assigned to [o]. *)
Definition own {V} (k : string) (o : t V) : option V :=
  if String.eqb k "__proto__" then None else assoc k o.

Definition prototype {V} (o : t V) : option V := assoc "__proto__" o.

(** What [o[k]] finds: an own property first; otherwise the lookup goes up
    the prototype chain.  ["__proto__"] is the accessor inherited from
    [Object.prototype]: it reads the prototype itself. *)
Inductive found (V : Type) : Type :=
| Own (v : V)        (* the value of an own property *)
| Prototype (p : V)  (* [o.__proto__], a prototype having been assigned *)
| ObjectPrototype    (* [o.__proto__] otherwise: [Object.prototype] *)
| Through (p : V)    (* no own property: [p[k]], [p] the assigned prototype *)
| Member             (* no own property: the method [Object.prototype[k]] *)
| Undefined.
Arguments Own {V} v.
Arguments Prototype {V} p.
Arguments ObjectPrototype {V}.
Arguments Through {V} p.
Arguments Member {V}.
Arguments Undefined {V}.

(** [o[k]] *)
Definition get {V} (k : string) (o : t V) : found V :=
  if String.eqb k "__proto__" then
    match prototype o with
    | Some p => Prototype p
    | None => ObjectPrototype
    end
  else
    match assoc k o with
    | Some v => Own v
    | None =>
        match prototype o with
        | Some p => Through p
        | None => if inObjectPrototype k then Member else Undefined
        end
    end.

(** [o[k] = v], for a value [v] that is an object.  An assignment to
    ["__proto__"] runs the setter inherited from [Object.prototype]: [v]
    becomes the prototype of [o] and no property is created.  Any other key
    is overwritten in place or created last (the data properties up the
    chain are writable). *)
Definition set {V} (k : string) (v : V) (o : t V) : t V :=
  if String.eqb k "__proto__" then store "__proto__" v o else store k v o.

End JsObject.

(** ** keybinds.ts *)

Module Keybinds.
Section WithCallback.

(** The type of the registered callbacks, [() => void] in the source. *)
Context {Callback : Type}.

Record Bind : Type := mkBind { description : string; callback : Callback }.

(** [type Binds = { [key: string]: { description, callback } }] *)
Definition Binds : Type := JsObject.t Bind.

(** [readonly keybinds: Binds[]]: an array filled by index assignment,
    hence a finite map from indices; a missing index reads [undefined]. *)
Record t : Type := mk { keybinds : gmap nat Binds }.

(** [constructor]: [this.keybinds = []], then for every key of the enum
    object whose [Number] is not NaN, [this.keybinds[asIdx] = {}]. *)
Definition constructor : t :=
  mk (fold_left
        (fun (kb : gmap nat Binds) (key : string) =>
           match JsObject.Number key with
           | Some asIdx => <[N.to_nat asIdx := []]> kb
           | None => kb
           end)
        (JsObject.keys ReaderModality.enumObject) ∅).

(** [this.keybinds[mode]] *)
Definition at_mode (mode : ReaderModality) (k : t) : option Binds :=
  keybinds k !! ReaderModality.toNat mode.

(** [registerKeybind]: [this.keybinds[forMode][keyName] = {...}].  [None]
    is the TypeError of indexing [undefined]. *)
Definition registerKeybind (forMode : ReaderModality) (keyName : string)
    (descr : string) (cb : Callback) (k : t) : option t :=
  match at_mode forMode k with
  | Some b =>
      Some (mk (<[ReaderModality.toNat forMode :=
                    JsObject.set keyName (mkBind descr cb) b]> (keybinds k)))
  | None => None
  end.

(** What [triggerEvent] does with a key. *)
Inductive triggered : Type :=
| Calls (cb : Callback)  (* [preventDefault], then the callback runs *)
| Ignores                (* the test fails: nothing happens *)
| Throws.                (* [preventDefault], then [.callback] is not a
                            function: a TypeError *)

(** The value of [bind[key]] for a binding [{ description, callback }] used
    as a prototype, as [triggerEvent] treats it: the description is a string
    (falsy when empty, and without a [callback]), the callback a function
    without a [callback] of its own, and the rest comes from
    [Object.prototype]. *)
Definition throughBind (p : Bind) (key : string) : triggered :=
  if String.eqb key "description"
  then if String.eqb (description p) "" then Ignores else Throws
  else if String.eqb key "callback" then Throws
  else if JsObject.inObjectPrototype key then Throws
  else Ignores.

(** [triggerEvent]: [if (this.keybinds[mode][event.key])
    { event.preventDefault(); this.keybinds[mode][event.key].callback(); }].
    The lookup finds inherited members too: they pass the test, and calling
    their [callback] throws.  The outer [None] is the TypeError of indexing
    [undefined]. *)
Definition triggerEvent (mode : ReaderModality) (key : string) (k : t)
    : option triggered :=
  match at_mode mode k with
  | Some b =>
      Some (match JsObject.get key b with
            | JsObject.Own bind | JsObject.Prototype bind =>
                Calls (callback bind)
            | JsObject.ObjectPrototype | JsObject.Member => Throws
            | JsObject.Through p => throughBind p key
            | JsObject.Undefined => Ignores
            end)
  | None => None
  end.

(** The text a member of [Object.prototype] contributes to a string
    concatenation: the source text of a built-in function, in the form V8
    prints it (ECMAScript fixes it up to white space), and
    ["[object Object]"] for [__proto__], which reads [Object.prototype]
    itself.  [constructor] is the function [Object]. *)
Definition memberString (name : string) : string :=
  if String.eqb name "__proto__" then "[object Object]"
  else "function "
       +:+ (if String.eqb name "constructor" then "Object" else name)
       +:+ "() { [native code] }".

(** [enunciateKey]: [{ "a": "A.", ... }[keyName] || keyName], as the string
    its result contributes to the help string.  The lookup in the table
    finds the members of [Object.prototype] too. *)
Definition enunciateKey (keyName : string) : string :=
  if String.eqb keyName "a" then "A."
  else if String.eqb keyName "ArrowRight" then "the right arrow"
  else if String.eqb keyName "ArrowLeft" then "the left arrow"
  else if String.eqb keyName "ArrowUp" then "the up arrow"
  else if String.eqb keyName "ArrowDown" then "the down arrow"
  else if String.eqb keyName " " then "space"
  else if String.eqb keyName "F1" then "F 1"
  else if JsObject.inObjectPrototype keyName then memberString keyName
  else keyName.

(** [getHelpString]: one sentence per entry of [this.keybinds[mode]]. *)
Definition getHelpString (mode : ReaderModality) (k : t) : option string :=
  match at_mode mode k with
  | Some b =>
      Some (fold_left
              (fun helpString kv =>
                 helpString +:+ " Press " +:+ enunciateKey (fst kv)
                 +:+ " to " +:+ description (snd kv) +:+ ". ")
              (JsObject.entries b) "")
  | None => None
  end.

(** [getAllKeybinds]: [return this.keybinds[mode]]; [None] is [undefined]. *)
Definition getAllKeybinds (mode : ReaderModality) (k : t) : option Binds :=
  at_mode mode k.

(** A registration request, and the registrations of a whole start-up. *)
Record registration : Type :=
  mkReg { regMode : ReaderModality; regKey : string;
          regDescr : string; regCallback : Callback }.

Fixpoint registerAll (rs : list registration) (k : t) : option t :=
  match rs with
  | [] => Some k
  | r :: rs' =>
      match registerKeybind (regMode r) (regKey r) (regDescr r)
              (regCallback r) k with
      | Some k' => registerAll rs' k'
      | None => None
      end
  end.

(** Every modality indexes a defined binding map. *)
Definition total (k : t) : Prop :=
  forall m : ReaderModality, is_Some (at_mode m k).

Lemma constructor_empty_maps (m : ReaderModality) :
  at_mode m constructor = Some [].
Proof. destruct m; reflexivity. Qed.

Lemma constructor_total : total constructor.
Proof. intros m. rewrite constructor_empty_maps. eauto. Qed.

Lemma registerKeybind_total m key d cb k :
  total k ->
  exists k', registerKeybind m key d cb k = Some k' /\ total k'.
Proof.
  intros Hk. unfold registerKeybind.
  destruct (Hk m) as [b Hb]. rewrite Hb. eexists. split; [reflexivity|].
  intros m'. unfold at_mode. simpl.
  destruct (decide (ReaderModality.toNat m = ReaderModality.toNat m')) as [E|N].
  - rewrite E, lookup_insert_eq. eauto.
  - rewrite lookup_insert_ne by exact N. apply Hk.
Qed.

Lemma registerAll_total rs : forall k,
  total k -> exists k', registerAll rs k = Some k' /\ total k'.
Proof.
  induction rs as [|r rs IH]; intros k Hk; simpl.
  - eauto.
  - destruct (registerKeybind_total (regMode r) (regKey r) (regDescr r)
                (regCallback r) k Hk) as (k1 & -> & Hk1).
    apply IH, Hk1.
Qed.

(** C10. The constructor puts an empty binding map at the index of every
    modality; after any registrations, for every modality,
    [registerKeybind], [triggerEvent], [getHelpString] and [getAllKeybinds]
    index a defined map: none of them meets [undefined]. *)
Theorem every_mode_has_a_binding_map :
  (forall m : ReaderModality,
      keybinds constructor !! ReaderModality.toNat m = Some []) /\
  (forall rs : list registration,
      exists k, registerAll rs constructor = Some k /\
        forall (m : ReaderModality) (key descr : string) (cb : Callback),
          is_Some (keybinds k !! ReaderModality.toNat m) /\
          is_Some (registerKeybind m key descr cb k) /\
          is_Some (triggerEvent m key k) /\
          is_Some (getHelpString m k) /\
          is_Some (getAllKeybinds m k)).
Proof.
  split; [exact constructor_empty_maps|].
  intros rs.
  destruct (registerAll_total rs constructor constructor_total)
    as (k & Hrun & Hk).
  exists k. split; [exact Hrun|].
  intros m key descr cb.
  destruct (Hk m) as [b Hb].
  destruct (registerKeybind_total m key descr cb k Hk) as (k' & Hreg & _).
  unfold triggerEvent, getHelpString, getAllKeybinds.
  unfold at_mode in Hb. unfold at_mode.
  rewrite Hreg, Hb. eauto.
Qed.

End WithCallback.
Arguments Bind : clear implicits.
Arguments Binds : clear implicits.
Arguments t : clear implicits.
Arguments registration : clear implicits.
Arguments triggered : clear implicits.
End Keybinds.

(** ** IEEE-754 binary64 facts used for the speech rate *)

Module Binary64.

Lemma SFcompare_antisym x y c :
  SFcompare x y = Some c -> SFcompare y x = Some (CompOpp c).
Proof.
  destruct x as [sx|sx| |sx mx ex], y as [sy|sy| |sy my ey]; simpl;
    try discriminate; intros H; injection H as <-;
    try (destruct sx; reflexivity); try (destruct sy; reflexivity);
    try (destruct sx, sy; reflexivity).
  destruct sx, sy; try reflexivity.
  - rewrite (Z.compare_antisym ex ey).
    destruct (ex ?= ey)%Z; simpl; try reflexivity.
    rewrite CompOpp_involutive, Pos.compare_cont_antisym. reflexivity.
  - rewrite (Z.compare_antisym ex ey).
    destruct (ex ?= ey)%Z; simpl; try reflexivity.
    rewrite Pos.compare_cont_antisym. reflexivity.
Qed.

Lemma SFcompare_defined x y :
  x <> S754_nan -> y <> S754_nan -> exists c, SFcompare x y = Some c.
Proof. destruct x, y; simpl; intros; try congruence; eauto. Qed.

Lemma shr_1_nonneg mrs : (0 <= shr_m mrs)%Z -> (0 <= shr_m (shr_1 mrs))%Z.
Proof.
  destruct mrs as [m r s]. simpl. destruct m as [|p|p]; simpl; try lia.
  destruct p; simpl; lia.
Qed.

Lemma iter_pos_shr_1_nonneg p : forall mrs,
  (0 <= shr_m mrs)%Z -> (0 <= shr_m (SpecFloat.iter_pos shr_1 p mrs))%Z.
Proof.
  induction p as [p IH|p IH|]; intros mrs H; simpl.
  - apply IH, IH, shr_1_nonneg, H.
  - apply IH, IH, H.
  - apply shr_1_nonneg, H.
Qed.

Lemma shr_fexp_nonneg prec emax m e l :
  (0 <= m)%Z -> (0 <= shr_m (fst (shr_fexp prec emax m e l)))%Z.
Proof.
  intros H. unfold shr_fexp, shr.
  assert (H0 : (0 <= shr_m (shr_record_of_loc m l))%Z).
  { destruct l as [|[| |]]; simpl; exact H. }
  destruct (fexp prec emax (Zdigits2 m + e) - e)%Z; simpl; try exact H0.
  apply iter_pos_shr_1_nonneg, H0.
Qed.

Lemma round_nearest_even_nonneg m l :
  (0 <= m)%Z -> (0 <= round_nearest_even m l)%Z.
Proof.
  intros H. destruct l as [|[| |]]; simpl; try lia.
  destruct (Z.even m); lia.
Qed.

(** Rounding a non-negative mantissa never produces NaN. *)
Lemma binary_round_aux_not_nan prec emax s m e l :
  (0 <= m)%Z -> binary_round_aux prec emax s m e l <> S754_nan.
Proof.
  intros H. unfold binary_round_aux.
  pose proof (shr_fexp_nonneg prec emax m e l H) as H1.
  destruct (shr_fexp prec emax m e l) as [mrs1 e1]. simpl in H1.
  pose proof (shr_fexp_nonneg prec emax _ e1 loc_Exact
                (round_nearest_even_nonneg _ (loc_of_shr_record mrs1) H1))
    as H2.
  destruct (shr_fexp prec emax
              (round_nearest_even (shr_m mrs1) (loc_of_shr_record mrs1))
              e1 loc_Exact) as [mrs2 e2].
  simpl in H2.
  destruct (shr_m mrs2); try discriminate; try lia.
  destruct (e2 <=? emax - prec)%Z; discriminate.
Qed.

(** The product of a finite non-zero number with anything but NaN is not
    NaN. *)
Lemma SFmul_finite_not_nan prec emax s m e y :
  y <> S754_nan -> SFmul prec emax (S754_finite s m e) y <> S754_nan.
Proof.
  destruct y; simpl; intros; try congruence.
  apply binary_round_aux_not_nan. lia.
Qed.

Lemma is_nan_false x : is_nan x = false -> Prim2SF x <> S754_nan.
Proof.
  unfold is_nan. rewrite FloatAxioms.eqb_spec. intros H E.
  rewrite E in H. discriminate.
Qed.

(** Outside NaN, [x < y] being false means [y <= x]. *)
Lemma not_ltb_leb x y :
  Prim2SF x <> S754_nan -> Prim2SF y <> S754_nan ->
  (x <? y)%float = false -> (y <=? x)%float = true.
Proof.
  intros Hx Hy. rewrite ltb_spec, leb_spec. unfold SFltb, SFleb.
  destruct (SFcompare_defined _ _ Hx Hy) as [c Hc].
  rewrite Hc, (SFcompare_antisym _ _ _ Hc).
  destruct c; simpl; congruence.
Qed.

End Binary64.

(** ** The browser's voice engine ([window.speechSynthesis])

  The engine is the platform's, not the reader's.  It is modelled as far as
  the proxy drives it, after the Web Speech API: a queue of utterances whose
  head is the one being spoken, and a pause flag.  [cancel] empties the
  queue, [speak] appends to it, [pause] and [resume] set and clear the flag.
  [calls] records the requests received and [ended] the utterances whose
  audio ran to its end, so that theorems can speak about them. *)

Module SpeechSynthesis.
Section WithCallback.

Context {Callback : Type}.

(** [new SpeechSynthesisUtterance(text)] with its [rate], [onstart] and
    [onend] properties.  The engine keeps a reference to the object, so the
    [onend] assigned right after the submission is the one it fires. *)
Record Utterance : Type :=
  mkUtterance { text : string; rate : float;
                onstart : Callback; onend : Callback }.

Inductive call : Type := Cancel | Pause | Resume | Speak (u : Utterance).

Record t : Type :=
  mk { queue : list Utterance; paused : bool;
       calls : list call; ended : list Utterance }.

Definition cancel (e : t) : t :=
  mk [] (paused e) (calls e ++ [Cancel]) (ended e).

Definition pause (e : t) : t :=
  mk (queue e) true (calls e ++ [Pause]) (ended e).

Definition resume (e : t) : t :=
  mk (queue e) false (calls e ++ [Resume]) (ended e).

Definition speak (u : Utterance) (e : t) : t :=
  mk (queue e ++ [u]) (paused e) (calls e ++ [Speak u]) (ended e).

(** The [speaking] attribute: an utterance is in the process of being
    spoken, paused or not. *)
Definition speaking (e : t) : bool :=
  match queue e with [] => false | _ :: _ => true end.

(** The engine's own progress between two events of the page: unless it is
    paused, the utterance being spoken reaches its end and leaves the
    queue. *)
Definition finish (e : t) : t :=
  if paused e then e
  else match queue e with
       | [] => e
       | u :: q => mk q (paused e) (calls e) (ended e ++ [u])
       end.

End WithCallback.
Arguments Utterance : clear implicits.
Arguments call : clear implicits.
Arguments t : clear implicits.
End SpeechSynthesis.

(** ** speechsynth.ts *)

Module SpeechSynth.
Section WithCallback.

Context {Callback : Type}.

Abbreviation Engine := (SpeechSynthesis.t Callback).
Abbreviation Utterance := (SpeechSynthesis.Utterance Callback).

Record t : Type :=
  mk { voiceSynth : Engine; speechRate : float; isPause : bool }.

(** [private constructor()] on the page's engine. *)
Definition constructor (engine : Engine) : t :=
  mk (SpeechSynthesis.cancel engine) 1.0%float false.

(** The clamping [changeVoiceRate] applies to the product. *)
Definition clamp (r : float) : float :=
  if (4 <? r)%float then 4%float
  else if (r <? 0.25)%float then 0.25%float
  else r.

(** [changeVoiceRate]: [this.speechRate *= factor], then the two tests. *)
Definition changeVoiceRate (factor : float) (s : t) : t :=
  let r := (speechRate s * factor)%float in
  if (4 <? r)%float then mk (voiceSynth s) 4%float (isPause s)
  else if (r <? 0.25)%float then mk (voiceSynth s) 0.25%float (isPause s)
  else mk (voiceSynth s) r (isPause s).

Definition increaseVoiceRate (s : t) : t := changeVoiceRate 1.1%float s.

Definition decreaseVoiceRate (s : t) : t := changeVoiceRate 0.9%float s.

(** [stop]: [this.voiceSynth.cancel()] *)
Definition stop (s : t) : t :=
  mk (SpeechSynthesis.cancel (voiceSynth s)) (speechRate s) (isPause s).

Definition pause (s : t) : t :=
  if negb (isPause s)
  then mk (SpeechSynthesis.pause (voiceSynth s)) (speechRate s) true
  else s.

Definition resume (s : t) : t :=
  if isPause s
  then mk (SpeechSynthesis.resume (voiceSynth s)) (speechRate s) false
  else s.

(** [stopNGo]: [resume()] or [pause()], then
    [this.isPause = (!this.isPause)]. *)
Definition stopNGo (s : t) : t :=
  let s1 := if isPause s then resume s else pause s in
  mk (voiceSynth s1) (speechRate s1) (negb (isPause s1)).

(** The utterance [speak] builds. *)
Definition utterance (text : string) (onStart onEnd : Callback) (s : t)
    : Utterance :=
  SpeechSynthesis.mkUtterance text (speechRate s) onStart onEnd.

(** [speak]: [this.stop()], build the utterance at the current rate,
    [this.voiceSynth.speak(utterance)]. *)
Definition speak (text : string) (onStart onEnd : Callback) (s : t) : t :=
  let s1 := stop s in
  let u := utterance text onStart onEnd s1 in
  mk (SpeechSynthesis.speak u (voiceSynth s1)) (speechRate s1) (isPause s1).

(** The calls that change the rate. *)
Inductive rateCall : Type :=
| IncreaseVoiceRate
| DecreaseVoiceRate
| ChangeVoiceRate (factor : float).

Definition factorOf (c : rateCall) : float :=
  match c with
  | IncreaseVoiceRate => 1.1%float
  | DecreaseVoiceRate => 0.9%float
  | ChangeVoiceRate f => f
  end.

Definition rateStep (s : t) (c : rateCall) : t :=
  match c with
  | IncreaseVoiceRate => increaseVoiceRate s
  | DecreaseVoiceRate => decreaseVoiceRate s
  | ChangeVoiceRate f => changeVoiceRate f s
  end.

Definition rateRun (cs : list rateCall) (s : t) : t := fold_left rateStep cs s.

(** [0.25 <= r && r <= 4], with JavaScript's comparisons. *)
Definition inRange (r : float) : bool :=
  ((0.25 <=? r) && (r <=? 4))%float.

Definition nonNaN (c : rateCall) : bool := negb (is_nan (factorOf c)).

(** *** The speech rate *)

Lemma speechRate_changeVoiceRate f s :
  speechRate (changeVoiceRate f s) = clamp (speechRate s * f)%float.
Proof.
  unfold changeVoiceRate, clamp.
  destruct (4 <? speechRate s * f)%float; [reflexivity|].
  destruct (speechRate s * f <? 0.25)%float; reflexivity.
Qed.

Lemma speechRate_rateStep s c :
  speechRate (rateStep s c) = clamp (speechRate s * factorOf c)%float.
Proof. destruct c; apply speechRate_changeVoiceRate. Qed.

Lemma inRange_finite r :
  inRange r = true -> exists m e, Prim2SF r = S754_finite false m e.
Proof.
  unfold inRange. rewrite !leb_spec.
  intros H. apply andb_true_iff in H as [H1 H2].
  change (Prim2SF 0.25) with (S754_finite false 4503599627370496 (-54)) in H1.
  change (Prim2SF 4) with (S754_finite false 4503599627370496 (-50)) in H2.
  unfold SFleb, SFcompare in H1, H2.
  destruct (Prim2SF r) as [b|b| |b m e]; try discriminate;
    destruct b; try discriminate.
  eauto.
Qed.

Lemma clamp_inRange x : Prim2SF x <> S754_nan -> inRange (clamp x) = true.
Proof.
  intros Hx. unfold clamp.
  destruct (4 <? x)%float eqn:H4; [reflexivity|].
  destruct (x <? 0.25)%float eqn:H1; [reflexivity|].
  unfold inRange. apply andb_true_iff. split.
  - apply Binary64.not_ltb_leb; [exact Hx | discriminate | exact H1].
  - apply Binary64.not_ltb_leb; [discriminate | exact Hx | exact H4].
Qed.

Lemma mul_inRange_not_nan r f :
  inRange r = true -> is_nan f = false -> Prim2SF (r * f) <> S754_nan.
Proof.
  intros Hr Hf. rewrite mul_spec.
  destruct (inRange_finite r Hr) as (m & e & ->).
  apply Binary64.SFmul_finite_not_nan, Binary64.is_nan_false, Hf.
Qed.

Lemma rateStep_inRange s c :
  inRange (speechRate s) = true -> nonNaN c = true ->
  inRange (speechRate (rateStep s c)) = true.
Proof.
  intros Hs Hc. rewrite speechRate_rateStep.
  apply clamp_inRange, mul_inRange_not_nan; [exact Hs|].
  unfold nonNaN in Hc. now apply negb_true_iff in Hc.
Qed.

Lemma rateRun_inRange cs : forall s,
  inRange (speechRate s) = true -> forallb nonNaN cs = true ->
  inRange (speechRate (rateRun cs s)) = true.
Proof.
  induction cs as [|c cs IH]; intros s Hs Hcs; simpl; [exact Hs|].
  simpl in Hcs. apply andb_true_iff in Hcs as [Hc Hcs].
  apply IH; [apply rateStep_inRange; assumption | exact Hcs].
Qed.

Lemma speechRate_iter_increase n s :
  speechRate (Nat.iter n increaseVoiceRate s)
  = Nat.iter n (fun r => clamp (r * 1.1)%float) (speechRate s).
Proof.
  induction n as [|n IH]; simpl; [reflexivity|].
  unfold increaseVoiceRate at 1.
  rewrite speechRate_changeVoiceRate, IH. reflexivity.
Qed.

(** C6, as amended.  Starting from the initial rate 1.0, after every finite
    sequence of [increaseVoiceRate], [decreaseVoiceRate] and
    [changeVoiceRate factor] calls whose factors are not NaN, the rate lies
    within [0.25, 4.0]; [changeVoiceRate] multiplies the rate by the factor
    and then clamps; fifty [increaseVoiceRate] calls from 1.0 give exactly
    4.0, where the unclamped product would be above 4. *)
Theorem rate_stays_clamped (cs : list rateCall) (engine : Engine) :
  forallb nonNaN cs = true ->
  speechRate (constructor engine) = 1.0%float /\
  inRange (speechRate (rateRun cs (constructor engine))) = true /\
  (forall f s, speechRate (changeVoiceRate f s)
               = clamp (speechRate s * f)%float) /\
  speechRate (Nat.iter 50 increaseVoiceRate (constructor engine)) = 4%float /\
  (4 <? Nat.iter 50 (fun r => r * 1.1) 1.0)%float = true.
Proof.
  intros Hcs. split; [reflexivity|]. split.
  { apply rateRun_inRange; [reflexivity | exact Hcs]. }
  split; [exact speechRate_changeVoiceRate|]. split.
  { rewrite speechRate_iter_increase. vm_compute. reflexivity. }
  vm_compute. reflexivity.
Qed.

(** *** Speaking, pausing, resuming *)

Lemma finish_settled (e : Engine) (u : Utterance) (E : list Utterance) n :
  (SpeechSynthesis.queue e = [u] /\ SpeechSynthesis.ended e = E) \/
  (SpeechSynthesis.queue e = [] /\ SpeechSynthesis.ended e = E ++ [u]) ->
  let e' := Nat.iter n SpeechSynthesis.finish e in
  (SpeechSynthesis.queue e' = [u] /\ SpeechSynthesis.ended e' = E) \/
  (SpeechSynthesis.queue e' = [] /\ SpeechSynthesis.ended e' = E ++ [u]).
Proof.
  intros H. induction n as [|n IH]; simpl; [exact H|].
  simpl in IH.
  destruct (Nat.iter n SpeechSynthesis.finish e) as [q p c d].
  unfold SpeechSynthesis.finish. simpl in *.
  destruct p; [exact IH|].
  destruct IH as [[-> ->]|[-> ->]]; simpl; right; split; reflexivity.
Qed.

(** C7. Every [speak] first cancels what the engine holds (through [stop])
    and only then submits the new utterance, built at the current rate; so
    after two [speak] calls in succession the engine holds the second
    utterance alone, and whatever it does next, the first one never runs to
    its end. *)
Theorem speak_cancels_before_submitting :
  forall (text : string) (onStart onEnd : Callback) (s : t),
    let u := utterance text onStart onEnd s in
    SpeechSynthesis.text u = text /\
    SpeechSynthesis.rate u = speechRate s /\
    voiceSynth (speak text onStart onEnd s)
      = SpeechSynthesis.speak u (voiceSynth (stop s)) /\
    SpeechSynthesis.calls (voiceSynth (speak text onStart onEnd s))
      = SpeechSynthesis.calls (voiceSynth s)
        ++ [SpeechSynthesis.Cancel; SpeechSynthesis.Speak u] /\
    SpeechSynthesis.queue (voiceSynth (speak text onStart onEnd s)) = [u] /\
    forall (text2 : string) (onStart2 onEnd2 : Callback),
      let s2 := speak text2 onStart2 onEnd2 (speak text onStart onEnd s) in
      let u2 := utterance text2 onStart2 onEnd2 s in
      SpeechSynthesis.queue (voiceSynth s2) = [u2] /\
      forall n : nat,
        let e := Nat.iter n SpeechSynthesis.finish (voiceSynth s2) in
        SpeechSynthesis.ended e = SpeechSynthesis.ended (voiceSynth s) \/
        SpeechSynthesis.ended e
          = SpeechSynthesis.ended (voiceSynth s) ++ [u2].
Proof.
  intros text onStart onEnd s u.
  split; [reflexivity|]. split; [reflexivity|]. split; [reflexivity|].
  split.
  { simpl. rewrite <- app_assoc. reflexivity. }
  split; [reflexivity|].
  intros text2 onStart2 onEnd2 s2 u2. split; [reflexivity|].
  intros n e.
  destruct (finish_settled (voiceSynth s2) u2
              (SpeechSynthesis.ended (voiceSynth s)) n) as [[_ H]|[_ H]].
  - left. split; reflexivity.
  - left. exact H.
  - right. exact H.
Qed.

(** C8. [pause] and [resume] are idempotent: pausing a paused proxy and
    resuming a running one change nothing, the engine's record of requests
    included; [pause; pause] is [pause] and [resume; resume] is [resume]. *)
Theorem pause_resume_idempotent :
  (forall (e : Engine) (r : float), pause (mk e r true) = mk e r true) /\
  (forall (e : Engine) (r : float), resume (mk e r false) = mk e r false) /\
  (forall s : t, pause (pause s) = pause s) /\
  (forall s : t, resume (resume s) = resume s) /\
  (forall s : t,
      SpeechSynthesis.calls (voiceSynth (pause (pause s)))
      = SpeechSynthesis.calls (voiceSynth (pause s)) /\
      SpeechSynthesis.calls (voiceSynth (resume (resume s)))
      = SpeechSynthesis.calls (voiceSynth (resume s))).
Proof.
  assert (Hp : forall s : t, pause (pause s) = pause s).
  { intros [e r []]; reflexivity. }
  assert (Hr : forall s : t, resume (resume s) = resume s).
  { intros [e r []]; reflexivity. }
  split; [reflexivity|]. split; [reflexivity|].
  split; [exact Hp|]. split; [exact Hr|].
  intros s. rewrite Hp, Hr. split; reflexivity.
Qed.

(** C9. [stopNGo] leaves [isPause] as it found it: the inner [pause] or
    [resume] flips the flag and the trailing assignment flips it back, while
    the engine itself is paused or resumed. *)
Theorem stopNGo_keeps_isPause :
  forall s : t,
    isPause (stopNGo s) = isPause s /\
    SpeechSynthesis.paused (voiceSynth (stopNGo s)) = negb (isPause s) /\
    SpeechSynthesis.calls (voiceSynth (stopNGo s))
    = SpeechSynthesis.calls (voiceSynth s)
      ++ [if isPause s then SpeechSynthesis.Resume
          else SpeechSynthesis.Pause].
Proof. intros [e r []]; repeat split; reflexivity. Qed.

End WithCallback.
Arguments t : clear implicits.
Arguments rateCall : clear implicits.

(** An engine with nothing queued, and callbacks that do nothing. *)
Definition idleEngine : SpeechSynthesis.t unit :=
  SpeechSynthesis.mk [] false [] [].

(** C6 at work: a concrete run of rate calls, none of them with a NaN
    factor. *)
Lemma rate_stays_clamped_witness :
  inRange (speechRate
             (rateRun [IncreaseVoiceRate; ChangeVoiceRate 1000%float;
                       DecreaseVoiceRate; ChangeVoiceRate (-3)%float]
                (constructor idleEngine))) = true.
Proof.
  apply (rate_stays_clamped
           [IncreaseVoiceRate; ChangeVoiceRate 1000%float;
            DecreaseVoiceRate; ChangeVoiceRate (-3)%float] idleEngine).
  reflexivity.
Defined.

(** C6 as stated fails: a NaN factor makes the rate NaN, which the two
    comparisons of [changeVoiceRate] let through. *)
Lemma rate_nan_counterexample :
  inRange (speechRate (rateRun [ChangeVoiceRate nan] (constructor idleEngine)))
  = false.
Proof. vm_compute. reflexivity. Qed.

End SpeechSynth.

(** ** The document, as far as the reader queries it

    The page is an ordered tree of HTML elements.  An element is identified by
    its path: the child indices that lead to it from the document element.
    [preorder] lists the paths in document order, which is the order of
    [document.getElementsByTagName("*")].  [innerText] and [innerHTML] are
    what the browser reports for the element. *)

Module Dom.

Inductive Element : Type :=
  mkElement { tagName : string;        (* upper case, as the DOM reports it *)
              id : string;
              alt : option string;     (* the [alt] attribute, when present *)
              focusable : bool;        (* whether [focus()] takes effect *)
              innerText : string;
              innerHTML : string;
              children : list Element }.

Abbreviation path := (list nat).

(** The element at a path below [e]; [None] when the path leads nowhere. *)
Fixpoint subtree (e : Element) (p : path) : option Element :=
  match p with
  | [] => Some e
  | i :: p' =>
      match children e !! i with
      | Some c => subtree c p'
      | None => None
      end
  end.

(** The paths of [e] and of its descendants, in document order. *)
Fixpoint preorder (e : Element) : list path :=
  [] :: (fix below (i : nat) (cs : list Element) : list path :=
           match cs with
           | [] => []
           | c :: cs' => map (cons i) (preorder c) ++ below (S i) cs'
           end) 0 (children e).

(** The descendants' part of [preorder], child by child from index [i]. *)
Fixpoint below (i : nat) (cs : list Element) : list path :=
  match cs with
  | [] => []
  | c :: cs' => map (cons i) (preorder c) ++ below (S i) cs'
  end.

(** [elt.parentElement]; [None] is [null], the parent of the root. *)
Definition parentElement (p : path) : option path :=
  match p with
  | [] => None
  | _ :: _ => Some (removelast p)
  end.

(** The proper descendants of the element at [p] that satisfy [sel], in
    document order: [getElementsByTagName] and [querySelectorAll] on an
    element.  [None] when [p] leads nowhere. *)
Definition descendantsWhere (sel : Element -> bool) (doc : Element) (p : path)
    : option (list path) :=
  match subtree doc p with
  | Some e =>
      Some (map (app p)
              (List.filter (fun q => match subtree e q with
                                     | Some d => sel d
                                     | None => false
                                     end)
                 (tail (preorder e))))
  | None => None
  end.

Definition hasTag (name : string) (e : Element) : bool :=
  String.eqb (tagName e) name.

(** The selector ["th,td"]. *)
Definition isCell (e : Element) : bool := hasTag "TH" e || hasTag "TD" e.

(** [document.getElementById]: the first element in document order with this
    id. *)
Definition getElementById (doc : Element) (i : string) : option path :=
  head (List.filter (fun q => match subtree doc q with
                              | Some d => String.eqb (id d) i
                              | None => false
                              end)
          (preorder doc)).

(** Replaces the children of the element at [p] (assigning [innerHTML]). *)
Fixpoint setChildren (e : Element) (p : path) (cs : list Element) : Element :=
  match p with
  | [] => mkElement (tagName e) (id e) (alt e) (focusable e)
            (innerText e) (innerHTML e) cs
  | i :: p' =>
      match children e !! i with
      | Some c =>
          mkElement (tagName e) (id e) (alt e) (focusable e)
            (innerText e) (innerHTML e)
            (<[i := setChildren c p' cs]> (children e))
      | None => e
      end
  end.

(** [Array.prototype.indexOf]: the first position of [x], or -1. *)
Fixpoint indexOf (x : path) (l : list path) : Z :=
  match l with
  | [] => -1
  | y :: l' =>
      if decide (x = y) then 0%Z
      else let i := indexOf x l' in if (i <? 0)%Z then (-1)%Z else (i + 1)%Z
  end.

(** [l[i]] for a JavaScript index; [None] is [undefined]. *)
Definition item {A} (l : list A) (i : Z) : option A :=
  if (i <? 0)%Z then None else l !! Z.to_nat i.

(** *** Facts about paths *)

Lemma preorder_unfold e : preorder e = [] :: below 0 (children e).
Proof. destruct e; reflexivity. Qed.

Lemma subtree_app e p q :
  subtree e (p ++ q) = match subtree e p with
                       | Some d => subtree d q
                       | None => None
                       end.
Proof.
  revert e. induction p as [|i p IH]; intros e; simpl; [reflexivity|].
  destruct (children e !! i); [apply IH | reflexivity].
Qed.

(** An induction principle that reaches the children. *)
Fixpoint Element_ind' (P : Element -> Prop)
    (H : forall t i a f x h cs, Forall P cs -> P (mkElement t i a f x h cs))
    (e : Element) : P e :=
  match e with
  | mkElement t i a f x h cs =>
      H t i a f x h cs
        ((fix all (l : list Element) : Forall P l :=
            match l with
            | [] => @List.Forall_nil Element P
            | c :: l' => @List.Forall_cons Element P c l' (Element_ind' P H c) (all l')
            end) cs)
  end.

Lemma elem_of_below cs : forall i p,
  p ∈ below i cs <->
  exists j q c, p = (i + j) :: q /\ cs !! j = Some c /\ q ∈ preorder c.
Proof.
  induction cs as [|c cs IH]; intros i p; simpl.
  - split; [intros H; inversion H | intros (j & q & c & _ & H & _); discriminate].
  - rewrite elem_of_app, list_elem_of_fmap, IH. split.
    + intros [(q & -> & Hq)|(j & q & d & -> & Hj & Hq)].
      * exists 0, q, c. rewrite Nat.add_0_r. auto.
      * exists (S j), q, d. split; [f_equal; lia | auto].
    + intros (j & q & d & -> & Hj & Hq). destruct j as [|j]; simpl in Hj.
      * left. injection Hj as <-. exists q. rewrite Nat.add_0_r. auto.
      * right. exists j, q, d. split; [f_equal; lia | auto].
Qed.

(** The paths listed are exactly the paths that lead somewhere. *)
Lemma elem_of_preorder e : forall p, p ∈ preorder e <-> is_Some (subtree e p).
Proof.
  induction e as [t i a f x h cs IH] using Element_ind'. intros p.
  rewrite preorder_unfold. simpl. rewrite elem_of_cons, elem_of_below.
  destruct p as [|j q]; simpl.
  - split; [eauto | auto].
  - split.
    + intros [H|(j' & q' & c & Heq & Hj & Hq)]; [discriminate|].
      simpl in Heq. injection Heq as -> ->. rewrite Hj.
      rewrite Forall_forall in IH. apply (IH c); [|exact Hq].
      apply list_elem_of_lookup. eauto.
    + intros H. right. destruct (cs !! j) as [c|] eqn:Hj.
      * exists j, q, c. split; [reflexivity|]. split; [exact Hj|].
        rewrite Forall_forall in IH. apply (IH c); [|exact H].
        apply list_elem_of_lookup. eauto.
      * destruct H as [? H]. discriminate.
Qed.

Lemma NoDup_below cs : forall i,
  Forall (fun c => NoDup (preorder c)) cs -> NoDup (below i cs).
Proof.
  induction cs as [|c cs IH]; intros i H; simpl; [constructor|].
  inversion H as [|? ? Hc Hcs]; subst.
  apply NoDup_app. split; [|split].
  - apply NoDup_fmap_2; [|exact Hc]. intros q1 q2 E. now injection E.
  - intros p Hp Hp'. apply list_elem_of_fmap in Hp as (q & -> & _).
    apply elem_of_below in Hp' as (j & q' & d & E & _). injection E. lia.
  - apply IH, Hcs.
Qed.

(** No path is listed twice. *)
Lemma NoDup_preorder e : NoDup (preorder e).
Proof.
  induction e as [t i a f x h cs IH] using Element_ind'.
  rewrite preorder_unfold. simpl. constructor.
  - intros H. apply elem_of_below in H as (j & q & c & E & _). discriminate.
  - apply NoDup_below, IH.
Qed.

Lemma preorder_nonempty e : exists ps, preorder e = [] :: ps.
Proof. rewrite preorder_unfold. eauto. Qed.

(** A descendant's path, seen from the document. *)
Lemma elem_of_preorder_app doc p e q :
  subtree doc p = Some e -> q ∈ preorder e -> p ++ q ∈ preorder doc.
Proof.
  intros Hp Hq. apply elem_of_preorder. rewrite subtree_app, Hp.
  now apply elem_of_preorder.
Qed.

Lemma descendantsWhere_valid sel doc p l q :
  descendantsWhere sel doc p = Some l -> q ∈ l ->
  q ∈ preorder doc /\ p `prefix_of` q /\
  exists d, subtree doc q = Some d /\ sel d = true.
Proof.
  unfold descendantsWhere. destruct (subtree doc p) as [e|] eqn:Hp; [|discriminate].
  intros [= <-] Hq. apply list_elem_of_fmap in Hq as (r & -> & Hr).
  apply list_elem_of_In, filter_In in Hr as [Hr Hsel].
  apply list_elem_of_In in Hr.
  assert (Hr' : r ∈ preorder e).
  { destruct (preorder e) as [|x l]; [inversion Hr | right; exact Hr]. }
  split; [eapply elem_of_preorder_app; eassumption|].
  split; [exists r; reflexivity|].
  rewrite subtree_app, Hp. destruct (subtree e r) as [d|]; [eauto | discriminate].
Qed.

Lemma indexOf_lookup x l i :
  (0 <= i)%Z -> indexOf x l = i -> l !! Z.to_nat i = Some x.
Proof.
  revert i. induction l as [|y l IH]; intros i Hi; simpl.
  - lia.
  - destruct (decide (x = y)) as [->|N].
    + intros <-. reflexivity.
    + destruct (indexOf x l <? 0)%Z eqn:E; [lia|].
      intros <-. apply Z.ltb_ge in E.
      replace (Z.to_nat (indexOf x l + 1)) with (S (Z.to_nat (indexOf x l))) by lia.
      simpl. apply IH; [exact E | reflexivity].
Qed.

Lemma indexOf_NoDup l : NoDup l -> forall n x,
  l !! n = Some x -> indexOf x l = Z.of_nat n.
Proof.
  induction 1 as [|y l Hy Hl IH]; intros n x Hn; [discriminate|].
  simpl. destruct n as [|n]; simpl in Hn.
  - injection Hn as ->. rewrite decide_True by reflexivity. reflexivity.
  - destruct (decide (x = y)) as [->|N].
    + exfalso. apply Hy, list_elem_of_lookup. eauto.
    + rewrite (IH n x Hn).
      destruct (Z.of_nat n <? 0)%Z eqn:E; [apply Z.ltb_lt in E; lia | lia].
Qed.

End Dom.

(** ** screenreader.ts *)

Module ScreenReader.
Import Dom.

(** The callbacks registered at start-up, one name per closure. *)
Inductive Action : Set :=
| EditEscape
| PausedP
| NormalP | NormalArrowDown | NormalArrowUp | NormalArrowLeft
| NormalArrowRight | NormalT | NormalSpace
| TableP | TableArrowRight | TableArrowLeft | TableArrowDown | TableArrowUp
| TableQ.

(** The module-level variables [keybinds], [synth], [modeStack], and the page:
    its tree, the set of elements carrying the class [__current_sr_elt], and
    [document.activeElement]. *)
Record State : Type :=
  mkState { document : Element;
            current : gset path;
            activeElement : option path;
            synth : SpeechSynth.t unit;
            modeStack : ModalityStack.t;
            keybinds : Keybinds.t Action }.

(** How a handler ends: normally, or with a TypeError that leaves the
    mutations made so far.  [OutOfFuel] belongs to the model only: it is what
    a bounded unfolding of a recursion returns when the bound is too small. *)
Inductive Outcome : Type :=
| Done (s : State)
| TypeError (s : State)
| OutOfFuel.

Definition andThen (o : Outcome) (k : State -> Outcome) : Outcome :=
  match o with
  | Done s => k s
  | TypeError s => TypeError s
  | OutOfFuel => OutOfFuel
  end.

Notation "'do' s <- o ; k" := (andThen o (fun s => k))
  (at level 10, s name, o at level 100, k at level 200).

(** *** State updates *)

Definition withCurrent (c : gset path) (s : State) : State :=
  mkState (document s) c (activeElement s) (synth s) (modeStack s) (keybinds s).

Definition withActive (a : option path) (s : State) : State :=
  mkState (document s) (current s) a (synth s) (modeStack s) (keybinds s).

Definition withSynth (y : SpeechSynth.t unit) (s : State) : State :=
  mkState (document s) (current s) (activeElement s) y (modeStack s)
    (keybinds s).

Definition withModeStack (m : ModalityStack.t) (s : State) : State :=
  mkState (document s) (current s) (activeElement s) (synth s) m (keybinds s).

(** [elt.classList.add("__current_sr_elt")] *)
Definition classList_add (p : path) (s : State) : State :=
  withCurrent ({[p]} ∪ current s) s.

(** [elt.classList.remove("__current_sr_elt")] *)
Definition classList_remove (p : path) (s : State) : State :=
  withCurrent (current s ∖ {[p]}) s.

(** [elt.classList.contains("__current_sr_elt")] *)
Definition classList_contains (c : gset path) (p : path) : bool :=
  bool_decide (p ∈ c).

(** [elt.focus()]: takes the input focus when the element is focusable. *)
Definition focus (p : path) (s : State) : State :=
  match subtree (document s) p with
  | Some e => if focusable e then withActive (Some p) s else s
  | None => s
  end.

(** [elt.blur()]: gives the input focus up when the element holds it. *)
Definition blur (p : path) (s : State) : State :=
  if decide (activeElement s = Some p) then withActive None s else s.

(** [synth.speak(text)], with the default callbacks. *)
Definition speak (text : string) (s : State) : State :=
  withSynth (SpeechSynth.speak text tt tt (synth s)) s.

(** The loop every handler starts with:
    [for (; prevIdx < all.length; prevIdx++)
       if (all[prevIdx].classList.contains("__current_sr_elt")) break;]
    It ends at the first marked element, or at [all.length]. *)
Fixpoint scanCurrent (c : gset path) (all : list path) : nat :=
  match all with
  | [] => 0
  | p :: rest => if classList_contains c p then 0 else S (scanCurrent c rest)
  end.

(** *** Strings *)

Definition LF : string := String (ascii_of_nat 10) "".
Definition CR : ascii := ascii_of_nat 13.
Definition TAB : string := String (ascii_of_nat 9) "".

(** A string is truthy when it is not empty. *)
Definition truthy (s : string) : bool := negb (String.eqb s "").

Definition lowerAscii (c : ascii) : ascii :=
  let n := nat_of_ascii c in
  if (65 <=? n)%nat && (n <=? 90)%nat then ascii_of_nat (n + 32) else c.

(** [toLocaleLowerCase] on tag names (ASCII letters, in a locale whose case
    mapping of ASCII is the usual one). *)
Fixpoint toLocaleLowerCase (s : string) : string :=
  match s with
  | EmptyString => EmptyString
  | String c r => String (lowerAscii c) (toLocaleLowerCase r)
  end.

(** [s.replace(/\r?\n|\r/g, " ")] *)
Fixpoint stripNewlines (s : string) : string :=
  match s with
  | EmptyString => EmptyString
  | String c r =>
      if Ascii.eqb c CR then
        match r with
        | String c' r' =>
            if Ascii.eqb c' (ascii_of_nat 10)
            then String " " (stripNewlines r')
            else String " " (stripNewlines r)
        | EmptyString => String " " EmptyString
        end
      else if Ascii.eqb c (ascii_of_nat 10) then String " " (stripNewlines r)
      else String c (stripNewlines r)
  end.

(** [innerText(elt)] of the reader: the element's text without line
    breaks. *)
Definition strippedText (elt : Element) : string :=
  stripNewlines (innerText elt).

(** The descendants of [elt] with a given tag, as elements. *)
Definition elementsByTagName (name : string) (elt : Element) : list Element :=
  List.filter (hasTag name) (omap (subtree elt) (tail (preorder elt))).

(** [elementToString]; [None] is [undefined].  In the image case the
    condition of the conditional operator is the whole concatenation
    ["Here is an image " + img.hasAttribute("alt")], as JavaScript parses
    it. *)
Definition elementToString (elt : Element) : option string :=
  let tag := toLocaleLowerCase (tagName elt) in
  if String.eqb tag "title" then Some ("Title: " +:+ strippedText elt)
  else if String.eqb tag "h1" then Some ("Header 1: " +:+ strippedText elt)
  else if String.eqb tag "h2" then Some ("Header 2: " +:+ strippedText elt)
  else if String.eqb tag "h3" then Some ("Header 3: " +:+ strippedText elt)
  else if String.eqb tag "h4" then Some ("Header 4: " +:+ strippedText elt)
  else if String.eqb tag "h5" then Some ("Header 5: " +:+ strippedText elt)
  else if String.eqb tag "h6" then Some ("Header 6: " +:+ strippedText elt)
  else if String.eqb tag "p" then Some ("Paragraph: " +:+ strippedText elt)
  else if String.eqb tag "img" then
    let condition :=
      "Here is an image "
      +:+ match alt elt with Some _ => "true" | None => "false" end in
    Some (if truthy condition
          then "with description " +:+ default "" (alt elt)
          else "without any description")
  else if String.eqb tag "a" then
    Some ("This is a link to " +:+ innerText elt
          +:+ ". Press enter to click" +:+ LF +:+ TAB +:+ TAB +:+ TAB
          +:+ "this link.")
  else if String.eqb tag "button" then
    Some ("This is a button with text " +:+ strippedText elt
          +:+ ". Press" +:+ LF +:+ TAB +:+ TAB +:+ TAB
          +:+ "enter to press this button.")
  else if String.eqb tag "table" then
    let captions := elementsByTagName "CAPTION" elt in
    let text := "This is a table " in
    let text :=
      if (0 <? length captions)%nat
      then text +:+ "with caption "
                +:+ String.concat " " (map innerHTML captions)
      else text in
    Some (text +:+ ". Press T to explore this table.")
  else None.

(** *** Reading *)

(** The string [readCell] builds for an element. *)
Definition cellString (elt : Element) : string :=
  let toSpeak :=
    if hasTag "TH" elt then "Column header: "
    else if hasTag "TD" elt then "Table cell: "
    else "" in
  toSpeak +:+ strippedText elt.

(** [readCell] *)
Definition readCell (s : State) : Outcome :=
  let all := preorder (document s) in
  let prevIdx := scanCurrent (current s) all in
  if (prevIdx =? length all)%nat then Done s
  else
    match all !! prevIdx with
    | Some p =>
        match subtree (document s) p with
        | Some elt => Done (speak (cellString elt) s)
        | None => TypeError s
        end
    | None => TypeError s
    end.

(** [normalRead], unfolded at most [fuel] times. *)
Fixpoint normalRead_fuel (fuel : nat) (s : State) : Outcome :=
  match fuel with
  | O => OutOfFuel
  | S fuel' =>
      let all := preorder (document s) in
      let len := Z.of_nat (length all) in
      let prevIdx := Z.of_nat (scanCurrent (current s) all) in
      if (prevIdx =? len - 1)%Z then Done s
      else
        do s1 <- (if (prevIdx =? len)%Z then Done s
                  else match item all prevIdx with
                       | Some prev => Done (classList_remove prev (blur prev s))
                       | None => TypeError s
                       end);
        let prevIdx := if (prevIdx =? len)%Z then (-1)%Z else prevIdx in
        match item all (prevIdx + 1) with
        | Some next =>
            let s2 := focus next (classList_add next s1) in
            match subtree (document s) next with
            | Some elt =>
                if String.prefix "__sr" (id elt) then normalRead_fuel fuel' s2
                else
                  match elementToString elt with
                  | Some stringified =>
                      if truthy stringified then Done (speak stringified s2)
                      else normalRead_fuel fuel' s2
                  | None => normalRead_fuel fuel' s2
                  end
            | None => TypeError s2
            end
        | None => TypeError s1
        end
  end.

(** [normalRead]: each unfolding moves the mark one element forward, so one
    more unfolding than there are elements is enough (see
    [normalRead_total]). *)
Definition normalRead (s : State) : Outcome :=
  normalRead_fuel (S (length (preorder (document s)))) s.

(** *** On-screen controls and the mode stack *)

Definition properlyBelow (container q : path) : Prop :=
  container ≠ q /\ container `prefix_of` q.

#[global] Instance properlyBelow_dec c q : Decision (properlyBelow c q).
Proof. unfold properlyBelow. apply _. Defined.

(** The elements the assignment to [innerHTML] creates. *)
Definition modeSpan (mode : ReaderModality) : Element :=
  mkElement "SPAN" "" None false
    (ReaderModality.name mode +:+ " ") (ReaderModality.name mode +:+ " ") [].

Definition helpButton : Element :=
  mkElement "BUTTON" "__sr_help" None true "Help [F1]" "Help [F1]" [].

(** The button of a binding.  The source writes the description and the key
    into the HTML text as they are: this is the element the parser builds
    when neither contains markup ([plainText]). *)
Definition controlButton (i : nat) (kv : string * Keybinds.Bind Action)
    : Element :=
  let label := Keybinds.description (snd kv) +:+ " [" +:+ fst kv +:+ "]" in
  mkElement "BUTTON" ("__sr_controls_" +:+ pretty i) None true label
    (LF +:+ TAB +:+ TAB +:+ TAB +:+ TAB +:+ label
        +:+ LF +:+ TAB +:+ TAB +:+ TAB) [].

(** A text the HTML parser takes as text: no tag and no character
    reference starts in it. *)
Fixpoint plainText (s : string) : bool :=
  match s with
  | EmptyString => true
  | String c r =>
      negb (Ascii.eqb c "<"%char) && negb (Ascii.eqb c "&"%char)
      && plainText r
  end.

Definition plainBinding (kv : string * Keybinds.Bind Action) : bool :=
  plainText (fst kv) && plainText (Keybinds.description (snd kv)).

(** [renderControls]: rebuilds the content of [#screenReader] for the current
    mode.  The elements it replaces are gone, with their class and focus. *)
Definition renderControls (s : State) : Outcome :=
  match ModalityStack.mode (modeStack s) with
  | Some mode =>
      match Keybinds.getAllKeybinds mode (keybinds s) with
      | Some modeKeys =>
          let inner :=
            modeSpan mode :: helpButton
              :: imap controlButton (JsObject.entries modeKeys) in
          match getElementById (document s) "screenReader" with
          | Some container =>
              Done (mkState
                      (setChildren (document s) container inner)
                      (filter (fun q => ~ properlyBelow container q) (current s))
                      (match activeElement s with
                       | Some a => if decide (properlyBelow container a)
                                   then None else Some a
                       | None => None
                       end)
                      (synth s) (modeStack s) (keybinds s))
          | None => TypeError s
          end
      | None => TypeError s
      end
  | None => TypeError s
  end.

(** The wrapper [popMode]: [modeStack.popMode(); renderControls();] *)
Definition popMode (s : State) : Outcome :=
  renderControls
    (withModeStack (snd (ModalityStack.popMode (modeStack s))) s).

(** The wrapper [pushMode]: [modeStack.pushMode(mode); renderControls();] *)
Definition pushMode (mode : ReaderModality) (s : State) : Outcome :=
  renderControls
    (withModeStack (ModalityStack.pushMode mode (modeStack s)) s).

(** [speakHelp] *)
Definition speakHelp (s : State) : Outcome :=
  match ModalityStack.mode (modeStack s) with
  | Some mode =>
      match Keybinds.getHelpString mode (keybinds s) with
      | Some help =>
          Done (speak ("You are currently in " +:+ LF +:+ TAB +:+ TAB
                       +:+ ReaderModality.name mode
                       +:+ " mode. Press F one for help. "
                       +:+ LF +:+ TAB +:+ TAB +:+ help) s)
      | None => TypeError s
      end
  | None => TypeError s
  end.

(** *** The callbacks *)

(** EDIT, Escape *)
Definition editEscape (s : State) : Outcome := popMode s.

(** PAUSED, p *)
Definition pausedP (s : State) : Outcome :=
  do s1 <- popMode (withSynth (SpeechSynth.resume (synth s)) s);
  if bool_decide (ModalityStack.mode (modeStack s1) = Some NORMAL)
     && negb (SpeechSynthesis.speaking (SpeechSynth.voiceSynth (synth s1)))
  then normalRead s1
  else Done s1.

(** NORMAL and TABLE, p *)
Definition pauseP (s : State) : Outcome :=
  pushMode PAUSED (withSynth (SpeechSynth.pause (synth s)) s).

(** The backward search of the ArrowUp handler: the nearest element before
    index [k] that is not the reader's own and has a string; [None] when the
    search runs past the first element, where [all[-1].id] is a TypeError. *)
Fixpoint previousReadable (doc : Element) (all : list path) (k : nat)
    : option path :=
  match k with
  | O => None
  | S k' =>
      match all !! k' with
      | Some p =>
          match subtree doc p with
          | Some elt =>
              if String.prefix "__sr" (id elt) then previousReadable doc all k'
              else match elementToString elt with
                   | Some str => if truthy str then Some p
                                 else previousReadable doc all k'
                   | None => previousReadable doc all k'
                   end
          | None => None
          end
      | None => None
      end
  end.

(** NORMAL, ArrowUp *)
Definition normalArrowUp (s : State) : Outcome :=
  let all := preorder (document s) in
  let prevIdx := scanCurrent (current s) all in
  if (prevIdx =? length all)%nat || (prevIdx =? 0)%nat then
    match all !! 0%nat with
    | Some first => normalRead (classList_remove first s)
    | None => TypeError s
    end
  else
    match all !! prevIdx with
    | Some prev =>
        let s1 := blur prev (classList_remove prev s) in
        match previousReadable (document s) all prevIdx with
        | Some p =>
            match subtree (document s) p with
            | Some elt =>
                let s2 := focus p (classList_add p s1) in
                Done (speak (default "undefined" (elementToString elt)) s2)
            | None => TypeError s1
            end
        | None => TypeError s1
        end
    | None => TypeError s
    end.

(** NORMAL, t *)
Definition normalT (s : State) : Outcome :=
  let all := preorder (document s) in
  let prevIdx := scanCurrent (current s) all in
  let notATable :=
    Done (speak "You are currently not hovering over a table element." s) in
  if (prevIdx =? length all)%nat then notATable
  else
    match all !! prevIdx with
    | Some prev =>
        match subtree (document s) prev with
        | Some elt =>
            if negb (hasTag "TABLE" elt) then notATable
            else
              let s1 := withSynth (SpeechSynth.stop (synth s)) s in
              match descendantsWhere (hasTag "TR") (document s) prev with
              | Some [] => Done (speak "This table has no rows." s1)
              | Some (row0 :: _) =>
                  match descendantsWhere isCell (document s) row0 with
                  | Some [] => Done (speak "This table has no columns." s1)
                  | Some (col0 :: _) =>
                      do s2 <- pushMode TABLE
                                 (classList_add col0
                                    (blur prev (classList_remove prev s1)));
                      readCell s2
                  | None => TypeError s1
                  end
              | None => TypeError s1
              end
        | None => TypeError s
        end
    | None => TypeError s
    end.

(** NORMAL, space: [document.activeElement.click()], for an input focus
    that is on an element of the page ([None]: on the body).  What a click
    there does is the page's business: the reader's own state is not
    touched.  The reader listens to clicks on its own controls only (the
    listeners [renderControls] adds); a click on one of them, when the input
    focus is there, runs its listener, which this model leaves out. *)
Definition normalSpace (s : State) : Outcome := Done s.

(** The walk [while (tableElt.tagName !== "TABLE") tableElt =
    tableElt.parentElement!;]: at most as many steps as the element has
    ancestors; [None] is the TypeError of reading [null.tagName]. *)
Fixpoint closestTable (doc : Element) (steps : nat) (p : path) : option path :=
  match subtree doc p with
  | Some e =>
      if hasTag "TABLE" e then Some p
      else match steps with
           | O => None
           | S steps' =>
               match parentElement p with
               | Some q => closestTable doc steps' q
               | None => None
               end
           end
  | None => None
  end.

(** The last steps of every table move: [prevNode.blur()], unmark it,
    [nextNode.focus()] (a TypeError when [nextNode] is [undefined]), mark it,
    [readCell()]. *)
Definition moveTo (prevNode : path) (nextNode : option path) (s : State)
    : Outcome :=
  let s1 := classList_remove prevNode (blur prevNode s) in
  match nextNode with
  | Some next => readCell (classList_add next (focus next s1))
  | None => TypeError s1
  end.

(** TABLE, ArrowRight and ArrowLeft *)
Definition tableHorizontal (right : bool) (s : State) : Outcome :=
  let all := preorder (document s) in
  let prevIdx := scanCurrent (current s) all in
  if (prevIdx =? length all)%nat then Done s
  else
    match all !! prevIdx with
    | Some prevNode =>
        match parentElement prevNode with
        | Some parent =>
            match descendantsWhere isCell (document s) parent with
            | Some siblings =>
                let prevNodeIdx := indexOf prevNode siblings in
                if right then
                  if (prevNodeIdx <? Z.of_nat (length siblings) - 1)%Z
                  then moveTo prevNode (item siblings (prevNodeIdx + 1)) s
                  else Done (speak "There are no more cells to the right." s)
                else
                  if (0 <? prevNodeIdx)%Z
                  then moveTo prevNode (item siblings (prevNodeIdx - 1)) s
                  else Done (speak "There are no more cells to the left." s)
            | None => TypeError s
            end
        | None => TypeError s
        end
    | None => TypeError s
    end.

(** TABLE, ArrowDown and ArrowUp *)
Definition tableVertical (down : bool) (s : State) : Outcome :=
  let all := preorder (document s) in
  let prevIdx := scanCurrent (current s) all in
  if (prevIdx =? length all)%nat then Done s
  else
    match all !! prevIdx with
    | Some prevNode =>
        match parentElement prevNode with
        | Some parent =>
            match descendantsWhere isCell (document s) parent with
            | Some siblings =>
                let prevNodeIdx := indexOf prevNode siblings in
                match closestTable (document s) (length prevNode) prevNode with
                | Some tableElt =>
                    match descendantsWhere (hasTag "TR") (document s)
                            tableElt with
                    | Some rows =>
                        let rowIdx := indexOf parent rows in
                        if (if down
                            then rowIdx =? Z.of_nat (length rows) - 1
                            else rowIdx =? 0)%Z
                        then
                          Done (speak (if down
                                       then "There are no more rows below this one."
                                       else "There are no more rows above this one.")
                                  s)
                        else
                          match item rows (if down then rowIdx + 1
                                           else rowIdx - 1)%Z with
                          | Some row =>
                              match descendantsWhere isCell (document s) row with
                              | Some belowCells =>
                                  moveTo prevNode
                                    (item belowCells
                                       (Z.min prevNodeIdx
                                          (Z.of_nat (length belowCells) - 1)))
                                    s
                              | None => TypeError s
                              end
                          | None => TypeError s
                          end
                    | None => TypeError s
                    end
                | None => TypeError s
                end
            | None => TypeError s
            end
        | None => TypeError s
        end
    | None => TypeError s
    end.

(** TABLE, q *)
Definition tableQ (s : State) : Outcome :=
  do s1 <- popMode s; normalRead s1.

Definition runAction (a : Action) (s : State) : Outcome :=
  match a with
  | EditEscape => editEscape s
  | PausedP => pausedP s
  | NormalP | TableP => pauseP s
  | NormalArrowDown => normalRead s
  | NormalArrowUp => normalArrowUp s
  | NormalArrowLeft =>
      Done (withSynth (SpeechSynth.decreaseVoiceRate (synth s)) s)
  | NormalArrowRight =>
      Done (withSynth (SpeechSynth.increaseVoiceRate (synth s)) s)
  | NormalT => normalT s
  | NormalSpace => normalSpace s
  | TableArrowRight => tableHorizontal true s
  | TableArrowLeft => tableHorizontal false s
  | TableArrowDown => tableVertical true s
  | TableArrowUp => tableVertical false s
  | TableQ => tableQ s
  end.

(** The registrations of [window.onload], in the order they are made. *)
Definition registrations : list (Keybinds.registration Action) :=
  [ Keybinds.mkReg PAUSED "p" "Unpause" PausedP;
    Keybinds.mkReg EDIT "Escape" "Exit edit mode" EditEscape;
    Keybinds.mkReg NORMAL "p" "Pause" NormalP;
    Keybinds.mkReg NORMAL "ArrowDown" "Read the next element" NormalArrowDown;
    Keybinds.mkReg NORMAL "ArrowUp" "Go back to the previous element"
      NormalArrowUp;
    Keybinds.mkReg NORMAL "ArrowLeft" "Slow down" NormalArrowLeft;
    Keybinds.mkReg NORMAL "ArrowRight" "Speed up" NormalArrowRight;
    Keybinds.mkReg NORMAL "t" "Enter table mode" NormalT;
    Keybinds.mkReg NORMAL " " "Click the hovered element" NormalSpace;
    Keybinds.mkReg TABLE "p" "Pause" TableP;
    Keybinds.mkReg TABLE "ArrowRight" "Move right" TableArrowRight;
    Keybinds.mkReg TABLE "ArrowLeft" "Move left" TableArrowLeft;
    Keybinds.mkReg TABLE "ArrowDown" "Move down" TableArrowDown;
    Keybinds.mkReg TABLE "ArrowUp" "Move up" TableArrowUp;
    Keybinds.mkReg TABLE "q" "Exit the table" TableQ ].

(** [document.body]: the first child of the [html] element that is a [body]
    or a [frameset], with its index; [None] is [null]. *)
Fixpoint firstBody (i : nat) (cs : list Element) : option (nat * Element) :=
  match cs with
  | [] => None
  | c :: cs' =>
      if hasTag "BODY" c || hasTag "FRAMESET" c then Some (i, c)
      else firstBody (S i) cs'
  end.

Definition documentBody (doc : Element) : option (nat * Element) :=
  if hasTag "HTML" doc then firstBody 0 (children doc) else None.

(** The two elements [window.onload] writes in front of the body's content:
    the style sheet of the mark and the container of the controls. *)
Definition styleSheet : Element :=
  let css := LF +:+ TAB +:+ TAB +:+ TAB +:+ ".__current_sr_elt {"
             +:+ LF +:+ TAB +:+ TAB +:+ TAB +:+ TAB
             +:+ "background-color: yellow;"
             +:+ LF +:+ TAB +:+ TAB +:+ TAB +:+ "}" +:+ LF +:+ TAB +:+ TAB in
  mkElement "STYLE" "" None false css css [].

Definition controlsContainer : Element :=
  mkElement "DIV" "screenReader" None false "" "" [].

(** [document.body.innerHTML = `<style>...</style><div id="screenReader">
    </div>` + document.body.innerHTML]: the content of a [body] is created
    anew from its serialisation, after the two elements.  The serialisation
    keeps the attributes, so an element that carried the mark carries it
    still, two places further in the body.  (This is for a body whose
    content the parser builds again as it was, as it does for the content it
    built itself.)  A [frameset] takes frames only: there the parser drops
    the two elements and builds the frames again. *)
Definition insertControls (b : nat) (body page : Element) : Element :=
  if hasTag "BODY" body
  then setChildren page [b] (styleSheet :: controlsContainer :: children body)
  else page.

Definition afterInsertion (b : nat) (body : Element) (p : path) : path :=
  if hasTag "BODY" body then
    match p with
    | i :: k :: r => if Nat.eqb i b then i :: (k + 2) :: r else p
    | _ => p
    end
  else p.

(** [window.onload]: the three objects, the registrations, the two elements
    at the head of the body, the controls.  [document.body.innerHTML] on a
    document without body is a TypeError.  No element of the body created
    anew holds the input focus. *)
Definition onload (page : Element) (marked : gset path)
    (engine : SpeechSynthesis.t unit) : Outcome :=
  let start doc c kb :=
    mkState doc c None (SpeechSynth.constructor engine)
      ModalityStack.constructor kb in
  match Keybinds.registerAll registrations Keybinds.constructor with
  | Some kb =>
      match documentBody page with
      | Some (b, body) =>
          renderControls
            (start (insertControls b body page)
               (set_map (afterInsertion b body) marked) kb)
      | None => TypeError (start page marked kb)
      end
  | None => TypeError (start page marked Keybinds.constructor)
  end.

(** [globalKeystrokes] *)
Definition globalKeystrokes (key : string) (s : State) : Outcome :=
  if String.eqb key "F1"
  then speakHelp (withSynth (SpeechSynth.stop (synth s)) s)
  else
    match ModalityStack.mode (modeStack s) with
    | Some mode =>
        match Keybinds.triggerEvent mode key (keybinds s) with
        | Some (Keybinds.Calls a) => runAction a s
        | Some Keybinds.Ignores => Done s
        | Some Keybinds.Throws => TypeError s
        | None => TypeError s
        end
    | None => TypeError s
    end.

(** *** What the page has heard and where the mark is *)

(** The texts submitted to the engine so far, oldest first. *)
Definition heard (y : SpeechSynth.t unit) : list string :=
  omap (fun c => match c with
                 | SpeechSynthesis.Speak u => Some (SpeechSynthesis.text u)
                 | _ => None
                 end)
    (SpeechSynthesis.calls (SpeechSynth.voiceSynth y)).

Definition spoken (s : State) : list string := heard (synth s).

(** An element the forward reading stops at: not the reader's own, and with
    a string that is not empty. *)
Definition readable (doc : Element) (p : path) : bool :=
  match subtree doc p with
  | Some elt =>
      negb (String.prefix "__sr" (id elt))
      && match elementToString elt with
         | Some str => truthy str
         | None => false
         end
  | None => false
  end.

(** What is said at an element. *)
Definition narration (doc : Element) (p : path) : string :=
  match subtree doc p with
  | Some elt => default "" (elementToString elt)
  | None => ""
  end.

(** The mark sits on the last element of [pre], or nowhere when [pre] is
    empty. *)
Definition markedLast (pre : list path) (s : State) : Prop :=
  match last pre with
  | Some p => current s = {[p]}
  | None => current s = ∅
  end.

Lemma heard_speak text y :
  heard (SpeechSynth.speak text tt tt y) = heard y ++ [text].
Proof.
  unfold heard. simpl. rewrite !omap_app. simpl.
  rewrite app_nil_r. reflexivity.
Qed.

Lemma heard_stop y : heard (SpeechSynth.stop y) = heard y.
Proof. unfold heard. simpl. rewrite omap_app. simpl. apply app_nil_r. Qed.

Lemma spoken_speak text s : spoken (speak text s) = spoken s ++ [text].
Proof. apply heard_speak. Qed.

Lemma current_focus p s : current (focus p s) = current s.
Proof.
  unfold focus. destruct (subtree _ _) as [e|]; [|reflexivity].
  destruct (focusable e); reflexivity.
Qed.

Lemma current_blur p s : current (blur p s) = current s.
Proof. unfold blur. destruct (decide _); reflexivity. Qed.

Lemma frame_focus p s :
  document (focus p s) = document s /\ synth (focus p s) = synth s /\
  modeStack (focus p s) = modeStack s /\ keybinds (focus p s) = keybinds s.
Proof.
  unfold focus. destruct (subtree _ _) as [e|]; [|auto].
  destruct (focusable e); auto.
Qed.

Lemma frame_blur p s :
  document (blur p s) = document s /\ synth (blur p s) = synth s /\
  modeStack (blur p s) = modeStack s /\ keybinds (blur p s) = keybinds s.
Proof. unfold blur. destruct (decide _); auto. Qed.

Lemma scanCurrent_empty all : scanCurrent ∅ all = length all.
Proof.
  induction all as [|p all IH]; simpl; [reflexivity|].
  unfold classList_contains. rewrite bool_decide_eq_false_2 by set_solver.
  now rewrite IH.
Qed.

Lemma scanCurrent_singleton pre p rest :
  p ∉ pre -> scanCurrent {[p]} (pre ++ p :: rest) = length pre.
Proof.
  induction pre as [|x pre IH]; simpl; intros Hp; unfold classList_contains.
  - rewrite bool_decide_eq_true_2 by set_solver. reflexivity.
  - rewrite bool_decide_eq_false_2 by set_solver.
    rewrite IH by set_solver. reflexivity.
Qed.

(** The first marked element, when exactly [q] is marked and it is in the
    document. *)
Lemma scanCurrent_found q all :
  q ∈ all ->
  scanCurrent {[q]} all < length all /\ all !! scanCurrent {[q]} all = Some q.
Proof.
  induction all as [|x all IH]; intros Hq; [inversion Hq|].
  simpl. unfold classList_contains.
  destruct (decide (x = q)) as [->|N].
  - rewrite bool_decide_eq_true_2 by set_solver. simpl. split; [lia|reflexivity].
  - rewrite bool_decide_eq_false_2 by set_solver.
    destruct IH as [H1 H2]; [set_solver|]. simpl. split; [lia|exact H2].
Qed.

Lemma elementToString_truthy elt str :
  elementToString elt = Some str -> truthy str = true.
Proof.
  unfold elementToString.
  repeat match goal with
         | |- context [if String.eqb ?a ?b then _ else _] =>
             destruct (String.eqb a b)
         end;
    try discriminate; intros [= <-]; try reflexivity.
  destruct (0 <? _)%nat; reflexivity.
Qed.

Lemma item_app_r {A} (pre : list A) x rest :
  item (pre ++ x :: rest) (Z.of_nat (length pre)) = Some x.
Proof.
  unfold item. destruct (Z.of_nat (length pre) <? 0)%Z eqn:E;
    [apply Z.ltb_lt in E; lia|].
  rewrite Nat2Z.id. apply list_lookup_middle. reflexivity.
Qed.

Lemma find_readable_cons doc q rest :
  List.find (readable doc) (q :: rest)
  = if readable doc q then Some q else List.find (readable doc) rest.
Proof. reflexivity. Qed.

(** One forward reading, from a state whose mark is on the last element of
    [pre]: it stops at the first readable element of [rest] and says it, or
    it runs to the end of the document and says nothing. *)
Lemma normalRead_fuel_scan doc rest : forall pre s fuel,
  preorder doc = pre ++ rest ->
  document s = doc ->
  markedLast pre s ->
  length rest < fuel ->
  exists s',
    normalRead_fuel fuel s = Done s' /\
    document s' = doc /\ modeStack s' = modeStack s /\
    keybinds s' = keybinds s /\
    match List.find (readable doc) rest with
    | Some q =>
        current s' = {[q]} /\
        synth s' = SpeechSynth.speak (narration doc q) tt tt (synth s)
    | None => synth s' = synth s /\ markedLast (pre ++ rest) s'
    end.
Proof.
  induction rest as [|q rest IH]; intros pre s fuel Hall Hdoc Hmark Hfuel.
  - (* the mark is on the last element of the document *)
    destruct fuel as [|fuel]; [simpl in Hfuel; lia|].
    rewrite app_nil_r in Hall. simpl.
    rewrite Hdoc, Hall.
    destruct (preorder_nonempty doc) as [ps Hps].
    destruct (exists_last (l := pre)) as (pre' & p & ->);
      [rewrite <- Hall, Hps; discriminate|].
    unfold markedLast in Hmark. rewrite last_snoc in Hmark. rewrite Hmark.
    rewrite scanCurrent_singleton.
    2:{ pose proof (NoDup_preorder doc) as ND. rewrite Hall in ND.
        apply NoDup_app in ND as (_ & ND & _). intros Hin.
        apply (ND p Hin). left. }
    rewrite length_app. simpl.
    replace (Z.of_nat (length pre') =? Z.of_nat (length pre' + 1) - 1)%Z
      with true by (symmetry; apply Z.eqb_eq; lia).
    exists s. rewrite app_nil_r. unfold markedLast. rewrite last_snoc.
    repeat split; auto.
  - destruct fuel as [|fuel]; [simpl in Hfuel; lia|].
    simpl in Hfuel.
    assert (Hq : q ∈ preorder doc) by (rewrite Hall; set_solver).
    destruct (proj1 (elem_of_preorder doc q) Hq) as [elt Helt].
    (* the state after the mark has moved onto [q] *)
    assert (Hstep : exists s2,
      document s2 = doc /\ synth s2 = synth s /\
      modeStack s2 = modeStack s /\ keybinds s2 = keybinds s /\
      current s2 = {[q]} /\
      normalRead_fuel (S fuel) s =
        if String.prefix "__sr" (id elt) then normalRead_fuel fuel s2
        else match elementToString elt with
             | Some stringified =>
                 if truthy stringified then Done (speak stringified s2)
                 else normalRead_fuel fuel s2
             | None => normalRead_fuel fuel s2
             end).
    { simpl. rewrite Hdoc, Hall.
      destruct pre as [|x pre0] using rev_ind.
      - (* nothing is marked yet *)
        unfold markedLast in Hmark. simpl in Hmark. rewrite Hmark.
        rewrite scanCurrent_empty. simpl app.
        replace (Z.of_nat (length (q :: rest))
                 =? Z.of_nat (length (q :: rest)) - 1)%Z
          with false by (symmetry; apply Z.eqb_neq; lia).
        rewrite Z.eqb_refl. simpl andThen.
        change (item (q :: rest) (-1 + 1)) with (Some q).
        rewrite Helt.
        exists (focus q (classList_add q s)).
        destruct (frame_focus q (classList_add q s)) as (E1 & E2 & E3 & E4).
        rewrite E1, E2, E3, E4, current_focus. simpl.
        rewrite Hmark. repeat split; auto. set_solver.
      - clear IHpre0.
        unfold markedLast in Hmark. rewrite last_snoc in Hmark. rewrite Hmark.
        rewrite <- app_assoc. simpl app.
        rewrite scanCurrent_singleton.
        2:{ pose proof (NoDup_preorder doc) as ND. rewrite Hall in ND.
            rewrite <- app_assoc in ND.
            apply NoDup_app in ND as (_ & ND & _). intros Hin.
            apply (ND x Hin). left. }
        rewrite length_app. simpl length.
        replace (Z.of_nat (length pre0)
                 =? Z.of_nat (length pre0 + S (S (length rest))) - 1)%Z
          with false by (symmetry; apply Z.eqb_neq; lia).
        replace (Z.of_nat (length pre0)
                 =? Z.of_nat (length pre0 + S (S (length rest))))%Z
          with false by (symmetry; apply Z.eqb_neq; lia).
        rewrite item_app_r. simpl andThen.
        replace (Z.of_nat (length pre0) + 1)%Z
          with (Z.of_nat (length (pre0 ++ [x])))
          by (rewrite length_app; simpl; lia).
        replace (pre0 ++ x :: q :: rest) with ((pre0 ++ [x]) ++ q :: rest)
          by (rewrite <- app_assoc; reflexivity).
        rewrite item_app_r, Helt.
        set (s1 := classList_remove x (blur x s)).
        exists (focus q (classList_add q s1)).
        destruct (frame_focus q (classList_add q s1)) as (E1 & E2 & E3 & E4).
        destruct (frame_blur x s) as (B1 & B2 & B3 & B4).
        rewrite E1, E2, E3, E4, current_focus. simpl.
        rewrite B1, B2, B3, B4, current_blur, Hmark.
        repeat split; auto. set_solver. }
    destruct Hstep as (s2 & D2 & Y2 & M2 & K2 & C2 & Heq).
    rewrite Heq. clear Heq.
    assert (Hmark2 : markedLast (pre ++ [q]) s2).
    { unfold markedLast. rewrite last_snoc. exact C2. }
    assert (Hall2 : preorder doc = (pre ++ [q]) ++ rest).
    { rewrite <- app_assoc. exact Hall. }
    assert (Hrec : readable doc q = false ->
      exists s',
        normalRead_fuel fuel s2 = Done s' /\
        document s' = doc /\ modeStack s' = modeStack s /\
        keybinds s' = keybinds s /\
        match List.find (readable doc) (q :: rest) with
        | Some q0 =>
            current s' = {[q0]} /\
            synth s' = SpeechSynth.speak (narration doc q0) tt tt (synth s)
        | None => synth s' = synth s /\ markedLast (pre ++ q :: rest) s'
        end).
    { intros Hr. rewrite find_readable_cons, Hr.
      destruct (IH (pre ++ [q]) s2 fuel Hall2 D2 Hmark2 ltac:(lia))
        as (s' & R & D' & M' & K' & H').
      exists s'. rewrite <- M2, <- K2, <- Y2.
      replace (pre ++ q :: rest) with ((pre ++ [q]) ++ rest)
        by (rewrite <- app_assoc; reflexivity).
      auto. }
    unfold readable in Hrec. rewrite Helt in Hrec.
    destruct (String.prefix "__sr" (id elt)) eqn:Hinj; [apply Hrec; reflexivity|].
    destruct (elementToString elt) as [str|] eqn:Hstr; [|apply Hrec; reflexivity].
    rewrite (elementToString_truthy elt str Hstr).
    exists (speak str s2). rewrite find_readable_cons.
    unfold readable. rewrite Helt, Hinj, Hstr.
    rewrite (elementToString_truthy elt str Hstr). simpl.
    unfold narration. rewrite Helt, Hstr. simpl.
    rewrite D2, M2, K2, C2, Y2. repeat split; reflexivity.
Qed.

Lemma scanCurrent_le c all : scanCurrent c all <= length all.
Proof.
  induction all as [|p all IH]; simpl; [lia|].
  destruct (classList_contains c p); lia.
Qed.

Lemma scanCurrent_step c all : forall k x y,
  NoDup all -> scanCurrent c all = k ->
  all !! k = Some x -> all !! S k = Some y ->
  scanCurrent ({[y]} ∪ (c ∖ {[x]})) all = S k.
Proof.
  induction all as [|a l IH]; intros k x y ND Hk Hx Hy; [discriminate|].
  apply NoDup_cons in ND as [Ha ND].
  assert (Hay : a <> y).
  { intros ->. apply Ha. destruct k; simpl in Hy;
      apply list_elem_of_lookup; eauto. }
  simpl in Hk |- *. unfold classList_contains in *.
  destruct (bool_decide (a ∈ c)) eqn:Hac.
  - subst k. simpl in Hx, Hy. injection Hx as ->.
    rewrite bool_decide_eq_false_2 by set_solver.
    destruct l as [|b l]; [discriminate|]. simpl in Hy. injection Hy as ->.
    simpl. unfold classList_contains.
    rewrite bool_decide_eq_true_2 by set_solver. reflexivity.
  - apply bool_decide_eq_false_1 in Hac.
    destruct k as [|k]; [discriminate|]. injection Hk as Hk.
    simpl in Hx, Hy.
    rewrite bool_decide_eq_false_2 by set_solver.
    f_equal. eapply IH; eassumption.
Qed.

Lemma item_nat {A} (l : list A) (k : nat) : item l (Z.of_nat k) = l !! k.
Proof.
  unfold item. destruct (Z.of_nat k <? 0)%Z eqn:E;
    [apply Z.ltb_lt in E; lia|].
  now rewrite Nat2Z.id.
Qed.

(** From a state whose first marked element is at index [k], [normalRead]
    returns within [length all - k] unfoldings. *)
Lemma normalRead_fuel_returns : forall fuel s k,
  scanCurrent (current s) (preorder (document s)) = k ->
  k < length (preorder (document s)) ->
  length (preorder (document s)) - k <= fuel ->
  exists s', normalRead_fuel fuel s = Done s'.
Proof.
  induction fuel as [|fuel IH]; intros s k Hk Hlt Hfuel; [lia|].
  cbn [normalRead_fuel]. rewrite Hk.
  destruct (Z.of_nat k =? Z.of_nat (length (preorder (document s))) - 1)%Z
    eqn:Hlast; [eauto|].
  apply Z.eqb_neq in Hlast.
  replace (Z.of_nat k =? Z.of_nat (length (preorder (document s))))%Z
    with false by (symmetry; apply Z.eqb_neq; lia).
  rewrite item_nat.
  destruct (lookup_lt_is_Some_2 (preorder (document s)) k Hlt) as [x Hx].
  destruct (lookup_lt_is_Some_2 (preorder (document s)) (S k)) as [y Hy];
    [lia|].
  rewrite Hx. cbn [andThen].
  replace (Z.of_nat k + 1)%Z with (Z.of_nat (S k)) by lia.
  rewrite item_nat, Hy.
  assert (Hyin : y ∈ preorder (document s))
    by (apply list_elem_of_lookup; eauto).
  destruct (proj1 (elem_of_preorder _ _) Hyin) as [elt Helt]. rewrite Helt.
  set (s2 := focus y (classList_add y (classList_remove x (blur x s)))).
  assert (F : document s2 = document s /\
              current s2 = {[y]} ∪ (current s ∖ {[x]})).
  { unfold s2, focus, classList_add, classList_remove, blur.
    destruct (decide _); simpl;
      destruct (subtree _ _) as [e0|]; try destruct (focusable e0); auto. }
  destruct F as [F1 F2].
  assert (Hrec : exists s', normalRead_fuel fuel s2 = Done s').
  { apply (IH s2 (S k)).
    - rewrite F1, F2.
      apply (scanCurrent_step _ _ k x y (NoDup_preorder _) Hk Hx Hy).
    - rewrite F1. lia.
    - rewrite F1. lia. }
  destruct (String.prefix "__sr" (id elt)); [exact Hrec|].
  destruct (elementToString elt) as [str|]; [|exact Hrec].
  destruct (truthy str); [eauto | exact Hrec].
Qed.

(** [normalRead] returns, whatever the state: one more unfolding than there
    are elements is always enough. *)
Lemma normalRead_total s : exists s', normalRead s = Done s'.
Proof.
  unfold normalRead.
  pose proof (scanCurrent_le (current s) (preorder (document s))) as Hle.
  destruct (decide (scanCurrent (current s) (preorder (document s))
                    < length (preorder (document s)))) as [Hlt|Hge].
  - eapply normalRead_fuel_returns; [reflexivity | exact Hlt | lia].
  - assert (Hk : scanCurrent (current s) (preorder (document s))
                 = length (preorder (document s))) by lia.
    destruct (preorder_nonempty (document s)) as [ps Hps].
    cbn [normalRead_fuel]. rewrite Hk, Hps.
    destruct (Z.of_nat (length ([] :: ps))
              =? Z.of_nat (length ([] :: ps)) - 1)%Z eqn:E;
      [apply Z.eqb_eq in E; lia|].
    rewrite Z.eqb_refl. cbn [andThen].
    change (item ([] :: ps) (-1 + 1)) with (Some (@nil nat)).
    assert (Hin : [] ∈ preorder (document s)) by (rewrite Hps; left).
    destruct (proj1 (elem_of_preorder _ _) Hin) as [elt Helt]. rewrite Helt.
    set (s2 := focus [] (classList_add [] s)).
    assert (F : document s2 = document s /\ current s2 = {[ [] ]} ∪ current s).
    { unfold s2, focus, classList_add. simpl.
      destruct (focusable _); auto. }
    destruct F as [F1 F2].
    assert (Hrec : exists s', normalRead_fuel (S (length ps)) s2 = Done s').
    { apply (normalRead_fuel_returns _ s2 0).
      - rewrite F1, F2, Hps. simpl. unfold classList_contains.
        rewrite bool_decide_eq_true_2 by set_solver. reflexivity.
      - rewrite F1, Hps. cbn [length]. lia.
      - rewrite F1, Hps. cbn [length]. lia. }
    destruct (String.prefix "__sr" (id elt)); [exact Hrec|].
    destruct (elementToString elt) as [str|]; [|exact Hrec].
    destruct (truthy str); [eauto | exact Hrec].
Qed.

Lemma filter_head_split {A} (f : A -> bool) l x tl :
  List.filter f l = x :: tl ->
  exists r1 r2, l = r1 ++ x :: r2 /\ List.filter f r2 = tl /\
                List.find f l = Some x.
Proof.
  induction l as [|y l IH]; simpl; [discriminate|].
  destruct (f y) eqn:Hy.
  - intros [= -> <-]. exists [], l. auto.
  - intros H. destruct (IH H) as (r1 & r2 & -> & H2 & H3).
    exists (y :: r1), r2. auto.
Qed.

Lemma filter_nil_find {A} (f : A -> bool) l :
  List.filter f l = [] -> List.find f l = None.
Proof.
  induction l as [|y l IH]; simpl; [reflexivity|].
  destruct (f y); [discriminate | exact IH].
Qed.

(** Successive forward readings, each started when the one before has
    returned. *)
Definition advance (o : Outcome) : Outcome := andThen o normalRead.

Definition advances (n : nat) (s : State) : Outcome := Nat.iter n advance (Done s).

(** The readable elements of a document, in document order. *)
Definition readables (doc : Element) : list path :=
  List.filter (readable doc) (preorder doc).

(** After [n] forward readings from an unmarked page, the reader has said
    the first [n] readable elements, in document order, and nothing else. *)
Lemma advances_in_document_order doc s0 n :
  document s0 = doc -> current s0 = ∅ ->
  exists s pre rest,
    advances n s0 = Done s /\
    document s = doc /\
    preorder doc = pre ++ rest /\ markedLast pre s /\
    List.filter (readable doc) rest = drop n (readables doc) /\
    spoken s = spoken s0 ++ take n (map (narration doc) (readables doc)) /\
    match n with
    | O => True
    | S m => forall x, readables doc !! m = Some x -> current s = {[x]}
    end.
Proof.
  intros Hdoc Hcur. induction n as [|n IH].
  - exists s0, [], (preorder doc). simpl. rewrite app_nil_r.
    repeat split; auto.
  - destruct IH as (s & pre & rest & Hrun & Hd & Hall & Hm & Hf & Hs & _).
    unfold advances in *. simpl. rewrite Hrun. simpl.
    destruct (normalRead_fuel_scan doc rest pre s
                (S (length (preorder (document s)))) Hall Hd Hm)
      as (s' & R & D' & _ & _ & H').
    { rewrite Hd, Hall, length_app. lia. }
    unfold normalRead. rewrite R.
    destruct (drop n (readables doc)) as [|x tl] eqn:Hdrop.
    + (* nothing readable is left *)
      rewrite (filter_nil_find _ _ Hf) in H'. destruct H' as [Hy Hm'].
      exists s', (pre ++ rest), []. rewrite app_nil_r.
      apply drop_nil_inv in Hdrop.
      rewrite drop_ge by lia.
      rewrite (take_ge _ n) in Hs by (rewrite length_map; lia).
      rewrite (take_ge _ (S n)) by (rewrite length_map; lia).
      repeat split; auto.
      * unfold spoken. rewrite Hy. exact Hs.
      * intros x Hx. apply lookup_lt_Some in Hx. lia.
    + destruct (filter_head_split _ _ _ _ Hf) as (r1 & r2 & -> & Hf2 & Hfind).
      rewrite Hfind in H'. destruct H' as [Hc Hy].
      assert (Hx : readables doc !! n = Some x).
      { rewrite <- (Nat.add_0_r n), <- lookup_drop, Hdrop. reflexivity. }
      exists s', (pre ++ r1 ++ [x]), r2.
      rewrite (drop_S _ _ _ Hx) in Hdrop. injection Hdrop as <-.
      erewrite take_S_r
        by (rewrite list_lookup_fmap, Hx; reflexivity).
      repeat split; auto.
      * rewrite Hall, <- !app_assoc. reflexivity.
      * unfold markedLast. rewrite !app_assoc, last_snoc. exact Hc.
      * unfold spoken. rewrite Hy, heard_speak. fold (spoken s).
        rewrite Hs, <- app_assoc. reflexivity.
      * intros x' Hx'. rewrite Hx in Hx'. injection Hx' as <-. exact Hc.
Qed.

(** A page made of a header, one of the reader's own buttons and a
    paragraph. *)
Definition headerButtonParagraph (header label paragraph : string) : Element :=
  mkElement "BODY" "" None false "" ""
    [ mkElement "H1" "" None false header header [];
      mkElement "BUTTON" "__sr_help" None true label label [];
      mkElement "P" "" None false paragraph paragraph [] ].

(** C2. Forward reading visits the readable elements in document order and
    skips the reader's own elements and the elements without a string: from
    an unmarked page, [n] forward readings say exactly the first [n] elements
    of the document, in pre-order, that are neither injected (id starting
    with [__sr]) nor without a string, and leave the mark on the last one
    said.  On a page made of a header, an injected button and a paragraph,
    two readings say the header and then the paragraph, never the button. *)
Theorem forward_reading_in_document_order :
  (forall (doc : Element) (p : path),
      p ∈ readables doc <->
      p ∈ preorder doc /\
      exists elt, subtree doc p = Some elt /\
                  String.prefix "__sr" (id elt) = false /\
                  is_Some (elementToString elt)) /\
  (forall (doc : Element) a y m k (n : nat),
      let s0 := mkState doc ∅ a y m k in
      exists s,
        advances n s0 = Done s /\
        spoken s
        = spoken s0 ++ take n (map (narration doc) (readables doc)) /\
        match n with
        | O => True
        | S i => forall x, readables doc !! i = Some x -> current s = {[x]}
        end) /\
  (forall (header label paragraph : string) a y m k,
      let s0 :=
        mkState (headerButtonParagraph header label paragraph) ∅ a y m k in
      exists s1 s2,
        normalRead s0 = Done s1 /\ normalRead s1 = Done s2 /\
        spoken s1 = spoken s0 ++ ["Header 1: " +:+ stripNewlines header] /\
        spoken s2 = spoken s0 ++ ["Header 1: " +:+ stripNewlines header;
                                  "Paragraph: " +:+ stripNewlines paragraph] /\
        current s1 = {[ [0] ]} /\ current s2 = {[ [2] ]}).
Proof.
  split; [|split].
  - intros doc p. unfold readables.
    rewrite list_elem_of_In, filter_In, <- list_elem_of_In.
    unfold readable. split.
    + intros [Hp Hr]. split; [exact Hp|].
      destruct (subtree doc p) as [elt|]; [|discriminate].
      exists elt. apply andb_true_iff in Hr as [Hi Hs].
      apply negb_true_iff in Hi.
      destruct (elementToString elt); [eauto | discriminate].
    + intros [Hp (elt & -> & Hi & [str Hs])]. split; [exact Hp|].
      rewrite Hi, Hs. simpl. exact (elementToString_truthy elt str Hs).
  - intros doc a y m k n s0.
    destruct (advances_in_document_order doc s0 n eq_refl eq_refl)
      as (s & _ & _ & Hrun & _ & _ & _ & _ & Hs & Hc).
    exists s. auto.
  - intros header label paragraph a y m k s0.
    set (doc := headerButtonParagraph header label paragraph).
    assert (HR : readables doc = [[0]; [2]]) by reflexivity.
    destruct (advances_in_document_order doc s0 1 eq_refl eq_refl)
      as (s1 & _ & _ & Hrun1 & _ & _ & _ & _ & Hs1 & Hc1).
    destruct (advances_in_document_order doc s0 2 eq_refl eq_refl)
      as (s2 & _ & _ & Hrun2 & _ & _ & _ & _ & Hs2 & Hc2).
    exists s1, s2. unfold advances in Hrun1, Hrun2. simpl in Hrun1, Hrun2.
    rewrite Hrun1 in Hrun2. simpl in Hrun2.
    rewrite HR in Hs1, Hs2, Hc1, Hc2.
    repeat split; auto.
Qed.

(** An image element with the given [alt] attribute. *)
Definition image (i : string) (a : option string) : Element :=
  mkElement "IMG" i a false "" "" [].

(** C3, on the code.  For an image, [elementToString] never starts with
    "Here is an image": the conditional operator takes the whole
    concatenation as its condition, which is a non-empty string, so the
    result is "with description " followed by [img.alt]; without an [alt]
    attribute that is "with description " followed by nothing, not a note
    that no description exists. *)
Theorem image_string_lacks_its_opening :
  (forall (i : string) (a : option string) (f : bool) (x h : string)
          (cs : list Element),
      elementToString (mkElement "IMG" i a f x h cs)
      = Some ("with description " +:+ default "" a)) /\
  elementToString (image "" (Some "A cat")) = Some "with description A cat" /\
  elementToString (image "" None) = Some "with description " /\
  (forall a : option string,
      exists str, elementToString (image "" a) = Some str /\
                  String.prefix "Here is an image" str = false).
Proof.
  split; [|split; [|split]]; try reflexivity.
  intros a. eexists. split; reflexivity.
Qed.

(** *** Entering a table *)

(** The element the handlers take as the current one: the first marked
    element in document order. *)
Definition focused (s : State) : option path :=
  preorder (document s) !! scanCurrent (current s) (preorder (document s)).

(** The state a handler leaves behind. *)
Definition stateOf (o : Outcome) : option State :=
  match o with
  | Done s | TypeError s => Some s
  | OutOfFuel => None
  end.

(** The rows of a table and the cells of a row, as the handlers query
    them. *)
Definition rowsOf (doc : Element) (table : path) : option (list path) :=
  descendantsWhere (hasTag "TR") doc table.

Definition cellsOf (doc : Element) (row : path) : option (list path) :=
  descendantsWhere isCell doc row.

Definition stopped (s : State) : State :=
  withSynth (SpeechSynth.stop (synth s)) s.


Lemma focused_Some s p :
  focused s = Some p ->
  (scanCurrent (current s) (preorder (document s))
   =? length (preorder (document s)))%nat = false.
Proof.
  unfold focused. intros H. apply lookup_lt_Some in H.
  apply Nat.eqb_neq. lia.
Qed.

Lemma focused_single s p :
  current s = {[p]} -> p ∈ preorder (document s) -> focused s = Some p.
Proof.
  intros Hc Hp. unfold focused. rewrite Hc.
  now destruct (scanCurrent_found p _ Hp).
Qed.


Lemma readCell_single s c elt :
  current s = {[c]} -> subtree (document s) c = Some elt ->
  readCell s = Done (speak (cellString elt) s).
Proof.
  intros Hc He. unfold readCell.
  assert (Hin : c ∈ preorder (document s)).
  { apply elem_of_preorder. rewrite He. eauto. }
  rewrite (focused_Some s c (focused_single s c Hc Hin)).
  pose proof (focused_single s c Hc Hin) as Hf. unfold focused in Hf.
  rewrite Hf, He. reflexivity.
Qed.

Lemma mode_pushMode m st :
  ModalityStack.mode (ModalityStack.pushMode m st) = Some m.
Proof.
  unfold ModalityStack.mode, ModalityStack.pushMode.
  apply list_lookup_middle. rewrite length_app. simpl. lia.
Qed.

Lemma spoken_stopped s : spoken (stopped s) = spoken s.
Proof. apply heard_stop. Qed.









(** *** Sample pages *)

Definition node (tag i text : string) (cs : list Element) : Element :=
  mkElement tag i None false text text cs.

(** The keybinds as [window.onload] leaves them. *)
Definition registered : Keybinds.t Action :=
  default Keybinds.constructor
    (Keybinds.registerAll registrations Keybinds.constructor).

(** A state in which exactly the element at [p] carries the mark. *)
Definition markedAt (page : Element) (p : path) (modes : ModalityStack.t)
    : State :=
  mkState page {[p]} None (SpeechSynth.constructor SpeechSynth.idleEngine)
    modes registered.

(** A page whose table has a first row of one cell and a second row of
    three, as the HTML parser builds it (rows inside a [tbody]). *)
Definition raggedTable : Element :=
  node "TABLE" "" ""
    [ node "TBODY" "" ""
        [ node "TR" "" "" [ node "TD" "" "a" [] ];
          node "TR" "" "" [ node "TD" "" "b" []; node "TH" "" "c" [];
                            node "TD" "" "d" [] ] ] ].

(** A table whose second row, [<tr></tr>], has no cell. *)
Definition emptyRowTable : Element :=
  node "TABLE" "" ""
    [ node "TBODY" "" ""
        [ node "TR" "" "" [ node "TD" "" "a" [] ];
          node "TR" "" "" [] ] ].

(** A page as [window.onload] prepares it: the style sheet and the
    container at the head of the body. *)
Definition pageWith (content : list Element) : Element :=
  node "HTML" "" ""
    [ node "HEAD" "" "" [ node "TITLE" "" "Sample" [] ];
      node "BODY" "" "" (styleSheet :: controlsContainer :: content) ].


(** *** Moving inside a table *)

(** The position of the focused cell as the vertical moves compute it: its
    parent row, its index among the cells of that row, the enclosing table,
    the rows of that table and the index of the parent among them. *)
Record Position : Type :=
  mkPosition { posParent : path; posColumn : Z;
               posRows : list path; posRow : Z }.

Definition positionOf (doc : Element) (cell : path) : option Position :=
  match parentElement cell with
  | Some parent =>
      match cellsOf doc parent,
            closestTable doc (length cell) cell with
      | Some siblings, Some table =>
          match rowsOf doc table with
          | Some rows =>
              Some (mkPosition parent (indexOf cell siblings)
                      rows (indexOf parent rows))
          | None => None
          end
      | _, _ => None
      end
  | None => None
  end.

(** The row a vertical move goes to, and the cell it picks there. *)
Definition adjacentRow (down : bool) (pos : Position) : option path :=
  item (posRows pos) (if down then posRow pos + 1 else posRow pos - 1)%Z.

Definition atBoundary (down : bool) (pos : Position) : bool :=
  if down then (posRow pos =? Z.of_nat (length (posRows pos)) - 1)%Z
  else (posRow pos =? 0)%Z.

Definition clampedCell (pos : Position) (cells : list path) : option path :=
  item cells (Z.min (posColumn pos) (Z.of_nat (length cells) - 1)).

Lemma moveTo_single prev next elt s :
  current s = {[prev]} -> subtree (document s) next = Some elt ->
  exists s',
    moveTo prev (Some next) s = Done s' /\
    current s' = {[next]} /\ spoken s' = spoken s ++ [cellString elt] /\
    modeStack s' = modeStack s /\ document s' = document s.
Proof.
  intros Hc He. unfold moveTo.
  set (s1 := classList_add next (focus next (classList_remove prev (blur prev s)))).
  assert (F : document s1 = document s /\ synth s1 = synth s /\
              modeStack s1 = modeStack s /\
              current s1 = {[next]} ∪ (current s ∖ {[prev]})).
  { unfold s1, classList_add, classList_remove, blur, focus.
    destruct (decide _); simpl;
      destruct (subtree _ _) as [e0|]; try destruct (focusable e0); simpl; auto. }
  destruct F as (F1 & F2 & F3 & F4).
  assert (C1 : current s1 = {[next]}) by (rewrite F4, Hc; set_solver).
  rewrite (readCell_single s1 next elt C1) by (rewrite F1; exact He).
  eexists. split; [reflexivity|].
  unfold spoken. cbn [speak withSynth synth current modeStack document].
  rewrite heard_speak, F2, F3, F1. auto.
Qed.

Lemma moveTo_nowhere prev s :
  current s = {[prev]} ->
  exists s',
    moveTo prev None s = TypeError s' /\
    current s' = ∅ /\ spoken s' = spoken s.
Proof.
  intros Hc. unfold moveTo. eexists. split; [reflexivity|].
  unfold classList_remove, blur, spoken.
  destruct (decide _); simpl; rewrite Hc; split; auto; set_solver.
Qed.

Lemma tableVertical_unfold down s cell pos :
  current s = {[cell]} -> cell ∈ preorder (document s) ->
  positionOf (document s) cell = Some pos ->
  tableVertical down s =
    if atBoundary down pos then
      Done (speak (if down then "There are no more rows below this one."
                   else "There are no more rows above this one.") s)
    else
      match adjacentRow down pos with
      | Some row =>
          match cellsOf (document s) row with
          | Some cells => moveTo cell (clampedCell pos cells) s
          | None => TypeError s
          end
      | None => TypeError s
      end.
Proof.
  intros Hc Hin Hpos. unfold tableVertical.
  pose proof (focused_single s cell Hc Hin) as Hf.
  rewrite (focused_Some s cell Hf). unfold focused in Hf. rewrite Hf.
  unfold positionOf in Hpos.
  destruct (parentElement cell) as [parent|]; [|discriminate].
  unfold cellsOf, rowsOf in *.
  destruct (descendantsWhere isCell (document s) parent) as [siblings|];
    [|discriminate].
  destruct (closestTable _ _ _) as [table|]; [|discriminate].
  destruct (descendantsWhere (hasTag "TR") _ _) as [rows|]; [|discriminate].
  injection Hpos as <-. unfold atBoundary, adjacentRow, clampedCell. simpl.
  destruct down; reflexivity.
Qed.

(** Vertical moves, in general.  From a focused cell in row [r] and column
    [c]: at the boundary the message is said and the focus stays; otherwise,
    when the adjacent row has a cell, the focus goes to the cell of that row
    at index [min c (length - 1)], which is read; when the adjacent row has
    no cell at all, the handler unmarks the current cell and throws. *)
Lemma vertical_move (down : bool) s cell pos :
  current s = {[cell]} -> cell ∈ preorder (document s) ->
  positionOf (document s) cell = Some pos ->
  (atBoundary down pos = true ->
   exists s',
     tableVertical down s = Done s' /\ current s' = {[cell]} /\
     spoken s' = spoken s ++ [if down
                              then "There are no more rows below this one."
                              else "There are no more rows above this one."]) /\
  (forall row cells,
      atBoundary down pos = false -> adjacentRow down pos = Some row ->
      cellsOf (document s) row = Some cells ->
      (forall target,
          clampedCell pos cells = Some target ->
          exists s' elt,
            tableVertical down s = Done s' /\ current s' = {[target]} /\
            subtree (document s) target = Some elt /\ isCell elt = true /\
            spoken s' = spoken s ++ [cellString elt] /\
            modeStack s' = modeStack s) /\
      (cells = [] ->
       exists s',
         tableVertical down s = TypeError s' /\ current s' = ∅ /\
         spoken s' = spoken s)).
Proof.
  intros Hc Hin Hpos.
  rewrite (tableVertical_unfold down s cell pos Hc Hin Hpos). split.
  - intros ->. eexists. split; [reflexivity|].
    split; [exact Hc | apply spoken_speak].
  - intros row cells -> -> Hcells. rewrite Hcells. split.
    + intros target Ht. rewrite Ht.
      assert (Hv : target ∈ cells).
      { unfold clampedCell, item in Ht.
        destruct (_ <? 0)%Z; [discriminate|].
        apply list_elem_of_lookup. eauto. }
      destruct (descendantsWhere_valid _ _ _ _ target Hcells Hv)
        as (_ & _ & elt & He & Hsel).
      destruct (moveTo_single cell target elt s Hc He)
        as (s' & R & C & S & M & _).
      exists s', elt. auto 10.
    + intros ->. unfold clampedCell, item.
      replace (Z.min (posColumn pos) (Z.of_nat (length (@nil path)) - 1) <? 0)%Z
        with true by (symmetry; apply Z.ltb_lt; simpl; lia).
      apply moveTo_nowhere, Hc.
Qed.

(** *** Tables as grids *)

(** The table at [table], seen as a grid: [rows] are its rows as the reader
    finds them, [grid] lists their cells row by row, and each cell is a child
    of its row and has [table] as its nearest enclosing table. *)
Definition tableGrid (doc : Element) (table : path) (rows : list path)
    (grid : list (list path)) : Prop :=
  rowsOf doc table = Some rows /\
  Forall2 (fun row cells =>
             cellsOf doc row = Some cells /\
             Forall (fun cell =>
                       parentElement cell = Some row /\
                       closestTable doc (length cell) cell = Some table)
               cells)
    rows grid.

Lemma descendantsWhere_NoDup sel doc p l :
  descendantsWhere sel doc p = Some l -> NoDup l.
Proof.
  unfold descendantsWhere. destruct (subtree doc p) as [e|]; [|discriminate].
  intros [= <-]. apply NoDup_fmap_2; [intros q1 q2; apply app_inv_head|].
  apply NoDup_ListNoDup, List.NoDup_filter, NoDup_ListNoDup.
  pose proof (NoDup_preorder e) as ND.
  destruct (preorder e); [constructor|]. now apply NoDup_cons in ND as [_ ND].
Qed.

(** In a grid, the position the handlers compute for the cell in row [r] and
    column [c] is [(r, c)]. *)
Lemma positionOf_grid doc table rows grid r c cells cell :
  tableGrid doc table rows grid ->
  grid !! r = Some cells -> cells !! c = Some cell ->
  exists row,
    rows !! r = Some row /\
    positionOf doc cell
    = Some (mkPosition row (Z.of_nat c) rows (Z.of_nat r)).
Proof.
  intros [Hrows Hgrid] Hr Hc.
  destruct (Forall2_lookup_r _ _ _ _ _ Hgrid Hr) as (row & Hrow & Hcells & Hall).
  exists row. split; [exact Hrow|].
  rewrite Forall_forall in Hall.
  destruct (Hall cell) as [Hpar Htab]; [apply list_elem_of_lookup; eauto|].
  unfold positionOf. rewrite Hpar, Hcells, Htab, Hrows.
  rewrite (indexOf_NoDup cells (descendantsWhere_NoDup _ _ _ _ Hcells) c cell Hc).
  rewrite (indexOf_NoDup rows (descendantsWhere_NoDup _ _ _ _ Hrows) r row Hrow).
  reflexivity.
Qed.

(** Vertical moves on a grid.  With the focus on the cell in row [r] and
    column [c]: a move towards a row [r'] that exists and has a cell focuses
    the cell of that row at index [min c (length - 1)] and reads it; a move
    from the last row down, or from the first row up, says that no more rows
    are there and leaves the focus where it is. *)
Lemma grid_vertical_move (down : bool) s table rows grid r c cells cell :
  tableGrid (document s) table rows grid ->
  grid !! r = Some cells -> cells !! c = Some cell ->
  current s = {[cell]} -> cell ∈ preorder (document s) ->
  (forall r' cells' target,
      (if down then r' = S r else r = S r') ->
      grid !! r' = Some cells' ->
      cells' !! Nat.min c (length cells' - 1) = Some target ->
      exists s' elt,
        tableVertical down s = Done s' /\ current s' = {[target]} /\
        subtree (document s) target = Some elt /\ isCell elt = true /\
        spoken s' = spoken s ++ [cellString elt] /\
        modeStack s' = modeStack s) /\
  ((if down then S r = length grid else r = 0) ->
   exists s',
     tableVertical down s = Done s' /\ current s' = {[cell]} /\
     spoken s' = spoken s ++ [if down
                              then "There are no more rows below this one."
                              else "There are no more rows above this one."]) /\
  (forall r',
      (if down then r' = S r else r = S r') -> grid !! r' = Some [] ->
      exists s',
        tableVertical down s = TypeError s' /\ current s' = ∅ /\
        spoken s' = spoken s).
Proof.
  intros Hgrid Hr Hc Hcur Hin.
  destruct (positionOf_grid _ _ _ _ _ _ _ _ Hgrid Hr Hc) as (row & Hrow & Hpos).
  destruct (vertical_move down s cell _ Hcur Hin Hpos) as [Hedge Hmove].
  pose proof (Forall2_length _ _ _ (proj2 Hgrid)) as Hlen.
  assert (Hrow_at : forall r', (if down then r' = S r else r = S r') ->
            r' < length rows ->
            atBoundary down (mkPosition row (Z.of_nat c) rows (Z.of_nat r))
            = false /\
            adjacentRow down (mkPosition row (Z.of_nat c) rows (Z.of_nat r))
            = rows !! r').
  { intros r' Hadj Hlt. split.
    - unfold atBoundary. simpl. destruct down; apply Z.eqb_neq; lia.
    - unfold adjacentRow. simpl.
      replace (if down then (Z.of_nat r + 1)%Z else (Z.of_nat r - 1)%Z)
        with (Z.of_nat r') by (destruct down; lia).
      apply item_nat. }
  split; [|split].
  - intros r' cells' target Hadj Hr' Ht.
    destruct (Forall2_lookup_r _ _ _ _ _ (proj2 Hgrid) Hr')
      as (row' & Hrow' & Hcells' & _).
    assert (Hlt : r' < length rows) by (eapply lookup_lt_Some; eassumption).
    assert (Hne : 0 < length cells').
    { apply lookup_lt_Some in Ht. lia. }
    destruct (Hrow_at r' Hadj Hlt) as [Hnb Hadjrow].
    destruct (Hmove row' cells' Hnb) as [Hgo _];
      [rewrite Hadjrow; exact Hrow' | exact Hcells' |].
    apply Hgo. unfold clampedCell. simpl.
    replace (Z.min (Z.of_nat c) (Z.of_nat (length cells') - 1))
      with (Z.of_nat (Nat.min c (length cells' - 1))) by lia.
    rewrite item_nat. exact Ht.
  - intros Hb. apply Hedge. unfold atBoundary. simpl.
    destruct down; apply Z.eqb_eq; lia.
  - intros r' Hadj Hr'.
    destruct (Forall2_lookup_r _ _ _ _ _ (proj2 Hgrid) Hr')
      as (row' & Hrow' & Hcells' & _).
    assert (Hlt : r' < length rows) by (eapply lookup_lt_Some; eassumption).
    destruct (Hrow_at r' Hadj Hlt) as [Hnb Hadjrow].
    destruct (Hmove row' [] Hnb) as [_ Hthrow];
      [rewrite Hadjrow; exact Hrow' | exact Hcells' |].
    apply Hthrow. reflexivity.
Qed.

(** The ragged sample table is a grid of one cell over three. *)
Example raggedTable_grid :
  tableGrid (pageWith [raggedTable]) [1; 2]
    [ [1; 2; 0; 0]; [1; 2; 0; 1] ]
    [ [ [1; 2; 0; 0; 0] ];
      [ [1; 2; 0; 1; 0]; [1; 2; 0; 1; 1]; [1; 2; 0; 1; 2] ] ].
Proof.
  split; [vm_compute; reflexivity|].
  repeat (constructor; try (vm_compute; reflexivity)).
Qed.

(** The walk down, right, right, up on the ragged table, from its cell
    (0,0): it ends on the cell it started from, after reading the cells it
    went through. *)
Example ragged_table_walk :
  let cell00 := [1; 2; 0; 0; 0] in
  let s := markedAt (pageWith [raggedTable]) cell00 [NORMAL; TABLE] in
  exists s1 s2 s3 s4,
    runAction TableArrowDown s = Done s1 /\ current s1 = {[ [1; 2; 0; 1; 0] ]} /\
    runAction TableArrowRight s1 = Done s2 /\ current s2 = {[ [1; 2; 0; 1; 1] ]} /\
    runAction TableArrowRight s2 = Done s3 /\ current s3 = {[ [1; 2; 0; 1; 2] ]} /\
    runAction TableArrowUp s3 = Done s4 /\ current s4 = {[ cell00 ]} /\
    spoken s4 = ["Table cell: b"; "Column header: c"; "Table cell: d";
                 "Table cell: a"].
Proof.
  do 4 eexists.
  split; [vm_compute; reflexivity|]. split; [vm_compute; reflexivity|].
  split; [vm_compute; reflexivity|]. split; [vm_compute; reflexivity|].
  split; [vm_compute; reflexivity|]. split; [vm_compute; reflexivity|].
  split; [vm_compute; reflexivity|]. split; vm_compute; reflexivity.
Qed.

(** At the first and at the last row the message is said and the focus
    stays. *)
Example ragged_table_boundaries :
  let cell00 := [1; 2; 0; 0; 0] in
  let cell12 := [1; 2; 0; 1; 2] in
  (exists s', runAction TableArrowUp
                (markedAt (pageWith [raggedTable]) cell00 [NORMAL; TABLE])
              = Done s' /\
              current s' = {[ cell00 ]} /\
              spoken s' = ["There are no more rows above this one."]) /\
  (exists s', runAction TableArrowDown
                (markedAt (pageWith [raggedTable]) cell12 [NORMAL; TABLE])
              = Done s' /\
              current s' = {[ cell12 ]} /\
              spoken s' = ["There are no more rows below this one."]).
Proof.
  split; eexists; (split; [vm_compute; reflexivity|]);
    split; vm_compute; reflexivity.
Qed.

(** C4, on the code.  On a table whose second row has no cell, with the
    focus on the cell (0,0): a row below exists, yet ArrowDown focuses and
    reads nothing.  [Math.min(0, 0 - 1)] is -1, [belowCells[-1]] is
    [undefined]; the handler unmarks the current cell and then throws on
    [nextNode.focus()], so no element is focused any more. *)
Theorem vertical_move_into_empty_row_throws :
  let cell00 := [1; 2; 0; 0; 0] in
  let s := markedAt (pageWith [emptyRowTable]) cell00 [NORMAL; TABLE] in
  focused s = Some cell00 /\
  (exists pos,
      positionOf (document s) cell00 = Some pos /\
      posRow pos = 0%Z /\ posColumn pos = 0%Z /\
      length (posRows pos) = 2 /\ atBoundary true pos = false /\
      adjacentRow true pos = Some [1; 2; 0; 1] /\
      cellsOf (document s) [1; 2; 0; 1] = Some []) /\
  exists s',
    tableVertical true s = TypeError s' /\
    current s' = ∅ /\ focused s' = None /\ spoken s' = [].
Proof.
  split; [vm_compute; reflexivity|]. split.
  - eexists. split; [vm_compute; reflexivity|].
    repeat split; vm_compute; reflexivity.
  - eexists. split; [vm_compute; reflexivity|].
    repeat split; vm_compute; reflexivity.
Qed.




(** The general statement at work: from the cell (0,0) of the ragged table,
    the row below has three cells and the move goes to its cell 0. *)
Example vertical_move_applies :
  exists s' elt,
    tableVertical true
      (markedAt (pageWith [raggedTable]) [1; 2; 0; 0; 0] [NORMAL; TABLE])
    = Done s' /\
    current s' = {[ [1; 2; 0; 1; 0] ]} /\
    subtree (pageWith [raggedTable]) [1; 2; 0; 1; 0] = Some elt /\
    isCell elt = true /\
    spoken s' = [cellString elt] /\
    modeStack s' = [NORMAL; TABLE].
Proof.
  refine (proj1 (proj2 (vertical_move true
            (markedAt (pageWith [raggedTable]) [1; 2; 0; 0; 0] [NORMAL; TABLE])
            [1; 2; 0; 0; 0]
            (mkPosition [1; 2; 0; 0] 0 [[1; 2; 0; 0]; [1; 2; 0; 1]] 0)
            _ _ _)
            [1; 2; 0; 1] [[1; 2; 0; 1; 0]; [1; 2; 0; 1; 1]; [1; 2; 0; 1; 2]]
            _ _ _) [1; 2; 0; 1; 0] _);
    vm_compute; try reflexivity.
  apply list_elem_of_In. vm_compute. tauto.
Qed.

End ScreenReader.

(** * Further properties of the sources *)

(** ** keybinds.ts: dispatch and help *)

Module KeybindsProps.
Import Keybinds.

Lemma set_store {V} (k : string) (v : V) (o : JsObject.t V) :
  JsObject.set k v o = JsObject.store k v o.
Proof.
  unfold JsObject.set. destruct (String.eqb k "__proto__") eqn:E;
    [|reflexivity].
  apply String.eqb_eq in E. subst k. reflexivity.
Qed.

Lemma assoc_store_eq {V} (k : string) (v : V) (o : JsObject.t V) :
  JsObject.assoc k (JsObject.store k v o) = Some v.
Proof.
  induction o as [|[k' v'] o IH]; simpl.
  - now rewrite String.eqb_refl.
  - destruct (String.eqb k k') eqn:E; simpl; rewrite E; [reflexivity|exact IH].
Qed.

Lemma assoc_store_ne {V} (k k' : string) (v : V) (o : JsObject.t V) :
  k <> k' -> JsObject.assoc k' (JsObject.store k v o) = JsObject.assoc k' o.
Proof.
  intros N. induction o as [|[k0 v0] o IH]; simpl.
  - apply String.eqb_neq in N. rewrite String.eqb_sym, N. reflexivity.
  - destruct (String.eqb k k0) eqn:E; simpl.
    + apply String.eqb_eq in E. subst k0.
      apply String.eqb_neq in N. rewrite String.eqb_sym, N. reflexivity.
    + rewrite IH. reflexivity.
Qed.

Lemma store_fresh {V} (k : string) (v : V) (o : JsObject.t V) :
  JsObject.assoc k o = None -> JsObject.store k v o = o ++ [(k, v)].
Proof.
  induction o as [|[k0 v0] o IH]; simpl; [reflexivity|].
  destruct (String.eqb k k0); [discriminate|].
  intros H. now rewrite IH.
Qed.

Lemma indexed_snoc {V} (o : JsObject.t V) (kv : string * V) :
  JsObject.arrayIndex (fst kv) = None ->
  JsObject.indexed (o ++ [kv]) = JsObject.indexed o.
Proof.
  intros H. induction o as [|kv0 o IH]; simpl.
  - now rewrite H.
  - rewrite IH. reflexivity.
Qed.

(** A new key that is neither an array index nor ["__proto__"] is
    enumerated last. *)
Lemma entries_store_fresh {V} (k : string) (v : V) (o : JsObject.t V) :
  JsObject.assoc k o = None -> JsObject.arrayIndex k = None ->
  k <> "__proto__" ->
  JsObject.entries (JsObject.store k v o) = JsObject.entries o ++ [(k, v)].
Proof.
  intros Hg Hi Hp. rewrite (store_fresh k v o Hg). unfold JsObject.entries.
  rewrite indexed_snoc by exact Hi.
  unfold JsObject.t. rewrite filter_app, <- app_assoc. f_equal. f_equal.
  rewrite filter_cons_True by (split; assumption). reflexivity.
Qed.

Lemma indexed_store_proto {V} (v : V) (o : JsObject.t V) :
  JsObject.indexed (JsObject.store "__proto__" v o) = JsObject.indexed o.
Proof.
  induction o as [|[k0 v0] o IH]; [reflexivity|].
  cbn [JsObject.store].
  destruct (String.eqb "__proto__" k0) eqn:E.
  - apply String.eqb_eq in E. subst k0. reflexivity.
  - cbn [JsObject.indexed fst]. rewrite IH. reflexivity.
Qed.

Lemma properties_store_proto {V} (v : V) (o : JsObject.t V) :
  filter (fun kv => JsObject.arrayIndex (fst kv) = None
                    /\ fst kv <> "__proto__")
    (JsObject.store "__proto__" v o)
  = filter (fun kv : string * V =>
              JsObject.arrayIndex (fst kv) = None /\ fst kv <> "__proto__")
      o.
Proof.
  unfold JsObject.t in *.
  induction o as [|[k0 v0] o IH]; cbn [JsObject.store].
  - apply filter_cons_False. simpl. tauto.
  - destruct (String.eqb "__proto__" k0) eqn:E.
    + apply String.eqb_eq in E. subst k0.
      rewrite (filter_cons_False _ ("__proto__", v) o) by (simpl; tauto).
      rewrite (filter_cons_False _ ("__proto__", v0) o) by (simpl; tauto).
      reflexivity.
    + destruct (decide (JsObject.arrayIndex k0 = None /\ k0 <> "__proto__"))
        as [P|P].
      * rewrite !filter_cons_True by exact P. now rewrite IH.
      * rewrite !filter_cons_False by exact P. exact IH.
Qed.

(** Giving an object a prototype changes none of its entries. *)
Lemma entries_store_proto {V} (v : V) (o : JsObject.t V) :
  JsObject.entries (JsObject.store "__proto__" v o) = JsObject.entries o.
Proof.
  unfold JsObject.entries.
  now rewrite indexed_store_proto, properties_store_proto.
Qed.

Lemma toNat_inj m m' :
  ReaderModality.toNat m = ReaderModality.toNat m' -> m = m'.
Proof. destruct m, m'; simpl; congruence. Qed.

Section WithCallback.

Context {Callback : Type}.

Abbreviation registration := (Keybinds.registration Callback).

(** Whether a registration is for this mode and key. *)
Definition bindsKey (m : ReaderModality) (key : string) (r : registration)
    : bool :=
  bool_decide (regMode r = m) && String.eqb (regKey r) key.

(** The registration that counts for a mode and a key: the last one made for
    them. *)
Fixpoint lastBinding (m : ReaderModality) (key : string)
    (rs : list registration) (acc : option registration)
    : option registration :=
  match rs with
  | [] => acc
  | r :: rs' => lastBinding m key rs' (if bindsKey m key r then Some r else acc)
  end.

(** The object a registration stores. *)
Definition bindOf (r : registration) : Bind Callback :=
  mkBind (regDescr r) (regCallback r).

(** What a key press does after the registrations [rs], told from the list
    alone.  A key with a registration of its own runs the last one; so does
    ["__proto__"], whose registrations make the object stored the prototype
    of the mode's map.  A key without one meets what the map inherits: the
    fields of that prototype, when there is one, and the members of
    [Object.prototype]; those are no bindings, and calling their [callback]
    throws. *)
Definition dispatch (m : ReaderModality) (key : string)
    (rs : list registration) : triggered Callback :=
  match lastBinding m key rs None with
  | Some r => Calls (regCallback r)
  | None =>
      if String.eqb key "__proto__" then Throws
      else
        match lastBinding m "__proto__" rs None with
        | Some p =>
            if String.eqb key "description"
            then if String.eqb (regDescr p) "" then Ignores else Throws
            else if String.eqb key "callback" then Throws
            else if JsObject.inObjectPrototype key then Throws
            else Ignores
        | None => if JsObject.inObjectPrototype key then Throws else Ignores
        end
  end.

Lemma assoc_registerKeybind m0 key0 d (cb : Callback) k k' m key b :
  registerKeybind m0 key0 d cb k = Some k' ->
  at_mode m k = Some b ->
  exists b',
    at_mode m k' = Some b' /\
    JsObject.assoc key b'
    = if bool_decide (m0 = m) && String.eqb key0 key
      then Some (mkBind d cb) else JsObject.assoc key b.
Proof.
  unfold registerKeybind, at_mode.
  destruct (keybinds k !! ReaderModality.toNat m0) as [b0|] eqn:Hb;
    [|discriminate].
  intros [= <-] Hm. simpl. rewrite set_store.
  destruct (decide (m0 = m)) as [->|N].
  - rewrite bool_decide_eq_true_2 by reflexivity. simpl.
    rewrite lookup_insert_eq. eexists. split; [reflexivity|].
    rewrite Hb in Hm. injection Hm as ->.
    destruct (String.eqb key0 key) eqn:E.
    + apply String.eqb_eq in E. subst. apply assoc_store_eq.
    + apply String.eqb_neq in E. now apply assoc_store_ne.
  - rewrite bool_decide_eq_false_2 by exact N. simpl.
    rewrite lookup_insert_ne; [eauto|].
    intros E. apply N, toNat_inj, E.
Qed.

Lemma assoc_registerAll (rs : list registration) : forall k k' m key acc b,
  registerAll rs k = Some k' ->
  at_mode m k = Some b ->
  JsObject.assoc key b = bindOf <$> acc ->
  exists b',
    at_mode m k' = Some b' /\
    JsObject.assoc key b' = bindOf <$> lastBinding m key rs acc.
Proof.
  induction rs as [|r rs IH]; intros k k' m key acc b Hrun Hb Hk; simpl in *.
  - injection Hrun as <-. eauto.
  - destruct (registerKeybind _ _ _ _ k) as [k1|] eqn:H1; [|discriminate].
    destruct (assoc_registerKeybind _ _ _ _ _ _ m key b H1 Hb)
      as (b1 & Hb1 & Hk1).
    apply (IH k1 k' m key _ b1 Hrun Hb1).
    rewrite Hk1. unfold bindsKey.
    destruct (bool_decide (regMode r = m) && String.eqb (regKey r) key);
      [reflexivity | exact Hk].
Qed.

(** After registrations on a fresh [Keybinds], [triggerEvent] is
    [dispatch]. *)
Lemma triggerEvent_dispatch (rs : list registration) k m key :
  registerAll rs constructor = Some k ->
  triggerEvent m key k = Some (dispatch m key rs).
Proof.
  intros Hrun.
  destruct (assoc_registerAll rs constructor k m key None [] Hrun
              (constructor_empty_maps m) eq_refl) as (b & Hb & Hkey).
  destruct (assoc_registerAll rs constructor k m "__proto__" None [] Hrun
              (constructor_empty_maps m) eq_refl) as (b' & Hb' & Hproto).
  rewrite Hb in Hb'. injection Hb' as <-.
  unfold triggerEvent, dispatch. rewrite Hb. f_equal.
  unfold JsObject.get, JsObject.prototype. rewrite Hproto, Hkey.
  destruct (String.eqb key "__proto__") eqn:E.
  - apply String.eqb_eq in E. subst key.
    destruct (lastBinding m "__proto__" rs None); reflexivity.
  - destruct (lastBinding m key rs None); [reflexivity|]. simpl.
    destruct (lastBinding m "__proto__" rs None); simpl; [reflexivity|].
    destruct (JsObject.inObjectPrototype key); reflexivity.
Qed.

Lemma inObjectPrototype_plain key :
  JsObject.inObjectPrototype key = false ->
  key <> "__proto__" /\ key <> "constructor" /\ key <> "toString".
Proof.
  intros H. repeat split; intros ->; discriminate H.
Qed.

(** X1. The dispatch table is the list of registrations read with "the last
    one wins".  After any registrations on a fresh [Keybinds], a key that
    has a registration for the mode runs the callback of the last one.  A
    key that has none is ignored, provided it is no member name of
    [Object.prototype] and no registration was made under ["__proto__"];
    a member name of [Object.prototype] without a registration ---
    ["constructor"], ["toString"], ... --- passes the test of
    [triggerEvent] and throws.  In every case the outcome is the one
    [dispatch] tells from the list. *)
Theorem dispatch_is_last_registration :
  forall (rs : list registration) (m : ReaderModality) (key : string),
    exists k,
      registerAll rs constructor = Some k /\
      triggerEvent m key k = Some (dispatch m key rs) /\
      (forall r, lastBinding m key rs None = Some r ->
                 triggerEvent m key k = Some (Calls (regCallback r))) /\
      (lastBinding m key rs None = None ->
       lastBinding m "__proto__" rs None = None ->
       JsObject.inObjectPrototype key = false ->
       triggerEvent m key k = Some Ignores) /\
      (lastBinding m key rs None = None ->
       JsObject.inObjectPrototype key = true ->
       triggerEvent m key k = Some Throws).
Proof.
  intros rs m key.
  destruct (registerAll_total rs constructor constructor_total)
    as (k & Hrun & _).
  exists k. split; [exact Hrun|].
  pose proof (triggerEvent_dispatch rs k m key Hrun) as H.
  split; [exact H|]. rewrite H. unfold dispatch.
  split; [|split].
  - intros r ->. reflexivity.
  - intros -> -> Hk.
    destruct (inObjectPrototype_plain key Hk) as [Hp _].
    rewrite (proj2 (String.eqb_neq _ _) Hp), Hk. reflexivity.
  - intros -> Hk.
    destruct (String.eqb key "__proto__"); [reflexivity|].
    destruct (lastBinding m "__proto__" rs None) as [p|];
      [|now rewrite Hk].
    destruct (String.eqb key "description") eqn:E1;
      [apply String.eqb_eq in E1; subst key; discriminate Hk|].
    destruct (String.eqb key "callback") eqn:E2;
      [reflexivity | now rewrite Hk].
Qed.

Lemma getHelpString_other m0 key d cb k k' m :
  registerKeybind m0 key d cb k = Some k' -> m0 <> m ->
  getHelpString (Callback := Callback) m k' = getHelpString m k.
Proof.
  unfold registerKeybind, getHelpString, at_mode.
  destruct (keybinds k !! ReaderModality.toNat m0) as [b|]; [|discriminate].
  intros [= <-] N. simpl.
  rewrite lookup_insert_ne; [reflexivity|].
  intros E. apply N, toNat_inj, E.
Qed.

(** X2. Registering a key that the mode does not bind yet, that is not an
    array index such as "1" and that is no member name of
    [Object.prototype], adds exactly one sentence to the end of that mode's
    help string, "Press <key as spoken> to <description>.", and leaves the
    help of every other mode as it was.  A registration under ["__proto__"]
    adds nothing to any help string: the assignment sets the prototype of
    the mode's map and creates no property. *)
Theorem help_grows_by_one_sentence
    (m : ReaderModality) (key descr : string) (cb : Callback)
    (k : Keybinds.t Callback) (b : Binds Callback) :
  getAllKeybinds m k = Some b ->
  JsObject.own key b = None ->
  JsObject.arrayIndex key = None ->
  JsObject.inObjectPrototype key = false ->
  (exists k' help,
      registerKeybind m key descr cb k = Some k' /\
      getHelpString m k = Some help /\
      getHelpString m k'
      = Some (help +:+ " Press " +:+ enunciateKey key +:+ " to "
                   +:+ descr +:+ ". ") /\
      forall m', m' <> m -> getHelpString m' k' = getHelpString m' k) /\
  (exists k',
      registerKeybind m "__proto__" descr cb k = Some k' /\
      forall m', getHelpString m' k' = getHelpString m' k).
Proof.
  intros Hb Hfresh Hidx Hmem. unfold getAllKeybinds in Hb.
  destruct (inObjectPrototype_plain key Hmem) as [Hp _].
  unfold JsObject.own in Hfresh.
  rewrite (proj2 (String.eqb_neq _ _) Hp) in Hfresh.
  split.
  - assert (Hreg : registerKeybind m key descr cb k
                   = Some (mk (<[ReaderModality.toNat m :=
                                   JsObject.set key (mkBind descr cb) b]>
                                 (keybinds k)))).
    { unfold registerKeybind. now rewrite Hb. }
    eexists. eexists. split; [exact Hreg|].
    unfold getHelpString at 1 2. rewrite Hb. split; [reflexivity|]. split.
    + unfold at_mode. simpl. rewrite lookup_insert_eq, set_store.
      rewrite (entries_store_fresh key (mkBind descr cb) b Hfresh Hidx Hp).
      rewrite fold_left_app. reflexivity.
    + intros m' N. apply (getHelpString_other _ _ _ _ _ _ _ Hreg).
      congruence.
  - assert (Hreg : registerKeybind m "__proto__" descr cb k
                   = Some (mk (<[ReaderModality.toNat m :=
                                   JsObject.set "__proto__"
                                     (mkBind descr cb) b]>
                                 (keybinds k)))).
    { unfold registerKeybind. now rewrite Hb. }
    eexists. split; [exact Hreg|].
    intros m'. destruct (decide (m = m')) as [<-|N].
    + unfold getHelpString, at_mode. simpl.
      unfold at_mode in Hb. rewrite lookup_insert_eq, Hb, set_store.
      now rewrite entries_store_proto.
    + apply (getHelpString_other _ _ _ _ _ _ _ Hreg N).
Qed.

End WithCallback.

(** X2 at work: a first binding of NORMAL mode, under a key that has a
    pronunciation, and a registration under ["__proto__"]. *)
Lemma help_grows_by_one_sentence_witness :
  (exists k' help,
      registerKeybind NORMAL "ArrowUp" "Go back" tt
        (constructor (Callback := unit)) = Some k' /\
      getHelpString NORMAL (constructor (Callback := unit)) = Some help /\
      getHelpString NORMAL k'
      = Some (help +:+ " Press the up arrow to Go back. ") /\
      forall m', m' <> NORMAL ->
                 getHelpString m' k'
                 = getHelpString m' (constructor (Callback := unit))) /\
  (exists k',
      registerKeybind NORMAL "__proto__" "Go back" tt
        (constructor (Callback := unit)) = Some k' /\
      forall m', getHelpString m' k'
                 = getHelpString m' (constructor (Callback := unit))).
Proof.
  apply (help_grows_by_one_sentence NORMAL "ArrowUp" "Go back" tt
           constructor []);
    reflexivity.
Defined.

End KeybindsProps.

(** ** modalitystack.ts: how push and pop compose *)

Module ModalityStackProps.
Import ModalityStack.

Lemma length_removelast' {A} (l : list A) :
  length (removelast l) = length l - 1.
Proof.
  induction l as [|a [|b l] IH]; try reflexivity.
  change (length (removelast (a :: b :: l)))
    with (S (length (removelast (b :: l)))).
  rewrite IH. simpl. lia.
Qed.

Lemma elem_of_removelast {A} (x : A) (l : list A) :
  x ∈ removelast l -> x ∈ l.
Proof.
  induction l as [|a [|b l] IH]; intros H; try (inversion H; fail).
  change (removelast (a :: b :: l)) with (a :: removelast (b :: l)) in H.
  apply elem_of_cons in H as [->|H]; [left | right; apply IH, H].
Qed.

(** X3. [popMode] returns the mode that was current, whatever the stack; it
    shortens the stack by one when at least two modes are on it and leaves a
    shorter stack alone; and the mode it uncovers was on the stack before. *)
Theorem popMode_returns_current_mode :
  forall s : ModalityStack.t,
    fst (popMode s) = mode s /\
    length (snd (popMode s))
    = (if (2 <=? length s)%nat then length s - 1 else length s) /\
    (forall m, mode (snd (popMode s)) = Some m -> m ∈ s).
Proof.
  intros s. unfold popMode, mode, array_pop.
  destruct s as [|a [|b s]].
  - repeat split; try reflexivity. intros m H. discriminate.
  - repeat split; try reflexivity. simpl. intros m [= <-]. left.
  - change (length (a :: b :: s) =? 1)%nat with false. cbn [fst snd].
    split; [rewrite last_lookup; f_equal; lia|]. split.
    + apply length_removelast'.
    + intros m H. apply list_elem_of_lookup_2 in H.
      apply elem_of_removelast, H.
Qed.

(** X4. Entering a mode and leaving it again restores the stack below and
    hands back the mode entered; only on an empty stack does the mode entered
    stay, as the sole entry. *)
Theorem pushMode_then_popMode :
  forall (m : ReaderModality) (s : ModalityStack.t),
    mode (pushMode m s) = Some m /\
    popMode (pushMode m s)
    = (Some m, match s with [] => [m] | _ :: _ => s end).
Proof.
  intros m s. split.
  - unfold mode, pushMode. apply list_lookup_middle.
    rewrite length_app. simpl. lia.
  - unfold popMode, pushMode, array_pop.
    destruct s as [|a s]; [reflexivity|].
    replace (length ((a :: s) ++ [m]) =? 1)%nat with false
      by (symmetry; apply Nat.eqb_neq; rewrite length_app; simpl; lia).
    rewrite last_snoc, removelast_last. reflexivity.
Qed.

End ModalityStackProps.

(** ** speechsynth.ts: pause state and rate *)

Module SpeechSynthProps.
Import SpeechSynth.

Section WithCallback.

Context {Callback : Type}.

Abbreviation Synth := (SpeechSynth.t Callback).

(** X5. [stopNGo] is no toggle: called [n] times in a row it sends the same
    request every time -- Pause when [isPause] is false, Resume when it is
    true -- and leaves [isPause] as it was, so it never resumes what it
    paused. *)
Theorem stopNGo_repeats_itself :
  forall (e : SpeechSynthesis.t Callback) (r : float) (b : bool) (n : nat),
    let s' := Nat.iter n stopNGo (mk e r b) in
    isPause s' = b /\ speechRate s' = r /\
    SpeechSynthesis.calls (voiceSynth s')
    = SpeechSynthesis.calls e
      ++ repeat (if b then SpeechSynthesis.Resume
                 else SpeechSynthesis.Pause) n /\
    (0 < n -> SpeechSynthesis.paused (voiceSynth s') = negb b).
Proof.
  intros e r b n. induction n as [|n IH]; simpl.
  - rewrite app_nil_r. repeat split; auto. intros H. inversion H.
  - destruct IH as (Hp & Hr & Hc & _).
    destruct (Nat.iter n stopNGo (mk e r b)) as [e' r' b'].
    simpl in Hp, Hr, Hc. subst b' r'.
    destruct b; simpl; rewrite Hc, <- app_assoc;
      (repeat split; auto; f_equal; symmetry; apply repeat_cons).
Qed.

(** The calls of the proxy. *)
Inductive proxyCall : Type :=
| CallPause | CallResume | CallStop | CallStopNGo
| CallSpeak (text : string) (onStart onEnd : Callback)
| CallRate (c : rateCall).

Definition proxyStep (s : Synth) (c : proxyCall) : Synth :=
  match c with
  | CallPause => pause s
  | CallResume => resume s
  | CallStop => stop s
  | CallStopNGo => stopNGo s
  | CallSpeak text onStart onEnd => speak text onStart onEnd s
  | CallRate c => rateStep s c
  end.

Definition proxyRun (cs : list proxyCall) (s : Synth) : Synth :=
  fold_left proxyStep cs s.

Definition isStopNGo (c : proxyCall) : bool :=
  match c with CallStopNGo => true | _ => false end.

(** [isPause] tells the truth about the engine. *)
Definition inSync (s : Synth) : Prop :=
  isPause s = SpeechSynthesis.paused (voiceSynth s).

Lemma proxyStep_inSync s c :
  isStopNGo c = false -> inSync s -> inSync (proxyStep s c).
Proof.
  unfold inSync. destruct s as [e r b].
  destruct c as [| | | |text a z|c]; simpl; try discriminate; intros _ H;
    try (destruct b; simpl; auto; fail).
  destruct c; unfold rateStep, increaseVoiceRate, decreaseVoiceRate,
    changeVoiceRate; simpl;
    repeat match goal with
           | |- context [if ?x then _ else _] => destruct x
           end; exact H.
Qed.

(** X6. As long as [stopNGo] is not used, [isPause] tells the truth about
    the engine: [pause], [resume], [stop], [speak] and the rate calls keep
    [isPause] equal to the engine's own pause flag.  One [stopNGo] is enough
    to make them differ. *)
Theorem isPause_mirrors_engine (cs : list proxyCall) (s : Synth) :
  inSync s ->
  (forallb (fun c => negb (isStopNGo c)) cs = true ->
   inSync (proxyRun cs s)) /\
  ~ inSync (stopNGo s).
Proof.
  intros Hs. split.
  - revert s Hs. induction cs as [|c cs IH]; intros s Hs Hcs; [exact Hs|].
    simpl in Hcs. apply andb_true_iff in Hcs as [Hc Hcs].
    apply negb_true_iff in Hc.
    apply (IH (proxyStep s c)); [apply proxyStep_inSync|]; assumption.
  - unfold inSync in *. destruct s as [e r b]. simpl in *.
    destruct b; simpl; discriminate.
Qed.

Lemma clamp_of_nan x : Prim2SF x = S754_nan -> clamp x = x.
Proof.
  intros H. unfold clamp. rewrite !ltb_spec, H.
  change (Prim2SF 4) with (S754_finite false 4503599627370496 (-50)).
  change (Prim2SF 0.25) with (S754_finite false 4503599627370496 (-54)).
  reflexivity.
Qed.

Lemma nan_rate_stays (s : Synth) c :
  Prim2SF (speechRate s) = S754_nan ->
  Prim2SF (speechRate (rateStep s c)) = S754_nan.
Proof.
  intros H.
  assert (Hm : Prim2SF (speechRate s * factorOf c) = S754_nan).
  { rewrite mul_spec, H. reflexivity. }
  rewrite speechRate_rateStep, (clamp_of_nan _ Hm). exact Hm.
Qed.

Lemma nan_rate_run cs : forall s : Synth,
  Prim2SF (speechRate s) = S754_nan ->
  Prim2SF (speechRate (rateRun cs s)) = S754_nan.
Proof.
  induction cs as [|c cs IH]; intros s H; [exact H|].
  simpl. apply IH, nan_rate_stays, H.
Qed.

Lemma nan_factor (s : Synth) :
  Prim2SF (speechRate (changeVoiceRate nan s)) = S754_nan.
Proof.
  assert (Hm : Prim2SF (speechRate s * nan) = S754_nan).
  { rewrite mul_spec. change (Prim2SF nan) with S754_nan.
    destruct (Prim2SF (speechRate s)); reflexivity. }
  rewrite speechRate_changeVoiceRate, (clamp_of_nan _ Hm). exact Hm.
Qed.

Lemma is_nan_true x : Prim2SF x = S754_nan -> is_nan x = true.
Proof.
  intros H. unfold is_nan. rewrite FloatAxioms.eqb_spec, H. reflexivity.
Qed.

(** X7. NaN is absorbing for the rate: once [changeVoiceRate] has been
    given a NaN factor, whatever the rate was, no later sequence of
    [increaseVoiceRate], [decreaseVoiceRate] and [changeVoiceRate] calls
    brings the rate back to a number: it stays NaN, outside [0.25, 4]. *)
Theorem nan_rate_is_absorbing :
  forall (s : Synth) (cs : list rateCall),
    let s' := rateRun cs (changeVoiceRate nan s) in
    is_nan (speechRate s') = true /\
    inRange (speechRate s') = false /\
    isPause s' = isPause s /\
    voiceSynth s' = voiceSynth s.
Proof.
  intros s cs s'.
  assert (H : Prim2SF (speechRate s') = S754_nan)
    by apply nan_rate_run, nan_factor.
  split; [apply is_nan_true, H|]. split.
  - unfold inRange. rewrite !leb_spec, H.
    change (Prim2SF 0.25) with (S754_finite false 4503599627370496 (-54)).
    reflexivity.
  - subst s'. clear H.
    assert (F : forall c (y : Synth),
               isPause (rateStep y c) = isPause y /\
               voiceSynth (rateStep y c) = voiceSynth y).
    { intros c y. destruct c; unfold rateStep, increaseVoiceRate,
        decreaseVoiceRate, changeVoiceRate;
        repeat match goal with
               | |- context [if ?x then _ else _] => destruct x
               end; split; reflexivity. }
    assert (G : forall cs (y : Synth),
               isPause (rateRun cs y) = isPause y /\
               voiceSynth (rateRun cs y) = voiceSynth y).
    { clear cs. induction cs as [|c cs IH]; intros y; [split; reflexivity|].
      simpl. destruct (IH (rateStep y c)) as [-> ->]. apply F. }
    destruct (G cs (changeVoiceRate nan s)) as [-> ->].
    apply (F (ChangeVoiceRate nan) s).
Qed.

Lemma finish_paused (e : SpeechSynthesis.t Callback) n :
  SpeechSynthesis.paused e = true -> Nat.iter n SpeechSynthesis.finish e = e.
Proof.
  intros H. induction n as [|n IH]; simpl; [reflexivity|].
  rewrite IH. unfold SpeechSynthesis.finish. now rewrite H.
Qed.

(** X8. [speak] does not touch the pause state: [isPause], the engine's
    pause flag and the rate are as before.  So what is spoken to a paused
    engine replaces what was queued but is not heard, however long the engine
    runs; it is heard once [resume] is called. *)
Theorem speak_keeps_the_pause_state :
  forall (text : string) (onStart onEnd : Callback) (s : Synth),
    let s' := speak text onStart onEnd s in
    let u := utterance text onStart onEnd s in
    isPause s' = isPause s /\ speechRate s' = speechRate s /\
    SpeechSynthesis.paused (voiceSynth s')
    = SpeechSynthesis.paused (voiceSynth s) /\
    (SpeechSynthesis.paused (voiceSynth s) = true ->
     forall n,
       SpeechSynthesis.ended
         (Nat.iter n SpeechSynthesis.finish (voiceSynth s'))
       = SpeechSynthesis.ended (voiceSynth s) /\
       SpeechSynthesis.queue
         (Nat.iter n SpeechSynthesis.finish (voiceSynth s')) = [u]) /\
    (isPause s = true ->
     SpeechSynthesis.ended
       (SpeechSynthesis.finish (voiceSynth (resume s')))
     = SpeechSynthesis.ended (voiceSynth s) ++ [u]).
Proof.
  intros text onStart onEnd s s' u.
  split; [reflexivity|]. split; [reflexivity|]. split; [reflexivity|]. split.
  - intros Hp n. rewrite finish_paused by exact Hp. split; reflexivity.
  - intros Hp. unfold resume. subst s'. simpl. rewrite Hp. reflexivity.
Qed.

End WithCallback.

Lemma isPause_mirrors_engine_witness :
  inSync (proxyRun [CallPause; CallSpeak "a" tt tt; CallResume; CallStop;
                    CallRate IncreaseVoiceRate]
            (constructor idleEngine)) /\
  ~ inSync (stopNGo (constructor idleEngine)).
Proof.
  destruct (isPause_mirrors_engine
              [CallPause; CallSpeak "a" tt tt; CallResume; CallStop;
               CallRate IncreaseVoiceRate]
              (constructor idleEngine) eq_refl) as [H1 H2].
  split; [apply H1; reflexivity | exact H2].
Defined.

End SpeechSynthProps.

(** ** screenreader.ts: what every key press keeps *)

Module ScreenReaderProps.
Import Dom.
Import ScreenReader.

(** At most one element carries the mark, and it is an element of the
    page. *)
Definition oneMark (s : State) : Prop :=
  current s = ∅ \/
  exists p, current s = {[p]} /\ p ∈ preorder (document s).

(** A handler ended, normally or by throwing, in state [s']. *)
Definition endsIn (o : Outcome) (s' : State) : Prop :=
  o = Done s' \/ o = TypeError s'.

Lemma oneMark_same s s' :
  current s' = current s -> document s' = document s ->
  oneMark s -> oneMark s'.
Proof. unfold oneMark. intros -> ->. auto. Qed.

Lemma oneMark_focused s :
  oneMark s ->
  (current s = ∅ /\
   scanCurrent (current s) (preorder (document s))
   = length (preorder (document s))) \/
  (exists p, current s = {[p]} /\ p ∈ preorder (document s) /\
             focused s = Some p).
Proof.
  intros [H|(p & H & Hp)].
  - left. split; [exact H|]. rewrite H. apply scanCurrent_empty.
  - right. exists p. split; [exact H|]. split; [exact Hp|].
    now apply focused_single.
Qed.

Lemma subtree_setChildren_kept cp : forall e q cs,
  is_Some (subtree e q) -> ~ properlyBelow cp q ->
  is_Some (subtree (setChildren e cp cs) q).
Proof.
  induction cp as [|i cp IH]; intros e q cs Hq Hb.
  - destruct q as [|j q]; [simpl; eauto|].
    exfalso. apply Hb. split; [discriminate | apply prefix_nil].
  - destruct q as [|j q]; [simpl; eauto|].
    simpl in *. destruct (children e !! i) as [c|] eqn:Hi; [|exact Hq].
    simpl. destruct (decide (i = j)) as [->|N].
    + rewrite list_lookup_insert_eq by (eapply lookup_lt_Some; eassumption).
      rewrite Hi in Hq. apply IH; [exact Hq|].
      intros [H1 H2]. apply Hb. split; [congruence | now apply prefix_cons].
    + rewrite list_lookup_insert_ne by exact N. exact Hq.
Qed.

(** What [renderControls] leaves alone, however it ends. *)
Lemma renderControls_frame s s' :
  endsIn (renderControls s) s' ->
  modeStack s' = modeStack s /\ keybinds s' = keybinds s /\
  synth s' = synth s /\ (oneMark s -> oneMark s').
Proof.
  unfold renderControls, endsIn.
  destruct (ModalityStack.mode (modeStack s)) as [mode|];
    [|intros [[= <-]|[= <-]]; auto].
  destruct (Keybinds.getAllKeybinds mode (keybinds s)) as [modeKeys|];
    [|intros [[= <-]|[= <-]]; auto].
  destruct (getElementById (document s) "screenReader") as [cp|];
    [|intros [[= <-]|[= <-]]; auto].
  intros [[= <-]|H]; [|discriminate]. simpl.
  repeat split; auto.
  intros [H|(p & H & Hp)]; unfold oneMark; simpl; rewrite H.
  - left. apply set_eq. intros q. rewrite elem_of_filter. set_solver.
  - destruct (decide (properlyBelow cp p)) as [B|B].
    + left. apply set_eq. intros q. rewrite elem_of_filter. set_solver.
    + right. exists p. split.
      * apply set_eq. intros q. rewrite elem_of_filter. set_solver.
      * apply elem_of_preorder, subtree_setChildren_kept; [|exact B].
        now apply elem_of_preorder.
Qed.

Lemma oneMark_split s :
  oneMark s ->
  exists pre rest,
    preorder (document s) = pre ++ rest /\ markedLast pre s.
Proof.
  intros [H|(p & H & Hp)].
  - exists [], (preorder (document s)). split; [reflexivity | exact H].
  - apply list_elem_of_split in Hp as (l1 & l2 & Hl).
    exists (l1 ++ [p]), l2. split; [rewrite Hl, <- app_assoc; reflexivity|].
    unfold markedLast. rewrite last_snoc. exact H.
Qed.

(** Forward reading from a page with at most one mark ends with exactly one
    mark and changes neither the page nor the mode. *)
Lemma normalRead_oneMark s :
  oneMark s ->
  exists s',
    normalRead s = Done s' /\ oneMark s' /\
    document s' = document s /\ modeStack s' = modeStack s /\
    keybinds s' = keybinds s.
Proof.
  intros Hone.
  destruct (oneMark_split s Hone) as (pre & rest & Hall & Hm).
  destruct (normalRead_fuel_scan (document s) rest pre s
              (S (length (preorder (document s)))) Hall eq_refl Hm)
    as (s' & R & D & M & K & H).
  { rewrite Hall, length_app. lia. }
  exists s'. repeat split; auto.
  unfold oneMark. rewrite D. right.
  destruct (List.find (readable (document s)) rest) as [q|] eqn:Hfind.
  - exists q. split; [apply H|].
    apply find_some in Hfind as [Hin _]. rewrite Hall.
    apply elem_of_app. right. now apply list_elem_of_In.
  - destruct H as [_ Hl]. unfold markedLast in Hl. rewrite <- Hall in Hl.
    destruct (last (preorder (document s))) as [x|] eqn:Hlast.
    + exists x. split; [exact Hl|]. rewrite last_lookup in Hlast.
      apply list_elem_of_lookup. eauto.
    + apply last_None in Hlast.
      destruct (preorder_nonempty (document s)) as [ps Hps]. congruence.
Qed.

(** Forward reading does not touch the pause flag of the proxy. *)
Lemma normalRead_isPause s s' :
  oneMark s -> normalRead s = Done s' ->
  SpeechSynth.isPause (synth s') = SpeechSynth.isPause (synth s).
Proof.
  intros Hone Hs'.
  destruct (oneMark_split s Hone) as (pre & rest & Hall & Hm).
  destruct (normalRead_fuel_scan (document s) rest pre s
              (S (length (preorder (document s)))) Hall eq_refl Hm)
    as (s0 & R & _ & _ & _ & H).
  { rewrite Hall, length_app. lia. }
  unfold normalRead in Hs'. rewrite R in Hs'. injection Hs' as <-.
  destruct (List.find (readable (document s)) rest) as [q|].
  - destruct H as [_ ->]. reflexivity.
  - destruct H as [-> _]. reflexivity.
Qed.

Lemma readCell_ends s :
  exists s', endsIn (readCell s) s' /\ current s' = current s /\
             document s' = document s /\ modeStack s' = modeStack s /\
             keybinds s' = keybinds s.
Proof.
  unfold readCell, endsIn. destruct (_ =? _)%nat; [eauto 10|].
  destruct (_ !! _); [|eauto 10].
  destruct (subtree _ _); eauto 10.
Qed.

Lemma moveTo_oneMark prev next s :
  current s = {[prev]} ->
  (forall q, next = Some q -> q ∈ preorder (document s)) ->
  exists s', endsIn (moveTo prev next s) s' /\ oneMark s' /\
             modeStack s' = modeStack s /\ keybinds s' = keybinds s.
Proof.
  intros Hc Hv. unfold moveTo.
  set (s1 := classList_remove prev (blur prev s)).
  assert (F : document s1 = document s /\ modeStack s1 = modeStack s /\
              keybinds s1 = keybinds s /\ current s1 = ∅).
  { unfold s1, classList_remove, blur. destruct (decide _); simpl;
      rewrite Hc; repeat split; auto; set_solver. }
  destruct F as (F1 & F2 & F3 & F4).
  destruct next as [q|].
  - set (s2 := classList_add q (focus q s1)).
    assert (G : document s2 = document s /\ modeStack s2 = modeStack s /\
                keybinds s2 = keybinds s /\ current s2 = {[q]}).
    { clearbody s1. unfold s2, classList_add, focus.
      destruct (subtree _ _) as [e0|]; try destruct (focusable e0); simpl;
        rewrite ?F1, ?F2, ?F3, ?F4; repeat split; auto; set_solver. }
    destruct G as (G1 & G2 & G3 & G4).
    destruct (readCell_ends s2) as (s' & E & C & D & M & K).
    exists s'. split; [exact E|]. split; [|split; congruence].
    right. exists q. rewrite C, D, G1. split; [exact G4 | now apply Hv].
  - exists s1. split; [right; reflexivity|]. split; [left; exact F4 | auto].
Qed.

Lemma item_elem_of {A} (l : list A) i x : item l i = Some x -> x ∈ l.
Proof.
  unfold item. destruct (i <? 0)%Z; [discriminate|].
  intros H. apply list_elem_of_lookup. eauto.
Qed.

Lemma cells_valid doc p l i q :
  descendantsWhere isCell doc p = Some l -> item l i = Some q ->
  q ∈ preorder doc.
Proof.
  intros Hl Hi.
  now destruct (descendantsWhere_valid _ _ _ _ q Hl (item_elem_of _ _ _ Hi)).
Qed.

(** The state of a session between two key presses: at most one mark, on an
    element of the page, and a mode stack that is not empty. *)
Definition steady (s : State) : Prop :=
  oneMark s /\ 1 <= length (modeStack s).

(** What a handler may do to the mode stack. *)
Definition popped (ms ms' : ModalityStack.t) : Prop :=
  ms' = snd (ModalityStack.popMode ms).

Definition pushed (m : ReaderModality) (ms ms' : ModalityStack.t) : Prop :=
  ms' = ModalityStack.pushMode m ms.

Definition kept (ms ms' : ModalityStack.t) : Prop := ms' = ms.

Definition stackEffect (a : Action) (ms ms' : ModalityStack.t) : Prop :=
  match a with
  | EditEscape | PausedP | TableQ => popped ms ms'
  | NormalP | TableP => pushed PAUSED ms ms'
  | NormalT => kept ms ms' \/ pushed TABLE ms ms'
  | _ => kept ms ms'
  end.

(** A handler keeps the session steady and the key bindings as they are, its
    effect on the mode stack is [R], and it ends: normally or by throwing,
    never short of unfoldings. *)
Definition keepsSteady (R : ModalityStack.t -> ModalityStack.t -> Prop)
    (h : State -> Outcome) : Prop :=
  forall s, steady s ->
    exists s', endsIn (h s) s' /\ steady s' /\ keybinds s' = keybinds s /\
               R (modeStack s) (modeStack s').

Lemma endsIn_unique o s1 s2 : endsIn o s1 -> endsIn o s2 -> s1 = s2.
Proof. unfold endsIn. intros [H1|H1] [H2|H2]; congruence. Qed.

Lemma keepsSteady_same (h : State -> Outcome) :
  (forall s, exists s', endsIn (h s) s' /\ current s' = current s /\
                        document s' = document s /\
                        modeStack s' = modeStack s /\
                        keybinds s' = keybinds s) ->
  keepsSteady kept h.
Proof.
  intros H s [Hone Hlen]. destruct (H s) as (s' & E & C & D & M & K).
  exists s'. split; [exact E|]. split; [|split; [exact K | exact M]].
  split; [eapply oneMark_same; eassumption | now rewrite M].
Qed.

Lemma renderControls_ends s : exists s', endsIn (renderControls s) s'.
Proof.
  unfold renderControls, endsIn.
  destruct (ModalityStack.mode _); [|eauto].
  destruct (Keybinds.getAllKeybinds _ _); [|eauto].
  destruct (getElementById _ _); eauto.
Qed.

Lemma renderControls_steady s :
  steady s ->
  exists s', endsIn (renderControls s) s' /\ steady s' /\
             keybinds s' = keybinds s /\ modeStack s' = modeStack s.
Proof.
  intros [Hone Hlen]. destruct (renderControls_ends s) as [s' E].
  destruct (renderControls_frame s s' E) as (M & K & Y & O).
  exists s'. unfold steady. rewrite M. auto 10.
Qed.

Lemma popMode_steady : keepsSteady popped popMode.
Proof.
  intros s [Hone Hlen]. unfold popMode.
  destruct (renderControls_steady
              (withModeStack (snd (ModalityStack.popMode (modeStack s))) s))
    as (s' & E & St & K & M).
  - split; [exact Hone|]. simpl. now apply ModalityStack.popMode_nonempty.
  - exists s'. auto.
Qed.

Lemma pushMode_steady m : keepsSteady (pushed m) (pushMode m).
Proof.
  intros s [Hone Hlen]. unfold pushMode.
  destruct (renderControls_steady
              (withModeStack (ModalityStack.pushMode m (modeStack s)) s))
    as (s' & E & St & K & M).
  - split; [exact Hone|]. simpl. rewrite ModalityStack.length_pushMode. lia.
  - exists s'. auto.
Qed.

Lemma keepsSteady_withSynth R (h : State -> Outcome)
    (f : State -> SpeechSynth.t unit) :
  keepsSteady R h -> keepsSteady R (fun s => h (withSynth (f s) s)).
Proof.
  intros H s St. destruct (H (withSynth (f s) s)) as (s' & E & St' & K & M).
  - exact St.
  - exists s'. auto.
Qed.

Lemma normalRead_steady : keepsSteady kept normalRead.
Proof.
  intros s [Hone Hlen].
  destruct (normalRead_oneMark s Hone) as (s' & R & O & _ & M & K).
  exists s'. split; [left; exact R|]. split; [|split; [exact K | exact M]].
  split; [exact O | now rewrite M].
Qed.

Lemma keepsSteady_then R (h1 h2 : State -> Outcome) :
  keepsSteady R h1 -> keepsSteady kept h2 ->
  keepsSteady R (fun s => andThen (h1 s) h2).
Proof.
  intros H1 H2 s St.
  destruct (H1 s St) as (s1 & [E|E] & St1 & K1 & M1); rewrite E.
  - simpl. destruct (H2 s1 St1) as (s2 & E2 & St2 & K2 & M2).
    exists s2. split; [exact E2|]. split; [exact St2|].
    split; [congruence|]. unfold kept in M2. now rewrite M2.
  - exists s1. split; [right; reflexivity | auto].
Qed.

Lemma pausedP_steady : keepsSteady popped pausedP.
Proof.
  unfold pausedP.
  apply (keepsSteady_then popped
           (fun s => popMode (withSynth (SpeechSynth.resume (synth s)) s))
           (fun s1 => if bool_decide (ModalityStack.mode (modeStack s1)
                                      = Some NORMAL)
                         && negb (SpeechSynthesis.speaking
                                    (SpeechSynth.voiceSynth (synth s1)))
                      then normalRead s1 else Done s1)).
  - apply (keepsSteady_withSynth popped popMode), popMode_steady.
  - intros s St. destruct (_ && _).
    + exact (normalRead_steady s St).
    + exists s. split; [left; reflexivity | unfold kept; auto].
Qed.

Lemma pauseP_steady : keepsSteady (pushed PAUSED) pauseP.
Proof.
  unfold pauseP.
  apply (keepsSteady_withSynth (pushed PAUSED) (pushMode PAUSED)),
    pushMode_steady.
Qed.

Lemma tableQ_steady : keepsSteady popped tableQ.
Proof.
  unfold tableQ. apply (keepsSteady_then popped popMode normalRead);
    [apply popMode_steady | apply normalRead_steady].
Qed.

Lemma speakHelp_steady : keepsSteady kept speakHelp.
Proof.
  apply keepsSteady_same. intros s. unfold speakHelp, endsIn.
  destruct (ModalityStack.mode _); [|eauto 10].
  destruct (Keybinds.getHelpString _ _); eauto 10.
Qed.

Lemma previousReadable_elem doc all k p :
  previousReadable doc all k = Some p -> p ∈ all.
Proof.
  induction k as [|k IH]; simpl; [discriminate|].
  destruct (all !! k) as [q|] eqn:Hq; [|discriminate].
  destruct (subtree doc q) as [elt|]; [|discriminate].
  destruct (String.prefix "__sr" (id elt)); [exact IH|].
  destruct (elementToString elt) as [str|]; [|exact IH].
  destruct (truthy str); [|exact IH].
  intros [= <-]. apply list_elem_of_lookup. eauto.
Qed.

Lemma normalArrowUp_steady : keepsSteady kept normalArrowUp.
Proof.
  intros s [Hone Hlen]. unfold normalArrowUp.
  destruct (preorder_nonempty (document s)) as [ps Hps].
  destruct (_ || _) eqn:Hedge.
  - (* no mark, or the mark on the first element: read forward *)
    rewrite Hps. simpl.
    apply (normalRead_steady (classList_remove [] s)). split; [|exact Hlen].
    unfold oneMark, classList_remove. simpl.
    destruct Hone as [H|(p & H & Hp)]; rewrite H.
    + left. set_solver.
    + destruct (decide (p = [])) as [->|N].
      * left. set_solver.
      * right. exists p. split; [set_solver | exact Hp].
  - apply orb_false_iff in Hedge as [Hlen' _].
    destruct (oneMark_focused s Hone) as [[_ H]|(p & Hc & Hp & Hf)].
    { rewrite H, Nat.eqb_refl in Hlen'. discriminate. }
    unfold focused in Hf. rewrite Hf.
    set (s1 := blur p (classList_remove p s)).
    assert (F : document s1 = document s /\ modeStack s1 = modeStack s /\
                keybinds s1 = keybinds s /\ current s1 = ∅).
    { unfold s1, classList_remove, blur. destruct (decide _); simpl;
        rewrite Hc; repeat split; auto; set_solver. }
    destruct F as (F1 & F2 & F3 & F4).
    assert (Hs1 : exists s', endsIn (TypeError s1) s' /\ steady s' /\
                             keybinds s' = keybinds s /\
                             kept (modeStack s) (modeStack s')).
    { exists s1. split; [right; reflexivity|].
      split; [|split; [exact F3 | exact F2]].
      split; [left; exact F4 | now rewrite F2]. }
    destruct (previousReadable _ _ _) as [q|] eqn:Hprev; [|exact Hs1].
    destruct (subtree (document s) q) as [elt|]; [|exact Hs1].
    eexists. split; [left; reflexivity|].
    clearbody s1. unfold steady, oneMark, kept, speak, focus, classList_add.
    destruct (subtree (document _) q) as [e0|];
      try destruct (focusable e0); simpl;
      rewrite ?F1, ?F2, ?F3, ?F4;
      (split; [split; [right; exists q; split;
                        [set_solver
                        | eapply previousReadable_elem; eassumption]
                      | exact Hlen]
              | split; reflexivity]).
Qed.

Lemma normalT_steady :
  keepsSteady (fun ms ms' => kept ms ms' \/ pushed TABLE ms ms') normalT.
Proof.
  intros s [Hone Hlen]. unfold normalT.
  assert (Hsame : forall msg y,
    exists s', endsIn (Done (speak msg (withSynth y s))) s' /\ steady s' /\
               keybinds s' = keybinds s /\
               (kept (modeStack s) (modeStack s') \/
                pushed TABLE (modeStack s) (modeStack s'))).
  { intros msg y. eexists. split; [left; reflexivity|].
    split; [split; [exact Hone | exact Hlen]|].
    split; [reflexivity | left; reflexivity]. }
  assert (Herr : forall y,
    exists s', endsIn (TypeError (withSynth y s)) s' /\ steady s' /\
               keybinds s' = keybinds s /\
               (kept (modeStack s) (modeStack s') \/
                pushed TABLE (modeStack s) (modeStack s'))).
  { intros y. eexists. split; [right; reflexivity|].
    split; [split; [exact Hone | exact Hlen]|].
    split; [reflexivity | left; reflexivity]. }
  assert (Hsame0 := Hsame "You are currently not hovering over a table element."
                      (synth s)).
  assert (Herr0 := Herr (synth s)).
  change (withSynth (synth s) s) with
    (mkState (document s) (current s) (activeElement s) (synth s)
       (modeStack s) (keybinds s)) in Hsame0, Herr0.
  destruct s as [doc cur act y ms kb]. simpl in *.
  destruct (_ =? _)%nat eqn:Hl; [exact Hsame0|].
  destruct (preorder doc !! _) as [t|] eqn:Ht; [|exact Herr0].
  destruct (subtree doc t) as [elt|]; [|exact Herr0].
  destruct (negb (hasTag "TABLE" elt)); [exact Hsame0|].
  destruct (descendantsWhere (hasTag "TR") doc t) as [[|r0 rs]|] eqn:Hr;
    [apply Hsame | | apply Herr].
  destruct (descendantsWhere isCell doc r0) as [[|c0 cs]|] eqn:Hc;
    [apply Hsame | | apply Herr].
  (* the mark moves to the first cell; the controls are rendered; the cell
     is read *)
  assert (Hcur : cur = {[t]}).
  { destruct (oneMark_focused _ Hone) as [[_ H]|(p & Hp & _ & Hf)];
      simpl in *.
    - rewrite H, Nat.eqb_refl in Hl. discriminate.
    - unfold focused in Hf. simpl in Hf. rewrite Hf in Ht. congruence. }
  set (s1 := classList_add c0 (blur t (classList_remove t _))).
  assert (St1 : steady s1 /\ keybinds s1 = kb /\ modeStack s1 = ms).
  { unfold s1, steady, oneMark, classList_add, classList_remove, blur.
    destruct (decide _); simpl;
      (split; [split; [right|exact Hlen]|split; reflexivity]);
      exists c0; (split; [rewrite Hcur; set_solver|]);
      eapply (descendantsWhere_valid _ _ _ _ c0 Hc); left. }
  destruct St1 as (St1 & K1 & M1). clearbody s1.
  destruct (pushMode_steady TABLE s1 St1) as (s2 & [E|E] & St2 & K2 & M2);
    rewrite E; simpl; rewrite M1 in M2.
  - destruct (readCell_ends s2) as (s3 & E3 & C3 & D3 & M3 & K3).
    exists s3. split; [exact E3|].
    split; [|split; [congruence | right; now rewrite M3]].
    destruct St2 as [O2 L2]. split; [|now rewrite M3].
    eapply oneMark_same; eassumption.
  - exists s2. split; [right; reflexivity|].
    split; [exact St2 | split; [congruence | right; exact M2]].
Qed.

Lemma table_move_steady (h : State -> Outcome) :
  (forall s, (exists s', endsIn (h s) s' /\ current s' = current s /\
                         document s' = document s /\
                         modeStack s' = modeStack s /\
                         keybinds s' = keybinds s) \/
             (exists prev next,
                 focused s = Some prev /\ h s = moveTo prev next s /\
                 forall q, next = Some q -> q ∈ preorder (document s))) ->
  keepsSteady kept h.
Proof.
  intros H s [Hone Hlen].
  destruct (H s) as [(s' & E & C & D & M & K)|(prev & next & Hf & -> & Hv)].
  - exists s'. split; [exact E|]. split; [|split; [exact K | exact M]].
    split; [eapply oneMark_same; eassumption | now rewrite M].
  - destruct (oneMark_focused s Hone) as [[_ Hn]|(p & Hc & _ & Hf')].
    + unfold focused in Hf. apply lookup_lt_Some in Hf. lia.
    + rewrite Hf in Hf'. injection Hf' as ->.
      destruct (moveTo_oneMark p next s Hc Hv) as (s' & E & O & M & K).
      exists s'. split; [exact E|]. split; [|split; [exact K | exact M]].
      split; [exact O | now rewrite M].
Qed.

Lemma tableHorizontal_steady right : keepsSteady kept (tableHorizontal right).
Proof.
  apply table_move_steady. intros s. unfold tableHorizontal.
  destruct (_ =? _)%nat; [left; exists s; unfold endsIn; auto 10|].
  fold (focused s).
  destruct (focused s) as [prev|]; [|left; exists s; unfold endsIn; auto 10].
  destruct (parentElement prev) as [parent|];
    [|left; exists s; unfold endsIn; auto 10].
  destruct (descendantsWhere isCell (document s) parent) as [siblings|] eqn:Hs;
    [|left; exists s; unfold endsIn; auto 10].
  destruct right.
  - destruct (_ <? _)%Z.
    + right. eexists _, _. split; [reflexivity|]. split; [reflexivity|].
      intros q Hq. eapply cells_valid; eassumption.
    + left. eexists. unfold endsIn. split; [left; reflexivity | auto].
  - destruct (_ <? _)%Z.
    + right. eexists _, _. split; [reflexivity|]. split; [reflexivity|].
      intros q Hq. eapply cells_valid; eassumption.
    + left. eexists. unfold endsIn. split; [left; reflexivity | auto].
Qed.

Lemma tableVertical_steady down : keepsSteady kept (tableVertical down).
Proof.
  apply table_move_steady. intros s. unfold tableVertical.
  destruct (_ =? _)%nat; [left; exists s; unfold endsIn; auto 10|].
  fold (focused s).
  destruct (focused s) as [prev|]; [|left; exists s; unfold endsIn; auto 10].
  destruct (parentElement prev) as [parent|];
    [|left; exists s; unfold endsIn; auto 10].
  destruct (descendantsWhere isCell (document s) parent) as [siblings|];
    [|left; exists s; unfold endsIn; auto 10].
  destruct (closestTable _ _ _) as [tableElt|];
    [|left; exists s; unfold endsIn; auto 10].
  destruct (descendantsWhere (hasTag "TR") _ _) as [rows|];
    [|left; exists s; unfold endsIn; auto 10].
  match goal with |- context [if ?c then Done _ else _] => destruct c end.
  { left. eexists. unfold endsIn. split; [left; reflexivity | auto]. }
  destruct (item rows _) as [row|]; [|left; exists s; unfold endsIn; auto 10].
  destruct (descendantsWhere isCell (document s) row) as [belowCells|] eqn:Hb;
    [|left; exists s; unfold endsIn; auto 10].
  right. eexists _, _. split; [reflexivity|]. split; [reflexivity|].
  intros q Hq. eapply cells_valid; eassumption.
Qed.

Lemma runAction_steady a : keepsSteady (stackEffect a) (runAction a).
Proof.
  destruct a; simpl; unfold stackEffect;
    try (apply keepsSteady_same; intros s; eexists; unfold endsIn;
         split; [left; reflexivity | auto]; fail).
  - apply popMode_steady.
  - apply pausedP_steady.
  - apply pauseP_steady.
  - apply normalRead_steady.
  - apply normalArrowUp_steady.
  - apply normalT_steady.
  - apply pauseP_steady.
  - apply tableHorizontal_steady.
  - apply tableHorizontal_steady.
  - apply tableVertical_steady.
  - apply tableVertical_steady.
  - apply tableQ_steady.
Qed.

(** The binding a key press finds in the bindings of [window.onload] is one
    of the registrations, made for the current mode and that key. *)
Lemma lastBinding_elem {Callback} m key (rs : list (Keybinds.registration Callback)) :
  forall acc r,
    KeybindsProps.lastBinding m key rs acc = Some r ->
    acc = Some r \/
    (r ∈ rs /\ Keybinds.regMode r = m /\ Keybinds.regKey r = key).
Proof.
  induction rs as [|r0 rs IH]; intros acc r H; simpl in H; [auto|].
  destruct (IH _ _ H) as [Hacc|(Hin & Hm & Hk)].
  - unfold KeybindsProps.bindsKey in Hacc.
    destruct (bool_decide _ && _) eqn:Hb; [|auto].
    injection Hacc as ->. right.
    apply andb_true_iff in Hb as [Hb1 Hb2].
    apply bool_decide_eq_true in Hb1. apply String.eqb_eq in Hb2.
    split; [left | auto].
  - right. split; [right; exact Hin | auto].
Qed.

Lemma registered_triggerEvent m key :
  Keybinds.triggerEvent m key registered
  = Some (KeybindsProps.dispatch m key registrations).
Proof.
  destruct (Keybinds.registerAll_total registrations Keybinds.constructor
              Keybinds.constructor_total) as (k & Hrun & _).
  unfold registered. rewrite Hrun. simpl.
  apply KeybindsProps.triggerEvent_dispatch, Hrun.
Qed.

Lemma registered_dispatch m key :
  exists found,
    Keybinds.triggerEvent m key registered = Some found /\
    forall a, found = Keybinds.Calls a ->
      exists r, r ∈ registrations /\ Keybinds.regMode r = m /\
                Keybinds.regKey r = key /\ Keybinds.regCallback r = a.
Proof.
  eexists. split; [apply registered_triggerEvent|].
  intros a Ha. unfold KeybindsProps.dispatch in Ha.
  destruct (KeybindsProps.lastBinding m key registrations None) as [r|] eqn:Hl.
  - injection Ha as <-.
    destruct (lastBinding_elem _ _ _ _ _ Hl) as [H|(H1 & H2 & H3)];
      [discriminate|].
    exists r. auto.
  - exfalso.
    repeat match type of Ha with
           | context [if ?c then _ else _] => destruct c
           | context [match ?x with Some _ => _ | None => _ end] => destruct x
           end; discriminate Ha.
Qed.

(** The mode stacks of a session. *)
Definition sessionStacks : list ModalityStack.t :=
  [ [NORMAL]; [NORMAL; PAUSED]; [NORMAL; TABLE]; [NORMAL; TABLE; PAUSED] ].

(** X9. Every key press leaves the session steady.  From a state with at
    most one marked element and a mode stack that is not empty, whatever key
    is pressed and whatever the bindings, [globalKeystrokes] ends -- normally
    or by throwing, never without end -- in a state that again has at most
    one marked element, on an element of the page, a mode stack that is not
    empty and a defined current mode, and the same key bindings. *)
Theorem every_keystroke_keeps_one_mark_and_a_mode :
  forall (key : string) (s : State),
    steady s ->
    exists s',
      endsIn (globalKeystrokes key s) s' /\
      steady s' /\
      is_Some (ModalityStack.mode (modeStack s')) /\
      keybinds s' = keybinds s.
Proof.
  intros key s St.
  assert (H : exists s', endsIn (globalKeystrokes key s) s' /\ steady s' /\
                         keybinds s' = keybinds s).
  { unfold globalKeystrokes. destruct (String.eqb key "F1").
    - destruct (keepsSteady_withSynth kept speakHelp
                  (fun s => SpeechSynth.stop (synth s))
                  speakHelp_steady s St) as (s' & E & St' & K & _).
      exists s'. auto.
    - assert (Hs : exists s', endsIn (Done s) s' /\ steady s' /\
                               keybinds s' = keybinds s)
        by (exists s; split; [left; reflexivity | auto]).
      assert (He : exists s', endsIn (TypeError s) s' /\ steady s' /\
                               keybinds s' = keybinds s)
        by (exists s; split; [right; reflexivity | auto]).
      destruct (ModalityStack.mode (modeStack s)); [|exact He].
      destruct (Keybinds.triggerEvent _ _ _) as [[a| |]|];
        [|exact Hs | exact He | exact He].
      destruct (runAction_steady a s St) as (s' & E & St' & K & _).
      exists s'. auto. }
  destruct H as (s' & E & St' & K). exists s'.
  split; [exact E|]. split; [exact St'|]. split; [|exact K].
  destruct (ModalityStack.mode_defined (modeStack s') (proj2 St')) as [m Hm].
  rewrite Hm. eauto.
Qed.

(** X10. With the bindings of [window.onload], the mode stack of a session
    is always one of [NORMAL], [NORMAL, PAUSED], [NORMAL, TABLE] and
    [NORMAL, TABLE, PAUSED]: a key press takes each of these to one of them
    again, however the handler ends.  So EDIT mode is never entered, a pause
    is never stacked on a pause nor a table on a table, and NORMAL stays at
    the bottom. *)
Theorem mode_stack_is_one_of_four :
  forall (key : string) (s s' : State),
    keybinds s = registered ->
    oneMark s ->
    modeStack s ∈ sessionStacks ->
    endsIn (globalKeystrokes key s) s' ->
    modeStack s' ∈ sessionStacks /\ keybinds s' = registered.
Proof.
  intros key s s' Hk Hone Hin Hend.
  assert (St : steady s).
  { split; [exact Hone|]. unfold sessionStacks in Hin.
    repeat (apply elem_of_cons in Hin as [->|Hin]; [simpl; lia|]).
    inversion Hin. }
  revert Hend. unfold globalKeystrokes.
  destruct (String.eqb key "F1").
  { intros Hend.
    destruct (keepsSteady_withSynth kept speakHelp
                (fun s => SpeechSynth.stop (synth s))
                speakHelp_steady s St) as (s1 & E & _ & K & M).
    rewrite (endsIn_unique _ _ _ Hend E), M, K. auto. }
  destruct (ModalityStack.mode (modeStack s)) as [m|] eqn:Hm;
    [|intros [[=]|[= <-]]; auto].
  rewrite Hk. destruct (registered_dispatch m key) as (found & -> & Hfound).
  destruct found as [a| |];
    [|intros [[= <-]|[=]]; auto | intros [[=]|[= <-]]; auto].
  destruct (Hfound a eq_refl) as (r & Hr & Hrm & _ & Hra).
  intros Hend.
  destruct (runAction_steady a s St) as (s1 & E & _ & K & M).
  rewrite (endsIn_unique _ _ _ Hend E), K. split; [|exact Hk].
  clear Hend E K Hfound St Hone Hk.
  unfold registrations in Hr. unfold sessionStacks in Hin.
  repeat (apply elem_of_cons in Hin as [Hms|Hin]);
    [| | | |inversion Hin];
    rewrite Hms in Hm, M; injection Hm as <-;
    repeat (apply elem_of_cons in Hr as [->|Hr]);
    try (inversion Hr; fail); simpl in Hrm; try discriminate;
    simpl in Hra; subst a; simpl in M; unfold kept, popped, pushed in M;
    try destruct M as [M|M]; rewrite M; unfold sessionStacks;
    vm_compute; set_solver.
Qed.

(** *** The on-screen controls *)

Lemma subtree_setChildren_at cp : forall e d cs,
  subtree e cp = Some d ->
  subtree (setChildren e cp cs) cp
  = Some (mkElement (tagName d) (id d) (alt d) (focusable d)
            (innerText d) (innerHTML d) cs).
Proof.
  induction cp as [|i cp IH]; intros e d cs H; simpl in *.
  - injection H as ->. reflexivity.
  - destruct (children e !! i) as [c|] eqn:Hi; [|discriminate]. simpl.
    rewrite list_lookup_insert_eq by (eapply lookup_lt_Some; eassumption).
    now apply IH.
Qed.

Lemma getElementById_valid doc i c :
  getElementById doc i = Some c -> is_Some (subtree doc c).
Proof.
  unfold getElementById. intros H.
  apply elem_of_preorder.
  destruct (List.filter _ _) as [|x l] eqn:Hf; [discriminate|].
  injection H as ->.
  assert (Hin : In c (List.filter
                        (fun q => match subtree doc q with
                                  | Some d => String.eqb (id d) i
                                  | None => false
                                  end) (preorder doc)))
    by (rewrite Hf; left; reflexivity).
  apply filter_In in Hin as [Hin _]. now apply list_elem_of_In.
Qed.

(** The elements [renderControls] creates are not read: the mode label is a
    [span], and the buttons carry ids of the reader. *)
Lemma control_not_readable mode (bs : list (string * Keybinds.Bind Action)) e :
  e ∈ modeSpan mode :: helpButton :: imap controlButton bs ->
  children e = [] /\
  (String.prefix "__sr" (id e) = true \/ elementToString e = None).
Proof.
  intros H. apply elem_of_cons in H as [->|H]; [split; [reflexivity|]|].
  { right. reflexivity. }
  apply elem_of_cons in H as [->|H]; [split; [reflexivity|]|].
  { left. reflexivity. }
  apply list_elem_of_lookup in H as [i H].
  rewrite list_lookup_imap in H.
  destruct (bs !! i) as [kv|]; [|discriminate].
  injection H as <-. split; [reflexivity | left; reflexivity].
Qed.

(** X11. For bindings whose keys and descriptions are plain text,
    [renderControls] puts the mode label, the help button and one button per
    binding of the current mode, in the order of [Object.entries], into
    [#screenReader] -- and none of the elements below [#screenReader] is
    readable afterwards: forward reading never stops at the reader's own
    controls.  (A key or a description with markup in it would be parsed
    into elements of its own, which the model does not build.) *)
Theorem rendered_controls_are_never_read :
  forall (s : State) (c : path) (mode : ReaderModality)
         (modeKeys : Keybinds.Binds Action),
    ModalityStack.mode (modeStack s) = Some mode ->
    Keybinds.getAllKeybinds mode (keybinds s) = Some modeKeys ->
    forallb plainBinding (JsObject.entries modeKeys) = true ->
    getElementById (document s) "screenReader" = Some c ->
    exists s' d,
      renderControls s = Done s' /\
      subtree (document s') c = Some d /\
      children d
      = modeSpan mode :: helpButton
          :: imap controlButton (JsObject.entries modeKeys) /\
      forall q, properlyBelow c q -> readable (document s') q = false.
Proof.
  intros s c mode modeKeys Hm Hk _ Hc. unfold renderControls.
  rewrite Hm, Hk, Hc.
  destruct (getElementById_valid _ _ _ Hc) as [d0 Hd0].
  pose proof (subtree_setChildren_at c (document s) d0
                (modeSpan mode :: helpButton
                   :: imap controlButton (JsObject.entries modeKeys)) Hd0)
    as Hat.
  eexists _, _. split; [reflexivity|]. cbn [document].
  split; [exact Hat|]. split; [reflexivity|].
  intros q [Hne [r ->]]. unfold readable.
  rewrite subtree_app, Hat.
  destruct r as [|i r]; [exfalso; apply Hne; now rewrite app_nil_r|].
  cbn [subtree children].
  destruct (_ !! i) as [e|] eqn:He; [|reflexivity].
  apply list_elem_of_lookup_2, control_not_readable in He as [Hch Hno].
  destruct r as [|j r].
  - simpl. destruct Hno as [-> | ->]; [reflexivity | apply andb_false_r].
  - simpl. rewrite Hch. reflexivity.
Qed.

(** *** Start-up *)






(** A page as the parser leaves it, before [window.onload]. *)
Definition loadedPage (content : list Element) : Element :=
  mkElement "HTML" "" None false "" ""
    [ mkElement "HEAD" "" None false "" ""
        [ mkElement "TITLE" "" None false "Sample" "Sample" [] ];
      mkElement "BODY" "" None false "" "" content ].

(** X12 at work: on a page with one paragraph the container is the second
    child of the body and the paragraph the third; the sample pages
    ([pageWith]) are pages that [window.onload] has prepared. *)
Example onload_on_a_page :
  (forall content,
      insertControls 1 (mkElement "BODY" "" None false "" "" content)
        (loadedPage content) = pageWith content) /\
  (stateOf (onload (loadedPage [mkElement "P" "" None false "x" "x" []]) ∅
              SpeechSynth.idleEngine)
   ≫= fun s =>
        Some (getElementById (document s) "screenReader",
              tagName <$> subtree (document s) [1; 1; 2],
              tagName <$> subtree (document s) [1; 2],
              spoken s, ModalityStack.mode (modeStack s)))
  = Some (Some [1; 1], Some "BUTTON", Some "P", [], Some PAUSED).
Proof.
  split; [reflexivity|]. vm_compute. reflexivity.
Qed.

(** *** Pausing and unpausing *)

Lemma heard_pause y : heard (SpeechSynth.pause y) = heard y.
Proof.
  unfold heard, SpeechSynth.pause. destruct (negb _); [|reflexivity].
  simpl. rewrite omap_app. simpl. apply app_nil_r.
Qed.

Lemma heard_resume y : heard (SpeechSynth.resume y) = heard y.
Proof.
  unfold heard, SpeechSynth.resume. destruct (SpeechSynth.isPause y);
    [|reflexivity].
  simpl. rewrite omap_app. simpl. apply app_nil_r.
Qed.

Lemma speaking_resume_pause (y : SpeechSynth.t unit) :
  SpeechSynthesis.speaking
    (SpeechSynth.voiceSynth (SpeechSynth.resume (SpeechSynth.pause y)))
  = SpeechSynthesis.speaking (SpeechSynth.voiceSynth y).
Proof.
  destruct y as [e r b]. destruct b; reflexivity.
Qed.

Lemma popMode_pushMode m ms :
  1 <= length ms ->
  snd (ModalityStack.popMode (ModalityStack.pushMode m ms)) = ms.
Proof.
  intros H. unfold ModalityStack.popMode, ModalityStack.pushMode,
              ModalityStack.array_pop.
  rewrite length_app. simpl.
  replace (length ms + 1 =? 1)%nat with false
    by (symmetry; apply Nat.eqb_neq; lia).
  simpl. apply removelast_last.
Qed.

(** X13. Pausing and unpausing.  [p] in NORMAL or TABLE mode puts PAUSED on
    the mode stack, sets the pause flag and says nothing; [p] in PAUSED mode
    then restores the mode stack as it was before the pause and clears the
    flag.  The unpause reads on only when the mode it returns to is NORMAL
    and the engine has nothing queued: in every other case nothing is
    said. *)
Theorem pause_then_unpause_restores_the_mode :
  forall s s1 s2 : State,
    steady s ->
    endsIn (pauseP s) s1 ->
    endsIn (pausedP s1) s2 ->
    ModalityStack.mode (modeStack s1) = Some PAUSED /\
    SpeechSynth.isPause (synth s1) = true /\
    spoken s1 = spoken s /\
    modeStack s2 = modeStack s /\
    SpeechSynth.isPause (synth s2) = false /\
    (ModalityStack.mode (modeStack s) <> Some NORMAL \/
     SpeechSynthesis.speaking (SpeechSynth.voiceSynth (synth s)) = true ->
     spoken s2 = spoken s).
Proof.
  intros s s1 s2 [Hone Hlen] H1 H2.
  unfold pauseP, pushMode in H1.
  destruct (renderControls_frame _ _ H1) as (M1 & K1 & Y1 & O1).
  simpl in M1, K1, Y1, O1. specialize (O1 Hone).
  assert (P1 : SpeechSynth.isPause (synth s1) = true).
  { rewrite Y1. unfold SpeechSynth.pause.
    destruct (SpeechSynth.isPause (synth s)) eqn:E; simpl; auto. }
  split; [rewrite M1; apply mode_pushMode|].
  split; [exact P1|].
  split; [unfold spoken; rewrite Y1; apply heard_pause|].
  unfold pausedP, popMode in H2.
  destruct (renderControls_ends
              (withModeStack
                 (snd (ModalityStack.popMode
                         (modeStack
                            (withSynth (SpeechSynth.resume (synth s1)) s1))))
                 (withSynth (SpeechSynth.resume (synth s1)) s1)))
    as [s1' E1].
  destruct (renderControls_frame _ _ E1) as (M1' & K1' & Y1' & O1').
  simpl in M1', K1', Y1', O1'. specialize (O1' O1).
  rewrite M1, popMode_pushMode in M1' by exact Hlen.
  assert (R1 : SpeechSynth.isPause (synth s1') = false).
  { rewrite Y1'. unfold SpeechSynth.resume. rewrite P1. reflexivity. }
  assert (S1 : spoken s1' = spoken s).
  { unfold spoken. rewrite Y1', heard_resume, Y1. apply heard_pause. }
  destruct E1 as [E1|E1]; rewrite E1 in H2; simpl in H2.
  - destruct (bool_decide _ && _) eqn:Hcond.
    + (* back in NORMAL with an idle engine: the reading goes on *)
      destruct (normalRead_oneMark s1' O1') as (s2' & R & O2 & D2 & M2 & K2).
      assert (s2 = s2') by (eapply endsIn_unique; [exact H2 | left; exact R]).
      subst s2'. split; [congruence|].
      apply andb_true_iff in Hcond as [Hn Hq].
      apply bool_decide_eq_true in Hn. apply negb_true_iff in Hq.
      rewrite M1' in Hn. rewrite Y1', Y1, speaking_resume_pause in Hq.
      split; [|intros [N|N]; [contradiction | congruence]].
      rewrite (normalRead_isPause s1' s2 O1' R). exact R1.
    + assert (s2 = s1')
        by (eapply endsIn_unique; [exact H2 | left; reflexivity]).
      subst s2. auto.
  - assert (s2 = s1')
      by (eapply endsIn_unique; [exact H2 | right; reflexivity]).
    subst s2. auto.
Qed.

(** *** Going back *)

(** The backward search of ArrowUp finds the last readable element before
    index [k]. *)
Lemma previousReadable_last doc all :
  (forall p, p ∈ all -> is_Some (subtree doc p)) ->
  forall k, k <= length all ->
    previousReadable doc all k
    = last (List.filter (readable doc) (take k all)).
Proof.
  intros Hv. induction k as [|k IH]; intros Hk; [reflexivity|].
  destruct (lookup_lt_is_Some_2 all k) as [p Hp]; [lia|].
  rewrite (take_S_r _ _ _ Hp), List.filter_app.
  specialize (IH ltac:(lia)).
  simpl. rewrite Hp. unfold readable at 2.
  destruct (Hv p) as [elt He]; [apply list_elem_of_lookup; eauto|].
  rewrite He.
  destruct (String.prefix "__sr" (id elt)); simpl;
    [now rewrite app_nil_r|].
  destruct (elementToString elt) as [str|]; [|now rewrite app_nil_r].
  destruct (truthy str); [now rewrite last_snoc | now rewrite app_nil_r].
Qed.

Lemma last_filter_elem {A} (f : A -> bool) l x :
  last (List.filter f l) = Some x -> x ∈ l /\ f x = true.
Proof.
  intros H. rewrite last_lookup in H.
  assert (Hin : In x (List.filter f l))
    by (apply list_elem_of_In, list_elem_of_lookup; eauto).
  apply filter_In in Hin as [H1 H2]. split; [now apply list_elem_of_In | exact H2].
Qed.

(** ArrowUp with the mark on an element that is not the first of the page. *)
Lemma normalArrowUp_scan s pre p post :
  preorder (document s) = pre ++ p :: post -> current s = {[p]} ->
  pre <> [] ->
  match last (List.filter (readable (document s)) pre) with
  | Some q =>
      exists s',
        normalArrowUp s = Done s' /\ current s' = {[q]} /\
        synth s'
        = SpeechSynth.speak (narration (document s) q) tt tt (synth s) /\
        document s' = document s /\ modeStack s' = modeStack s
  | None =>
      exists s',
        normalArrowUp s = TypeError s' /\ current s' = ∅ /\
        synth s' = synth s
  end.
Proof.
  intros Hall Hc Hpre.
  pose proof (NoDup_preorder (document s)) as ND. rewrite Hall in ND.
  assert (Hp : p ∉ pre).
  { apply NoDup_app in ND as (_ & H & _). intros Hin. apply (H p Hin). left. }
  assert (Hprev : previousReadable (document s) (preorder (document s))
                    (length pre)
                  = last (List.filter (readable (document s)) pre)).
  { rewrite previousReadable_last.
    - rewrite Hall, take_app_length. reflexivity.
    - intros q Hq. now apply elem_of_preorder.
    - rewrite Hall, length_app. lia. }
  unfold normalArrowUp. rewrite Hc, Hall, (scanCurrent_singleton pre p post Hp).
  rewrite <- Hall, Hprev, Hall.
  replace (length pre =? length (pre ++ p :: post))%nat with false
    by (symmetry; apply Nat.eqb_neq; rewrite length_app; simpl; lia).
  replace (length pre =? 0)%nat with false
    by (symmetry; apply Nat.eqb_neq; destruct pre; [congruence | simpl; lia]).
  simpl. rewrite list_lookup_middle by reflexivity.
  destruct (last (List.filter (readable (document s)) pre)) as [q|] eqn:Hl.
  - apply last_filter_elem in Hl as [Hq Hr].
    unfold readable in Hr. unfold narration.
    destruct (subtree (document s) q) as [elt|] eqn:He; [|discriminate].
    apply andb_true_iff in Hr as [_ Hr].
    destruct (elementToString elt) as [str|]; [|discriminate].
    eexists. split; [reflexivity|].
    unfold speak, focus, classList_add, classList_remove, blur.
    destruct (decide _); simpl; rewrite He;
      destruct (focusable elt); simpl; rewrite Hc;
      (split; [set_solver | auto]).
  - eexists. split; [reflexivity|].
    unfold classList_remove, blur.
    destruct (decide _); simpl; rewrite Hc; (split; [set_solver | auto]).
Qed.

Lemma find_split {A} (f : A -> bool) l x :
  List.find f l = Some x ->
  exists l1 l2, l = l1 ++ x :: l2 /\ List.filter f l1 = [] /\ f x = true.
Proof.
  induction l as [|y l IH]; simpl; [discriminate|].
  destruct (f y) eqn:Hy.
  - intros [= <-]. exists [], l. auto.
  - intros H. destruct (IH H) as (l1 & l2 & -> & H1 & H2).
    exists (y :: l1), l2. simpl. rewrite Hy. auto.
Qed.

(** X14. ArrowUp in NORMAL mode.  With the mark on an element [p] that is
    not the first of the page: when a readable element precedes [p], the mark
    moves to the nearest one before [p] and it is said; when none does, the
    handler throws after it has removed the mark, and nothing is said.
    ArrowDown followed by ArrowUp, from a readable element with a readable
    element after it, comes back to the element it started from, after
    saying the next one and then this one. *)
Theorem arrow_up_returns_to_the_previous_readable :
  forall (s : State) (pre : list path) (p : path) (post : list path),
    preorder (document s) = pre ++ p :: post ->
    current s = {[p]} ->
    (pre <> [] ->
     forall q, last (List.filter (readable (document s)) pre) = Some q ->
       exists s',
         normalArrowUp s = Done s' /\ current s' = {[q]} /\
         spoken s' = spoken s ++ [narration (document s) q] /\
         modeStack s' = modeStack s) /\
    (pre <> [] ->
     List.filter (readable (document s)) pre = [] ->
     exists s',
       normalArrowUp s = TypeError s' /\ current s' = ∅ /\
       spoken s' = spoken s) /\
    (readable (document s) p = true ->
     forall q', List.find (readable (document s)) post = Some q' ->
       exists s1 s2,
         normalRead s = Done s1 /\ current s1 = {[q']} /\
         normalArrowUp s1 = Done s2 /\ current s2 = {[p]} /\
         spoken s2
         = spoken s ++ [narration (document s) q'; narration (document s) p]).
Proof.
  intros s pre p post Hall Hc.
  split; [|split].
  - intros Hpre q Hq.
    pose proof (normalArrowUp_scan s pre p post Hall Hc Hpre) as H.
    rewrite Hq in H. destruct H as (s' & R & C & Y & _ & M).
    exists s'. split; [exact R|]. split; [exact C|].
    split; [|exact M]. unfold spoken. rewrite Y. apply heard_speak.
  - intros Hpre Hnone.
    pose proof (normalArrowUp_scan s pre p post Hall Hc Hpre) as H.
    rewrite Hnone in H. destruct H as (s' & R & C & Y).
    exists s'. split; [exact R|]. split; [exact C|].
    unfold spoken. now rewrite Y.
  - intros Hp q' Hfind.
    destruct (normalRead_fuel_scan (document s) post (pre ++ [p]) s
                (S (length (preorder (document s)))))
      as (s1 & R1 & D1 & _ & _ & H1).
    { rewrite Hall, <- app_assoc. reflexivity. }
    { reflexivity. }
    { unfold markedLast. rewrite last_snoc. exact Hc. }
    { rewrite Hall, length_app. simpl. lia. }
    rewrite Hfind in H1. destruct H1 as [C1 Y1].
    destruct (find_split _ _ _ Hfind) as (mid & post' & -> & Hmid & _).
    pose proof (normalArrowUp_scan s1 (pre ++ p :: mid) q' post') as H2.
    rewrite D1 in H2.
    rewrite List.filter_app in H2. simpl in H2.
    rewrite Hp, Hmid in H2.
    change (List.filter (readable (document s)) pre ++ [p])
      with (List.filter (readable (document s)) pre ++ [p]) in H2.
    rewrite last_snoc in H2.
    destruct H2 as (s2 & R2 & C2 & Y2 & _).
    { rewrite Hall, <- app_assoc. reflexivity. }
    { exact C1. }
    { destruct pre; discriminate. }
    exists s1, s2. split; [exact R1|]. split; [exact C1|].
    split; [exact R2|]. split; [exact C2|].
    unfold spoken. rewrite Y2, heard_speak, Y1, heard_speak, <- app_assoc.
    reflexivity.
Qed.

(** *** Moving along a row *)

(** The index a horizontal move goes to, when there is one on that side. *)
Definition neighbour (right : bool) (c : nat) : option nat :=
  if right then Some (S c)
  else match c with O => None | S c' => Some c' end.

Definition noMoreCells (right : bool) : string :=
  if right then "There are no more cells to the right."
  else "There are no more cells to the left.".

(** A horizontal move from the cell at index [c] of its row. *)
Lemma tableHorizontal_unfold right s row cells c cell :
  current s = {[cell]} -> cell ∈ preorder (document s) ->
  parentElement cell = Some row ->
  cellsOf (document s) row = Some cells ->
  cells !! c = Some cell ->
  tableHorizontal right s
  = match neighbour right c ≫= (cells !!.) with
    | Some target => moveTo cell (Some target) s
    | None => Done (speak (noMoreCells right) s)
    end.
Proof.
  intros Hc Hin Hpar Hcells Hcell.
  pose proof (focused_single s cell Hc Hin) as Hf.
  unfold tableHorizontal. rewrite (focused_Some s cell Hf).
  unfold focused in Hf. rewrite Hf, Hpar.
  unfold cellsOf in Hcells. rewrite Hcells.
  rewrite (indexOf_NoDup cells (descendantsWhere_NoDup _ _ _ _ Hcells)
             c cell Hcell).
  pose proof (lookup_lt_Some _ _ _ Hcell) as Hlt.
  destruct right.
  - cbn [neighbour mbind option_bind].
    destruct (Z.of_nat c <? Z.of_nat (length cells) - 1)%Z eqn:E.
    + apply Z.ltb_lt in E.
      replace (Z.of_nat c + 1)%Z with (Z.of_nat (S c)) by lia.
      rewrite item_nat.
      destruct (lookup_lt_is_Some_2 cells (S c)) as [t Ht]; [lia|].
      rewrite Ht. reflexivity.
    + apply Z.ltb_ge in E.
      rewrite (proj2 (lookup_ge_None cells (S c))) by lia. reflexivity.
  - destruct c as [|c']; [reflexivity|].
    replace (0 <? Z.of_nat (S c'))%Z with true
      by (symmetry; apply Z.ltb_lt; lia).
    replace (Z.of_nat (S c') - 1)%Z with (Z.of_nat c') by lia.
    rewrite item_nat. cbn [neighbour mbind option_bind].
    destruct (lookup_lt_is_Some_2 cells c') as [t Ht]; [lia|].
    rewrite Ht. reflexivity.
Qed.

Lemma horizontal_step right s row cells c cell target :
  current s = {[cell]} -> cell ∈ preorder (document s) ->
  parentElement cell = Some row ->
  cellsOf (document s) row = Some cells ->
  cells !! c = Some cell ->
  neighbour right c ≫= (cells !!.) = Some target ->
  exists s' elt,
    tableHorizontal right s = Done s' /\ current s' = {[target]} /\
    subtree (document s) target = Some elt /\ isCell elt = true /\
    spoken s' = spoken s ++ [cellString elt] /\
    modeStack s' = modeStack s /\ document s' = document s.
Proof.
  intros Hc Hin Hpar Hcells Hcell Ht.
  rewrite (tableHorizontal_unfold right s row cells c cell Hc Hin Hpar
             Hcells Hcell), Ht.
  assert (Hv : target ∈ cells).
  { destruct (neighbour right c) as [i|]; [|discriminate].
    simpl in Ht. apply list_elem_of_lookup. eauto. }
  destruct (descendantsWhere_valid _ _ _ _ target Hcells Hv)
    as (_ & _ & elt & He & Hsel).
  destruct (moveTo_single cell target elt s Hc He) as (s' & R & C & S & M & D).
  exists s', elt. auto 10.
Qed.

(** X15. ArrowRight and ArrowLeft in TABLE mode.  With the mark on the cell
    at index [c] among the cells of its parent row: a move towards an index
    that exists puts the mark on that cell and reads it; a move from the
    last cell to the right, or from the first to the left, says that no more
    cells are there and leaves the mark where it is; so a horizontal move
    never throws.  Right followed by left comes back to the cell it started
    from, provided the cell gone through is a child of the same row (a cell
    of a nested table is not). *)
Theorem horizontal_moves_along_the_row :
  forall (s : State) (row : path) (cells : list path) (c : nat) (cell : path),
    current s = {[cell]} -> cell ∈ preorder (document s) ->
    parentElement cell = Some row ->
    cellsOf (document s) row = Some cells ->
    cells !! c = Some cell ->
    (forall (right : bool) target,
        neighbour right c ≫= (cells !!.) = Some target ->
        exists s' elt,
          tableHorizontal right s = Done s' /\ current s' = {[target]} /\
          subtree (document s) target = Some elt /\ isCell elt = true /\
          spoken s' = spoken s ++ [cellString elt] /\
          modeStack s' = modeStack s) /\
    (forall right : bool,
        (if right then S c = length cells else c = 0) ->
        exists s',
          tableHorizontal right s = Done s' /\ current s' = {[cell]} /\
          spoken s' = spoken s ++ [noMoreCells right]) /\
    (forall target here there,
        cells !! S c = Some target ->
        parentElement target = Some row ->
        subtree (document s) cell = Some here ->
        subtree (document s) target = Some there ->
        exists s1 s2,
          tableHorizontal true s = Done s1 /\
          tableHorizontal false s1 = Done s2 /\
          current s2 = {[cell]} /\
          spoken s2 = spoken s ++ [cellString there; cellString here]).
Proof.
  intros s row cells c cell Hc Hin Hpar Hcells Hcell.
  split; [|split].
  - intros right target Ht.
    destruct (horizontal_step right s row cells c cell target Hc Hin Hpar
                Hcells Hcell Ht) as (s' & elt & H).
    exists s', elt. tauto.
  - intros right Hedge.
    rewrite (tableHorizontal_unfold right s row cells c cell Hc Hin Hpar
               Hcells Hcell).
    assert (Hn : neighbour right c ≫= (cells !!.) = None).
    { destruct right; simpl.
      - apply lookup_ge_None. lia.
      - subst c. reflexivity. }
    rewrite Hn. eexists. split; [reflexivity|].
    split; [exact Hc | apply spoken_speak].
  - intros target here there Ht Hpt Hhere Hthere.
    destruct (horizontal_step true s row cells c cell target Hc Hin Hpar
                Hcells Hcell Ht)
      as (s1 & e1 & R1 & C1 & E1 & _ & S1 & _ & D1).
    assert (Hin1 : target ∈ preorder (document s1)).
    { rewrite D1. apply elem_of_preorder. eauto. }
    destruct (horizontal_step false s1 row cells (S c) target cell C1 Hin1 Hpt)
      as (s2 & e2 & R2 & C2 & E2 & _ & S2 & _).
    { rewrite D1. exact Hcells. }
    { exact Ht. }
    { exact Hcell. }
    exists s1, s2. split; [exact R1|]. split; [exact R2|].
    split; [exact C2|].
    rewrite S2, S1, <- app_assoc. rewrite D1 in E2.
    replace e1 with there by congruence.
    replace e2 with here by congruence. reflexivity.
Qed.

(** *** Keys and their handlers *)

Lemma registered_help m : is_Some (Keybinds.getHelpString m registered).
Proof.
  destruct (Keybinds.registerAll_total registrations Keybinds.constructor
              Keybinds.constructor_total) as (k & Hrun & Htot).
  unfold registered. rewrite Hrun. simpl.
  unfold Keybinds.getHelpString. destruct (Htot m) as [b ->]. eauto.
Qed.

Lemma registered_no_prototype m :
  KeybindsProps.lastBinding m "__proto__" registrations None = None.
Proof. destruct m; reflexivity. Qed.

(** A key without a registration for the mode, under the bindings of
    [window.onload]. *)
Lemma registered_unbound m key :
  (forall r, r ∈ registrations -> Keybinds.regMode r = m ->
             Keybinds.regKey r <> key) ->
  Keybinds.triggerEvent m key registered
  = Some (if JsObject.inObjectPrototype key
          then Keybinds.Throws else Keybinds.Ignores).
Proof.
  intros Hnone. rewrite registered_triggerEvent.
  unfold KeybindsProps.dispatch.
  destruct (KeybindsProps.lastBinding m key registrations None) as [r|] eqn:Hl.
  { destruct (lastBinding_elem _ _ _ _ _ Hl) as [H|(H1 & H2 & H3)];
      [discriminate|].
    exfalso. exact (Hnone r H1 H2 H3). }
  rewrite registered_no_prototype.
  destruct (String.eqb key "__proto__") eqn:E; [|reflexivity].
  apply String.eqb_eq in E. subst key. reflexivity.
Qed.

(** X16. How a session answers a key, with the bindings of [window.onload]
    and in mode [m].  F1 is answered before the bindings are looked at, in
    every mode: what was being said is cancelled and the help of the mode is
    said, and nothing else changes.  Every registration is found by its key
    in its mode (none is shadowed by a later one), and the key runs the
    handler registered.  A key without a registration for [m] is ignored,
    the state unchanged and nothing thrown -- unless it is a member name of
    [Object.prototype] (["constructor"], ["toString"], ...): such a key
    passes the test of [triggerEvent] and the handler throws, the state
    unchanged.  In PAUSED mode that is every key but [p] and F1. *)
Theorem session_key_dispatch :
  forall (s : State) (m : ReaderModality),
    keybinds s = registered ->
    ModalityStack.mode (modeStack s) = Some m ->
    (exists help,
        Keybinds.getHelpString m registered = Some help /\
        globalKeystrokes "F1" s
        = Done (speak ("You are currently in " +:+ LF +:+ TAB +:+ TAB
                       +:+ ReaderModality.name m
                       +:+ " mode. Press F one for help. "
                       +:+ LF +:+ TAB +:+ TAB +:+ help) (stopped s))) /\
    (forall r, r ∈ registrations ->
       Keybinds.triggerEvent (Keybinds.regMode r) (Keybinds.regKey r)
         registered
       = Some (Keybinds.Calls (Keybinds.regCallback r))) /\
    (forall r, r ∈ registrations -> Keybinds.regMode r = m ->
       Keybinds.regCallback r <> NormalSpace ->
       globalKeystrokes (Keybinds.regKey r) s
       = runAction (Keybinds.regCallback r) s) /\
    (forall key, key <> "F1" ->
       (forall r, r ∈ registrations -> Keybinds.regMode r = m ->
                  Keybinds.regKey r <> key) ->
       globalKeystrokes key s
       = if JsObject.inObjectPrototype key then TypeError s else Done s) /\
    (m = PAUSED ->
     forall key, key <> "F1" -> key <> "p" ->
       globalKeystrokes key s
       = if JsObject.inObjectPrototype key then TypeError s else Done s).
Proof.
  intros s m Hk Hm.
  assert (Hother : forall key, key <> "F1" ->
            (forall r, r ∈ registrations -> Keybinds.regMode r = m ->
                       Keybinds.regKey r <> key) ->
            globalKeystrokes key s
            = if JsObject.inObjectPrototype key then TypeError s else Done s).
  { intros key HF1 Hnone. unfold globalKeystrokes.
    rewrite (proj2 (String.eqb_neq key "F1") HF1), Hm, Hk.
    rewrite (registered_unbound m key Hnone).
    destruct (JsObject.inObjectPrototype key); reflexivity. }
  split; [|split; [|split; [|split]]].
  - destruct (registered_help m) as [help Hh]. exists help.
    split; [exact Hh|].
    unfold globalKeystrokes, speakHelp. simpl. rewrite Hm, Hk, Hh.
    reflexivity.
  - intros r Hr. rewrite registered_triggerEvent.
    unfold registrations in Hr.
    repeat (apply elem_of_cons in Hr as [->|Hr]; [reflexivity|]).
    inversion Hr.
  - intros r Hr Hrm _. unfold globalKeystrokes.
    rewrite Hm, Hk, registered_triggerEvent. subst m.
    unfold registrations in Hr.
    repeat (apply elem_of_cons in Hr as [->|Hr]; [reflexivity|]).
    inversion Hr.
  - exact Hother.
  - intros -> key HF1 Hp. apply (Hother key HF1).
    intros r Hr Hrm. unfold registrations in Hr.
    repeat (apply elem_of_cons in Hr as [->|Hr];
            [first [discriminate Hrm | simpl; congruence]|]).
    inversion Hr.
Qed.

(** *** Line breaks *)

Definition isLineBreak (c : ascii) : bool :=
  Ascii.eqb c CR || Ascii.eqb c (ascii_of_nat 10).

Fixpoint hasLineBreak (s : string) : bool :=
  match s with
  | EmptyString => false
  | String c r => isLineBreak c || hasLineBreak r
  end.

Lemma stripNewlines_bounded : forall n s,
  String.length s <= n ->
  hasLineBreak (stripNewlines s) = false /\
  String.length (stripNewlines s) <= String.length s.
Proof.
  induction n as [|n IH]; intros s Hn.
  - destruct s; [auto | simpl in Hn; lia].
  - destruct s as [|c r]; [auto|]. simpl in Hn.
    cbn [stripNewlines].
    destruct (Ascii.eqb c CR) eqn:Hcr.
    + destruct r as [|c' r'].
      * simpl. auto.
      * simpl in Hn. destruct (Ascii.eqb c' (ascii_of_nat 10)).
        -- destruct (IH r') as [H1 H2]; [lia|].
           cbn [hasLineBreak String.length]. rewrite H1.
           split; [reflexivity | lia].
        -- destruct (IH (String c' r')) as [H1 H2]; [simpl; lia|].
           cbn [hasLineBreak String.length] in *. rewrite H1.
           split; [reflexivity | lia].
    + destruct (Ascii.eqb c (ascii_of_nat 10)) eqn:Hlf.
      * destruct (IH r) as [H1 H2]; [lia|].
        cbn [hasLineBreak String.length]. rewrite H1.
        split; [reflexivity | lia].
      * destruct (IH r) as [H1 H2]; [lia|].
        cbn [hasLineBreak String.length]. unfold isLineBreak.
        rewrite Hcr, Hlf, H1. split; [reflexivity | lia].
Qed.

Lemma stripNewlines_clean s :
  hasLineBreak s = false -> stripNewlines s = s.
Proof.
  induction s as [|c r IH]; [reflexivity|].
  cbn [hasLineBreak]. unfold isLineBreak.
  intros H. apply orb_false_iff in H as [H1 H2].
  apply orb_false_iff in H1 as [Hcr Hlf].
  cbn [stripNewlines]. rewrite Hcr, Hlf, (IH H2). reflexivity.
Qed.

(** X17. The text the reader takes from an element, [innerText(elt)], has no
    carriage return and no line feed, whatever the element's text is; it is
    never longer than that text; a text without line breaks is taken as it
    is, so taking the text twice changes nothing more.  The strings said for
    titles, headers, paragraphs and buttons, and for table cells, are built
    from it. *)
Theorem stripped_text_has_no_line_break :
  forall elt : Element,
    hasLineBreak (strippedText elt) = false /\
    String.length (strippedText elt) <= String.length (innerText elt) /\
    (hasLineBreak (innerText elt) = false ->
     strippedText elt = innerText elt) /\
    stripNewlines (strippedText elt) = strippedText elt.
Proof.
  intros elt. unfold strippedText.
  destruct (stripNewlines_bounded _ (innerText elt) (le_n _)) as [H1 H2].
  split; [exact H1|]. split; [exact H2|].
  split; [apply stripNewlines_clean|].
  apply stripNewlines_clean, H1.
Qed.

(** *** The end of the page *)

(** X18. Forward reading does not wrap around.  When no readable element
    follows the mark, ArrowDown says nothing and leaves the mark on the last
    element of the page; from there, ArrowDown changes nothing at all. *)
Theorem reading_stops_at_the_end_of_the_page :
  forall (s : State) (pre rest : list path),
    preorder (document s) = pre ++ rest ->
    markedLast pre s ->
    List.filter (readable (document s)) rest = [] ->
    exists s' lastElt,
      normalRead s = Done s' /\
      last (preorder (document s)) = Some lastElt /\
      current s' = {[lastElt]} /\
      spoken s' = spoken s /\
      document s' = document s /\
      normalRead s' = Done s'.
Proof.
  intros s pre rest Hall Hm Hnone.
  destruct (normalRead_fuel_scan (document s) rest pre s
              (S (length (preorder (document s)))) Hall eq_refl Hm)
    as (s' & R & D & _ & _ & H).
  { rewrite Hall, length_app. lia. }
  rewrite (filter_nil_find _ _ Hnone) in H. destruct H as [Y L].
  unfold markedLast in L. rewrite <- Hall in L.
  destruct (preorder_nonempty (document s)) as [ps Hps].
  destruct (last (preorder (document s))) as [x|] eqn:Hlast;
    [|apply last_None in Hlast; congruence].
  exists s', x. split; [exact R|]. split; [reflexivity|].
  split; [exact L|]. split; [unfold spoken; now rewrite Y|].
  split; [exact D|].
  apply last_Some in Hlast as [l' Hl'].
  pose proof (NoDup_preorder (document s)) as ND. rewrite Hl' in ND.
  assert (Hx : x ∉ l').
  { apply NoDup_app in ND as (_ & H & _). intros Hin. apply (H x Hin). left. }
  unfold normalRead. cbn [normalRead_fuel]. rewrite D, L, Hl'.
  rewrite (scanCurrent_singleton l' x [] Hx).
  replace (Z.of_nat (length l') =? Z.of_nat (length (l' ++ [x])) - 1)%Z
    with true by (symmetry; apply Z.eqb_eq; rewrite length_app; simpl; lia).
  reflexivity.
Qed.

(** *** The statements at work on the sample pages *)

(** The state a handler leaves, or [s] when the bound of the model was too
    small. *)
Definition after (o : Outcome) (s : State) : State := default s (stateOf o).

(** X9 at work: ArrowDown in NORMAL mode with the mark on the sample
    table. *)
Lemma every_keystroke_keeps_one_mark_and_a_mode_witness :
  exists s',
    endsIn (globalKeystrokes "ArrowDown"
              (markedAt (pageWith [raggedTable]) [1; 2] [NORMAL])) s' /\
    steady s' /\
    is_Some (ModalityStack.mode (modeStack s')) /\
    keybinds s' = registered.
Proof.
  apply (every_keystroke_keeps_one_mark_and_a_mode "ArrowDown"
           (markedAt (pageWith [raggedTable]) [1; 2] [NORMAL])).
  split; [|simpl; lia].
  right. exists [1; 2]. split; [reflexivity|].
  apply list_elem_of_In. vm_compute. tauto.
Defined.

(** X10 at work: [p] in PAUSED mode, on the page as [window.onload] leaves
    it. *)
Lemma mode_stack_is_one_of_four_witness :
  endsIn (globalKeystrokes "p" (markedAt (pageWith []) [] [NORMAL; PAUSED]))
    (after (globalKeystrokes "p" (markedAt (pageWith []) [] [NORMAL; PAUSED]))
       (markedAt (pageWith []) [] [NORMAL; PAUSED])) /\
  modeStack
    (after (globalKeystrokes "p" (markedAt (pageWith []) [] [NORMAL; PAUSED]))
       (markedAt (pageWith []) [] [NORMAL; PAUSED]))
  ∈ sessionStacks.
Proof.
  assert (E : endsIn
                (globalKeystrokes "p"
                   (markedAt (pageWith []) [] [NORMAL; PAUSED]))
                (after (globalKeystrokes "p"
                          (markedAt (pageWith []) [] [NORMAL; PAUSED]))
                   (markedAt (pageWith []) [] [NORMAL; PAUSED])))
    by (left; vm_compute; reflexivity).
  split; [exact E|].
  apply (mode_stack_is_one_of_four "p"
           (markedAt (pageWith []) [] [NORMAL; PAUSED]) _ eq_refl).
  - right. exists []. split; [reflexivity | left].
  - unfold sessionStacks. right. left.
  - exact E.
Defined.

(** X11 at work: the controls of NORMAL mode on the empty sample page. *)
Lemma rendered_controls_are_never_read_witness :
  exists s' d,
    renderControls (markedAt (pageWith []) [] [NORMAL]) = Done s' /\
    subtree (document s') [1; 1] = Some d /\
    length (children d) = 9 /\
    forall q, properlyBelow [1; 1] q -> readable (document s') q = false.
Proof.
  destruct (rendered_controls_are_never_read
              (markedAt (pageWith []) [] [NORMAL]) [1; 1] NORMAL
              (default [] (Keybinds.getAllKeybinds NORMAL registered)))
    as (s' & d & R & D & C & H);
    try (vm_compute; reflexivity).
  exists s', d. split; [exact R|]. split; [exact D|]. split; [|exact H].
  rewrite C. vm_compute. reflexivity.
Defined.

(** X13 at work: pausing and unpausing inside the sample table. *)
Lemma pause_then_unpause_restores_the_mode_witness :
  exists s1 s2,
    endsIn (pauseP (markedAt (pageWith [raggedTable]) [1; 2; 0; 0; 0]
                      [NORMAL; TABLE])) s1 /\
    endsIn (pausedP s1) s2 /\
    ModalityStack.mode (modeStack s1) = Some PAUSED /\
    modeStack s2 = [NORMAL; TABLE] /\
    spoken s2 = [].
Proof.
  eexists (after (pauseP (markedAt (pageWith [raggedTable]) [1; 2; 0; 0; 0]
                            [NORMAL; TABLE])) _).
  eexists (after (pausedP
                    (after (pauseP (markedAt (pageWith [raggedTable])
                                      [1; 2; 0; 0; 0] [NORMAL; TABLE])) _)) _).
  assert (E1 : endsIn
                 (pauseP (markedAt (pageWith [raggedTable]) [1; 2; 0; 0; 0]
                            [NORMAL; TABLE]))
                 (after (pauseP (markedAt (pageWith [raggedTable])
                                   [1; 2; 0; 0; 0] [NORMAL; TABLE]))
                    (markedAt (pageWith [raggedTable]) [1; 2; 0; 0; 0]
                       [NORMAL; TABLE])))
    by (left; vm_compute; reflexivity).
  assert (E2 : endsIn
                 (pausedP
                    (after (pauseP (markedAt (pageWith [raggedTable])
                                      [1; 2; 0; 0; 0] [NORMAL; TABLE]))
                       (markedAt (pageWith [raggedTable]) [1; 2; 0; 0; 0]
                          [NORMAL; TABLE])))
                 (after
                    (pausedP
                       (after (pauseP (markedAt (pageWith [raggedTable])
                                         [1; 2; 0; 0; 0] [NORMAL; TABLE]))
                          (markedAt (pageWith [raggedTable]) [1; 2; 0; 0; 0]
                             [NORMAL; TABLE])))
                    (markedAt (pageWith [raggedTable]) [1; 2; 0; 0; 0]
                       [NORMAL; TABLE])))
    by (left; vm_compute; reflexivity).
  split; [exact E1|]. split; [exact E2|].
  assert (St : steady (markedAt (pageWith [raggedTable]) [1; 2; 0; 0; 0]
                         [NORMAL; TABLE])).
  { split; [|simpl; lia]. right. exists [1; 2; 0; 0; 0].
    split; [reflexivity|]. apply list_elem_of_In. vm_compute. tauto. }
  destruct (pause_then_unpause_restores_the_mode _ _ _ St E1 E2)
    as (H1 & _ & _ & H2 & _ & H3).
  split; [exact H1|]. split; [exact H2|].
  apply H3. left. discriminate.
Defined.

(** X14 at work: ArrowUp from the paragraph of the header-button-paragraph
    page goes back over the reader's button to the header. *)
Lemma arrow_up_returns_to_the_previous_readable_witness :
  exists s',
    normalArrowUp (markedAt (headerButtonParagraph "A" "B" "C") [2] [NORMAL])
    = Done s' /\
    current s' = {[ [0] ]} /\
    spoken s' = ["Header 1: A"].
Proof.
  destruct (proj1 (arrow_up_returns_to_the_previous_readable
                     (markedAt (headerButtonParagraph "A" "B" "C") [2]
                        [NORMAL])
                     [ []; [0]; [1] ] [2] [] eq_refl eq_refl)
              ltac:(discriminate) [0] eq_refl)
    as (s' & R & C & S & _).
  exists s'. split; [exact R|]. split; [exact C | exact S].
Defined.

(** X15 at work: right and back left in the second row of the sample
    table. *)
Lemma horizontal_moves_along_the_row_witness :
  exists s1 s2,
    tableHorizontal true
      (markedAt (pageWith [raggedTable]) [1; 2; 0; 1; 0] [NORMAL; TABLE])
    = Done s1 /\
    tableHorizontal false s1 = Done s2 /\
    current s2 = {[ [1; 2; 0; 1; 0] ]} /\
    spoken s2 = ["Column header: c"; "Table cell: b"].
Proof.
  assert (Hin : [1; 2; 0; 1; 0]
                ∈ preorder
                    (document (markedAt (pageWith [raggedTable])
                                 [1; 2; 0; 1; 0] [NORMAL; TABLE]))).
  { apply list_elem_of_In. vm_compute. tauto. }
  apply (proj2 (proj2
           (horizontal_moves_along_the_row
              (markedAt (pageWith [raggedTable]) [1; 2; 0; 1; 0]
                 [NORMAL; TABLE])
              [1; 2; 0; 1]
              [ [1; 2; 0; 1; 0]; [1; 2; 0; 1; 1]; [1; 2; 0; 1; 2] ]
              0 [1; 2; 0; 1; 0] eq_refl Hin
              eq_refl eq_refl eq_refl))
           [1; 2; 0; 1; 1] (node "TD" "" "b" []) (node "TH" "" "c" [])
           eq_refl eq_refl eq_refl eq_refl).
Defined.

(** X16 at work, in PAUSED mode: a key without a binding is ignored, a
    member name of [Object.prototype] throws. *)
Lemma session_key_dispatch_witness :
  globalKeystrokes "ArrowDown" (markedAt (pageWith []) [] [NORMAL; PAUSED])
  = Done (markedAt (pageWith []) [] [NORMAL; PAUSED]) /\
  globalKeystrokes "constructor" (markedAt (pageWith []) [] [NORMAL; PAUSED])
  = TypeError (markedAt (pageWith []) [] [NORMAL; PAUSED]).
Proof.
  destruct (session_key_dispatch
              (markedAt (pageWith []) [] [NORMAL; PAUSED]) PAUSED
              eq_refl eq_refl) as (_ & _ & _ & _ & H).
  split.
  - apply (H eq_refl "ArrowDown"); discriminate.
  - apply (H eq_refl "constructor"); discriminate.
Defined.

(** X18 at work: ArrowDown with the mark on the last element of the
    header-button-paragraph page. *)
Lemma reading_stops_at_the_end_of_the_page_witness :
  exists s',
    normalRead (markedAt (headerButtonParagraph "A" "B" "C") [2] [NORMAL])
    = Done s' /\
    current s' = {[ [2] ]} /\ spoken s' = [] /\ normalRead s' = Done s'.
Proof.
  destruct (reading_stops_at_the_end_of_the_page
              (markedAt (headerButtonParagraph "A" "B" "C") [2] [NORMAL])
              [ []; [0]; [1]; [2] ] [] eq_refl eq_refl eq_refl)
    as (s' & x & R & L & C & S & _ & F).
  injection L as <-.
  exists s'. auto.
Defined.
End ScreenReaderProps.
